(** * Subtitle translation pipeline of [src/App.tsx]

    A shallow embedding of [handleStartProcessing] and of the helpers it
    inlines (SDH stripping, the translatable filter, batching, the
    concurrency windows, [processBatch], the per-file try/catch), with the
    properties of the pipeline proved over it.

    Strings are sequences of UTF-16 code units, as in JavaScript.  Entry
    objects are shared between [parsed], [validSubtitles] and the batches:
    the model keeps one store (the [parsed] array) and lets the filtered
    array and the batches hold positions of that store.  The handler is a
    function of the component state and of an environment that answers for
    the imported services and for the order in which promises settle; what
    it does to the outside is kept, in order, in a log of events.  The
    progress percentage is a Number: an IEEE 754 binary64 value, every
    operation rounding to nearest, ties to even. *)

From Stdlib Require Import Ascii String.
From Stdlib Require Import NArith ZArith QArith Qminmax Qpower Lia Lqa Sorted.
From Stdlib Require Import Floats.
From Equations Require Import Equations.
From stdpp Require Import base list sorting.

Local Open Scope nat_scope.
Local Open Scope list_scope.

(** ** JavaScript strings *)

Module JS.

(** A string is its sequence of UTF-16 code units. *)
Abbreviation jsstring := (list N).

(** An ASCII literal as a JavaScript string. *)
Definition str (s : string) : jsstring :=
  List.map N_of_ascii (list_ascii_of_string s).

(** ECMAScript [LineTerminator]: LF, CR, LS, PS.  The regex atom [.]
    (without the [s] flag) matches every code unit but these. *)
Definition isLineTerminator (c : N) : bool :=
  (N.eqb c 10 || N.eqb c 13 || N.eqb c 8232 || N.eqb c 8233)%bool.

(** ECMAScript [WhiteSpace] and [LineTerminator]: what [trim] removes and
    what the regex class [\s] matches. *)
Definition isWhiteSpace (c : N) : bool :=
  (N.eqb c 9 || N.eqb c 11 || N.eqb c 12 || N.eqb c 32 || N.eqb c 160
   || N.eqb c 5760 || (N.leb 8192 c && N.leb c 8202)
   || N.eqb c 8239 || N.eqb c 8287 || N.eqb c 12288 || N.eqb c 65279
   || isLineTerminator c)%bool.

Fixpoint trimStart (s : jsstring) : jsstring :=
  match s with
  | [] => []
  | c :: r => if isWhiteSpace c then trimStart r else s
  end.

Definition trimEnd (s : jsstring) : jsstring :=
  rev (trimStart (rev s)).

(** [String.prototype.trim]. *)
Definition trim (s : jsstring) : jsstring := trimEnd (trimStart s).

(** Truthiness of a string: the empty string is the only falsy one. *)
Definition truthy (s : jsstring) : bool :=
  match s with [] => false | _ :: _ => true end.

(** [a || b] on strings where [a] may be [undefined]. *)
Definition orElse (a : option jsstring) (b : jsstring) : jsstring :=
  match a with
  | Some t => if truthy t then t else b
  | None => b
  end.

(** Truthiness of an optional boolean field ([undefined] is falsy). *)
Definition flag (b : option bool) : bool :=
  match b with Some true => true | _ => false end.

(** [s.split(/\s+/).length]: one more than the number of maximal runs of
    white space. *)
Fixpoint wsRuns (inRun : bool) (s : jsstring) : nat :=
  match s with
  | [] => 0
  | c :: r =>
      if isWhiteSpace c
      then (if inRun then 0 else 1) + wsRuns true r
      else wsRuns false r
  end.

Definition splitWsLength (s : jsstring) : nat := S (wsRuns false s).

(** The lazy body [.*?] followed by a literal closing code unit: the rest
    of the input after the first [close], provided no line terminator
    comes before it. *)
Fixpoint lazyUntil (close : N) (s : jsstring) : option jsstring :=
  match s with
  | [] => None
  | c :: r =>
      if N.eqb c close then Some r
      else if isLineTerminator c then None
      else lazyUntil close r
  end.

Definition LBRACKET : N := 91.
Definition RBRACKET : N := 93.
Definition LPAREN : N := 40.
Definition RPAREN : N := 41.

(** One attempt of [/\[.*?\]|\(.*?\)/] at the head of [s]: the input left
    after the match. *)
Definition matchSDH (s : jsstring) : option jsstring :=
  match s with
  | [] => None
  | c :: r =>
      if N.eqb c LBRACKET then lazyUntil RBRACKET r
      else if N.eqb c LPAREN then lazyUntil RPAREN r
      else None
  end.

Lemma lazyUntil_length close s r :
  lazyUntil close s = Some r -> length r < length s.
Proof.
  revert r. induction s as [|c s IH]; intros r; simpl; [discriminate|].
  destruct (N.eqb c close).
  - intros [= ->]. lia.
  - destruct (isLineTerminator c); [discriminate|].
    intros H. specialize (IH _ H). lia.
Qed.

Lemma matchSDH_length s r :
  matchSDH s = Some r -> S (length r) < length s.
Proof.
  destruct s as [|c s]; simpl; [discriminate|].
  destruct (N.eqb c LBRACKET).
  - intros H%lazyUntil_length. lia.
  - destruct (N.eqb c LPAREN); [|discriminate].
    intros H%lazyUntil_length. lia.
Qed.

(** A value together with the equation that names it, to keep the result
    of a test available in the branches of a definition. *)
Definition withEq {A : Type} (x : A) : { y : A | x = y } :=
  exist _ x eq_refl.

(** [s.replace(/\[.*?\]|\(.*?\)/g, '')]: scan left to right, drop every
    match, resume right after it; copy the code unit where none starts. *)
Equations? replaceSDH (s : jsstring) : jsstring by wf (length s) lt :=
  replaceSDH [] := [];
  replaceSDH (c :: r) with withEq (matchSDH (c :: r)) => {
    | exist _ (Some rest) Heq := replaceSDH rest;
    | exist _ None _ := c :: replaceSDH r }.
Proof.
  - apply matchSDH_length in Heq. lia.
  - simpl. lia.
Qed.

(** The SDH transform of line 112. *)
Definition stripSDH (s : jsstring) : jsstring := trim (replaceSDH s).

End JS.

Import JS.

Example stripSDH_door :
  stripSDH (str "[door slams] World") = str "World".
Proof. vm_compute. reflexivity. Qed.

Example stripSDH_unclosed :
  stripSDH (str " (a [b) c] ") = str "c]".
Proof. vm_compute. reflexivity. Qed.

(** ** JavaScript numbers *)

Module Double.

(** A Number is an IEEE 754 binary64 value.  The numbers of the progress
    formula are array lengths, sums of them, loop indices, and what
    [+], [/], [*] and [Math.min] make of them: none is negative, so signs
    (and the negative zero) are left out.  A finite value is kept as the
    rational it denotes, in lowest terms. *)
Inductive double : Type :=
| Fin (q : Q)
| Inf
| NaN.

Definition pow2 (e : Z) : Q := Qpower 2 e.

(** [floor (log2 x)], for [0 < x]. *)
Definition ilog2 (x : Q) : Z :=
  let k := (Z.log2 (Qnum x) - Z.log2 (Zpos (Qden x)))%Z in
  if Qle_bool (pow2 k) x then k else (k - 1)%Z.

(** The exponent of the unit in the last place of [x]: 53 significant
    bits, and no exponent below that of the subnormal numbers. *)
Definition EMIN : Z := (-1074)%Z.

Definition exponent (x : Q) : Z := Z.max (ilog2 x - 52) EMIN.

(** The integer nearest to [q], the even one of the two at a tie. *)
Definition nearestEven (q : Q) : Z :=
  let n := Qnum q in
  let d := Zpos (Qden q) in
  let f := (n / d)%Z in
  match (2 * (n mod d) ?= d)%Z with
  | Lt => f
  | Gt => (f + 1)%Z
  | Eq => if Z.even f then f else (f + 1)%Z
  end.

(** Rounding to nearest, ties to even, with an unbounded exponent. *)
Definition rndQ (x : Q) : Q :=
  if Qle_bool x 0 then 0%Q
  else
    let e := exponent x in
    Qred (inject_Z (nearestEven (x * pow2 (- e))) * pow2 e).

(** The value of an operation whose exact result is [x >= 0]: [x] rounded,
    and [Infinity] when that exceeds the largest finite number. *)
Definition rnd (x : Q) : double :=
  let r := rndQ (Qred x) in
  if Qle_bool (pow2 1024) r then Inf else Fin r.

#[global] Arguments rnd : simpl never.

Definition isZero (q : Q) : bool := Qeq_bool q 0.

(** [x + y]. *)
Definition fadd (x y : double) : double :=
  match x, y with
  | NaN, _ | _, NaN => NaN
  | Fin a, Fin b => rnd (a + b)
  | _, _ => Inf
  end.

(** [x * y]. *)
Definition fmul (x y : double) : double :=
  match x, y with
  | NaN, _ | _, NaN => NaN
  | Fin a, Fin b => rnd (a * b)
  | Inf, Fin b | Fin b, Inf => if isZero b then NaN else Inf
  | Inf, Inf => Inf
  end.

(** [x / y]. *)
Definition fdiv (x y : double) : double :=
  match x, y with
  | NaN, _ | _, NaN => NaN
  | Fin a, Fin b =>
      if isZero b then (if isZero a then NaN else Inf) else rnd (a / b)
  | Fin _, Inf => Fin 0
  | Inf, Fin _ => Inf
  | Inf, Inf => NaN
  end.

(** [Math.min(x, y)]. *)
Definition fmin (x y : double) : double :=
  match x, y with
  | NaN, _ | _, NaN => NaN
  | Inf, _ => y
  | _, Inf => x
  | Fin a, Fin b => Fin (Qmin a b)
  end.

(** The Number of a count. *)
Definition ofNat (n : nat) : double := rnd (inject_Z (Z.of_nat n)).

(** [x <= y], where both are numbers. *)
Definition dle (x y : double) : Prop :=
  match x, y with
  | Fin a, Fin b => (a <= b)%Q
  | Fin _, Inf | Inf, Inf => True
  | _, _ => False
  end.

(** Every count below [2^53] is a Number: [ofNat] is exact there.  An
    array has fewer than [2^32] elements. *)
Definition safe (n : nat) : Prop := (Z.of_nat n < 2 ^ 53)%Z.

(** The binary64 datum of a number: sign, significand and exponent. *)
Definition toSpec (x : double) : SpecFloat.spec_float :=
  match x with
  | Fin q =>
      if Qle_bool q 0 then SpecFloat.S754_zero false
      else
        let e := exponent q in
        SpecFloat.S754_finite false
          (Z.to_pos (Qnum (Qred (q * pow2 (- e))))) e
  | Inf => SpecFloat.S754_infinity false
  | NaN => SpecFloat.S754_nan
  end.

End Double.

Import Double.

(** ** Data model ([src/types.ts]) *)

(** [ParsedSubtitle]; the source's field [id] is [cue_id] here.  The
    optional boolean fields keep their three values. *)
Record ParsedSubtitle : Type := mkParsedSubtitle {
  cue_id : option jsstring;
  timestamp : option jsstring;
  text : jsstring;
  isHeader : option bool;
  isMalformed : option bool
}.

(** The assignment [p.text = t]. *)
Definition setText (t : jsstring) (p : ParsedSubtitle) : ParsedSubtitle :=
  {| cue_id := cue_id p; timestamp := timestamp p; text := t;
     isHeader := isHeader p; isMalformed := isMalformed p |}.

Inductive ProcessingStatus : Type := Pending | Processing | Done | Error.

(** The browser's [File]: its name, and a handle on its content for the
    reader. *)
Record File : Type := mkFile { name : jsstring; blob : nat }.

(** [FileItem]; the source's field [id] is [file_id] here. *)
Record FileItem : Type := mkFileItem {
  file_id : jsstring;
  file : File;
  status : ProcessingStatus;
  originalText : jsstring;
  translatedText : option jsstring;
  error : option jsstring;
  wordCount : nat
}.

(** [TranslationHistoryItem]; [id], [from] and [to] are [hist_id],
    [from_lang] and [to_lang] here. *)
Record TranslationHistoryItem : Type := mkHistoryItem {
  hist_id : jsstring;
  filename : jsstring;
  from_lang : jsstring;
  to_lang : jsstring;
  date : jsstring
}.

Inductive AppStep : Type := UPLOAD | SETTINGS | RESULTS.

(** A thrown value, of which the code reads [message]. *)
Record Exn : Type := mkExn { message : jsstring }.

(** ** What the handler does to the outside, in the order it does it *)

Inductive Event : Type :=
| EvAlert (msg : jsstring)
    (** [alert(msg)] *)
| EvProgress (v : double)
    (** [setProgress(v)] *)
| EvTranslate (fileIndex batchIndex : nat) (batch : list nat)
              (texts : list jsstring)
    (** [translateBatch(texts, ...)] is called for the batch holding the
        entries at the positions [batch] of [parsed] *)
| EvSettled (fileIndex batchIndex : nat) (batch : list nat) (fulfilled : bool)
    (** the call made for [batch] is fulfilled or rejected *)
| EvConsoleError
    (** [console.error(...)] *)
| EvReconstruct (fileIndex : nat) (entries : list ParsedSubtitle)
    (** [reconstructSubtitles(entries, ...)] is called *).

(** ** The collaborators that are imported by [App.tsx]

    [readFileAsText], [parseSubtitles], [reconstructSubtitles]
    ([services/subtitleUtils]) and [translateBatch]
    ([services/geminiService]) are taken as they are used: each returns or
    throws (rejects).  A remote call is no function of its arguments, so
    [translateBatch] is also given the file and batch it is made for.
    [settleNext f w n] picks which of the [n+1] calls still in flight in
    window [w] of file [f] settles next; every order of completion is one
    such choice.  [dateNow] and [dateLocale] are the clock readings of
    [addToHistory].

    Taken for granted: [translateBatch] is asynchronous (it settles after
    the calls of its window are made) and is fulfilled with an array of
    strings; [parseSubtitles] returns an array of distinct objects;
    [localStorage.setItem] and the clock do not throw; the state is not
    changed from elsewhere while the handler runs. *)
Record Env : Type := mkEnv {
  readFileAsText : File -> Exn + jsstring;
  parseSubtitles : jsstring -> Exn + list ParsedSubtitle;
  reconstructSubtitles : list ParsedSubtitle -> jsstring -> Exn + jsstring;
  translateBatch :
    nat -> nat -> list jsstring -> jsstring -> jsstring -> jsstring ->
    Exn + list jsstring;
  settleNext : nat -> nat -> nat -> nat;
  dateNow : nat -> jsstring;
  dateLocale : nat -> jsstring
}.

(** ** Component state ([useState] cells the handler reads or writes) *)

Record App : Type := mkApp {
  step : AppStep;
  files : list FileItem;
  sourceLang : jsstring;
  targetLang : jsstring;
  prompt : jsstring;
  removeSDH : bool;
  isProcessing : bool;
  progress : double;
  currentProcessingFile : jsstring;
  history : list TranslationHistoryItem;
  storedHistory : option (list TranslationHistoryItem);
    (** [localStorage.translationHistory] *)
  log : list Event
}.

Section Setters.
Variable a : App.

Definition emit (e : Event) : App :=
  mkApp (step a) (files a) (sourceLang a) (targetLang a) (prompt a)
    (removeSDH a) (isProcessing a) (progress a) (currentProcessingFile a)
    (history a) (storedHistory a) (log a ++ [e]).

Definition setStep (s : AppStep) : App :=
  mkApp s (files a) (sourceLang a) (targetLang a) (prompt a)
    (removeSDH a) (isProcessing a) (progress a) (currentProcessingFile a)
    (history a) (storedHistory a) (log a).

Definition setIsProcessing (b : bool) : App :=
  mkApp (step a) (files a) (sourceLang a) (targetLang a) (prompt a)
    (removeSDH a) b (progress a) (currentProcessingFile a)
    (history a) (storedHistory a) (log a).

Definition setProgress (v : double) : App :=
  mkApp (step a) (files a) (sourceLang a) (targetLang a) (prompt a)
    (removeSDH a) (isProcessing a) v (currentProcessingFile a)
    (history a) (storedHistory a) (log a ++ [EvProgress v]).

Definition setCurrentProcessingFile (s : jsstring) : App :=
  mkApp (step a) (files a) (sourceLang a) (targetLang a) (prompt a)
    (removeSDH a) (isProcessing a) (progress a) s
    (history a) (storedHistory a) (log a).

(** [setFiles(prev => u(prev))]. *)
Definition setFiles (u : list FileItem -> list FileItem) : App :=
  mkApp (step a) (u (files a)) (sourceLang a) (targetLang a) (prompt a)
    (removeSDH a) (isProcessing a) (progress a) (currentProcessingFile a)
    (history a) (storedHistory a) (log a).

(** [setHistory(h); localStorage.setItem('translationHistory', h)]. *)
Definition setHistory (h : list TranslationHistoryItem) : App :=
  mkApp (step a) (files a) (sourceLang a) (targetLang a) (prompt a)
    (removeSDH a) (isProcessing a) (progress a) (currentProcessingFile a)
    h (Some h) (log a).
End Setters.

(** ** Step 3: SDH stripping (lines 109-115) *)

(** The body of the [forEach]: guarded by the truthiness of [p.text] and by
    nothing else. *)
Definition stripEntry (p : ParsedSubtitle) : ParsedSubtitle :=
  if truthy (text p) then setText (stripSDH (text p)) p else p.

Definition stripAll (on : bool) (parsed : list ParsedSubtitle)
  : list ParsedSubtitle :=
  if on then stripEntry <$> parsed else parsed.

(** ** Step 4: filter, batches, windows (lines 120-158) *)

Definition BATCH_SIZE : nat := 100.
Definition CONCURRENT_LIMIT : nat := 5.

(** The predicate of the [filter] of line 123. *)
Definition translatable (p : ParsedSubtitle) : bool :=
  (negb (flag (isHeader p)) && negb (flag (isMalformed p))
   && (0 <? length (trim (text p))))%bool.

(** [parsed.filter(...)]: the filtered array holds the same objects, so
    it is the list of their positions in [parsed], in order. *)
Fixpoint validFrom (j : nat) (parsed : list ParsedSubtitle) : list nat :=
  match parsed with
  | [] => []
  | p :: rest =>
      if translatable p then j :: validFrom (S j) rest
      else validFrom (S j) rest
  end.

Definition validSubtitles (parsed : list ParsedSubtitle) : list nat :=
  validFrom 0 parsed.

(** [for (j = j0; j < arr.length; j += size) out.push(arr.slice(j, j + size))],
    the loop of lines 127-129 and of lines 154-155.  With [size = 0] the
    loop of the source does not end; the model stops there, and both uses
    have a positive constant for [size]. *)
Equations? slices {A : Type} (size : nat) (arr : list A) (j : nat)
  : list (list A) by wf (length arr - j) lt :=
slices size arr j with withEq ((0 <? size) && (j <? length arr))%bool => {
  | exist _ true Hlt := take size (drop j arr) :: slices size arr (j + size);
  | exist _ false _ := [] }.
Proof.
  apply andb_prop in Hlt as [H1 H2].
  apply Nat.ltb_lt in H1. apply Nat.ltb_lt in H2. lia.
Qed.

(** A call of [translateBatch] that has been made and has not settled:
    the batch it was made for and what it will settle with. *)
Record InFlight : Type := mkInFlight {
  batchIndex : nat;
  entries : list nat;
  outcome : Exn + list jsstring
}.

(** The variables of one iteration of the file loop that [processBatch]
    closes over, next to the component state. *)
Record Run : Type := mkRun {
  app : App;
  parsed : list ParsedSubtitle;
  completedSubtitlesCount : nat
}.

Definition textAt (store : list ParsedSubtitle) (j : nat) : jsstring :=
  from_option text [] (store !! j).

(** [batch.forEach((sub, idx) => { sub.text = translatedBatch[idx] || sub.text })]. *)
Fixpoint assignFrom (translatedBatch : list jsstring) (idx : nat)
    (batch : list nat) (store : list ParsedSubtitle) : list ParsedSubtitle :=
  match batch with
  | [] => store
  | j :: rest =>
      assignFrom translatedBatch (S idx) rest
        (alter (fun sub => setText (orElse (translatedBatch !! idx) (text sub)) sub)
               j store)
  end.

(** [((i + completed / total) / totalFiles) * 100] of lines 146-148, every
    operation on Numbers.  The loop index and the counts are Numbers that
    hold integers; [completedSubtitlesCount] is kept as a natural number,
    which is what the Number holds as long as it is below [2^53]. *)
Definition globalProgress (i completed total totalFiles : nat) : double :=
  fmul (fdiv (fadd (ofNat i) (fdiv (ofNat completed) (ofNat total)))
             (ofNat totalFiles))
       (Fin 100).

#[global] Arguments globalProgress : simpl never.

Section Pipeline.
Variable env : Env.
Variables src tgt prm : jsstring.
Variables i totalFiles : nat.

(** [processBatch] up to its [await]: the texts are read and the call is
    made. *)
Definition dispatch (r : Run) (b : nat * list nat) : Run * InFlight :=
  let batchTexts := textAt (parsed r) <$> snd b in
  (mkRun (emit (app r) (EvTranslate i (fst b) (snd b) batchTexts))
         (parsed r) (completedSubtitlesCount r),
   mkInFlight (fst b) (snd b)
     (translateBatch env i (fst b) batchTexts src tgt prm)).

(** [chunk.map(batch => processBatch(batch))]: every call of the window is
    made before any of them settles. *)
Fixpoint dispatchAll (chunk : list (nat * list nat)) (r : Run)
  : Run * list InFlight :=
  match chunk with
  | [] => (r, [])
  | b :: rest =>
      let (r1, p) := dispatch r b in
      let (r2, ps) := dispatchAll rest r1 in
      (r2, p :: ps)
  end.

(** [processBatch] from its [await] on: [try] continues or [catch] runs,
    then [finally]. *)
Definition settle (total : nat) (p : InFlight) (r : Run) : Run :=
  let (a1, store1) :=
    match outcome p with
    | inr translatedBatch =>
        (emit (app r) (EvSettled i (batchIndex p) (entries p) true),
         assignFrom translatedBatch 0 (entries p) (parsed r))
    | inl _ =>
        (emit (emit (app r) (EvSettled i (batchIndex p) (entries p) false))
              EvConsoleError,
         parsed r)
    end in
  let completed := completedSubtitlesCount r + length (entries p) in
  mkRun (setProgress a1 (fmin (globalProgress i completed total totalFiles) (Fin 99)))
        store1 completed.

(** [await Promise.all(...)]: the [n] calls in flight settle one by one, in
    the order the environment picks. *)
Fixpoint awaitAll (total w n : nat) (pending : list InFlight) (r : Run) : Run :=
  match n with
  | 0 => r
  | S n' =>
      let k := Nat.modulo (settleNext env i w n') (length pending) in
      match pending !! k with
      | Some p => awaitAll total w n' (delete k pending) (settle total p r)
      | None => r
      end
  end.

Definition runWindow (total : nat) (r : Run) (wc : nat * list (nat * list nat))
  : Run :=
  let (r1, pending) := dispatchAll (snd wc) r in
  awaitAll total (fst wc) (length pending) pending r1.

(** Lines 123-158. *)
Definition runPipeline (a : App) (store : list ParsedSubtitle) : Run :=
  let valid := validSubtitles store in
  let batches := slices BATCH_SIZE valid 0 in
  let windows := slices CONCURRENT_LIMIT (imap pair batches) 0 in
  foldl (runWindow (length valid)) (mkRun a store 0) (imap pair windows).

End Pipeline.

(** ** The file loop and the handler (lines 80-183) *)

(** [{ ...f, status: 'processing' }]. *)
Definition asProcessing (f : FileItem) : FileItem :=
  mkFileItem (file_id f) (file f) Processing (originalText f)
    (translatedText f) (error f) (wordCount f).

(** [{ ...f, status: 'error', error: e.message }]. *)
Definition asError (e : Exn) (f : FileItem) : FileItem :=
  mkFileItem (file_id f) (file f) Error (originalText f)
    (translatedText f) (Some (message e)) (wordCount f).

(** [updatedItem] of lines 164-170. *)
Definition asDone (txt finalText : jsstring) (fileItem : FileItem) : FileItem :=
  mkFileItem (file_id fileItem) (file fileItem) Done txt (Some finalText)
    (error fileItem) (splitWsLength finalText).

(** [prev.map(f => f.id === fid ? u(f) : f)]. *)
Definition mapById (fid : jsstring) (u : FileItem -> FileItem)
    (prev : list FileItem) : list FileItem :=
  (fun f => if decide (file_id f = fid) then u f else f) <$> prev.

Definition ALERT_SAME_LANG : jsstring :=
  str "Manba va maqsad tillari bir xil bo'lmasligi kerak".

Section Handler.
Variable env : Env.

(** The state captured by the closure when the handler is called: [a0]. *)
Variable a0 : App.

(** [addToHistory]: [history], [sourceLang] and [targetLang] are those of
    the closure. *)
Definition addToHistory (i : nat) (f : FileItem) (a : App) : App :=
  let newItem :=
    mkHistoryItem (dateNow env i) (name (file f)) (sourceLang a0)
      (targetLang a0) (dateLocale env i) in
  setHistory a (take 20 (newItem :: history a0)).

(** The [try] block of one file: the state it leaves, and the exception it
    ends with, if any. *)
Definition tryFile (i : nat) (fileItem : FileItem) (a : App)
  : App * option Exn :=
  match readFileAsText env (file fileItem) with
  | inl e => (a, Some e)
  | inr txt =>
      match parseSubtitles env txt with
      | inl e => (a, Some e)
      | inr fresh =>
          let stripped := stripAll (removeSDH a0) fresh in
          let r :=
            runPipeline env (sourceLang a0) (targetLang a0) (prompt a0)
              i (length (files a0)) a stripped in
          let a1 := emit (app r) (EvReconstruct i (parsed r)) in
          match reconstructSubtitles env (parsed r) (name (file fileItem)) with
          | inl e => (a1, Some e)
          | inr finalText =>
              let updatedItem := asDone txt finalText fileItem in
              let a2 :=
                setFiles a1 (mapById (file_id fileItem) (fun _ => updatedItem)) in
              (addToHistory i updatedItem a2, None)
          end
      end
  end.

(** One iteration of the loop of line 94. *)
Definition processFile (a : App) (ix : nat * FileItem) : App :=
  let (i, fileItem) := ix in
  let a1 := setCurrentProcessingFile a (name (file fileItem)) in
  let a2 := setFiles a1 (mapById (file_id fileItem) asProcessing) in
  match tryFile i fileItem a2 with
  | (a3, None) => a3
  | (a3, Some e) =>
      setFiles (emit a3 EvConsoleError) (mapById (file_id fileItem) (asError e))
  end.

(** The loop, after the two guards. *)
Definition processAll : App :=
  let a1 := setProgress (setIsProcessing (setStep a0 RESULTS) true) (Fin 0) in
  let a2 := foldl processFile a1 (imap pair (files a0)) in
  setProgress (setIsProcessing a2 false) (Fin 100).

End Handler.

Definition handleStartProcessing (env : Env) (a : App) : App :=
  if decide (length (files a) = 0) then a
  else if decide (sourceLang a = targetLang a) then emit a (EvAlert ALERT_SAME_LANG)
  else processAll env a.

(** ** The theme (lines 35-44 and 52-64)

    [isDarkMode] is the state of line 15, [darkClass] tells whether
    [document.documentElement.classList] holds ['dark'], and [theme] is
    [localStorage.theme] ([None]: no such key). *)

Record Theme : Type := mkTheme {
  isDarkMode : bool;
  darkClass : bool;
  theme : option jsstring
}.

Definition DARK : jsstring := str "dark".
Definition LIGHT : jsstring := str "light".

(** The first half of the effect of line 35; [prefersDark] is what
    [window.matchMedia('(prefers-color-scheme: dark)').matches] gives. *)
Definition loadTheme (prefersDark : bool) (t : Theme) : Theme :=
  let inStorage := match theme t with Some _ => true | None => false end in
  if bool_decide (theme t = Some DARK) || (negb inStorage && prefersDark)
  then mkTheme true true (theme t)
  else mkTheme false false (theme t).

Definition toggleTheme (t : Theme) : Theme :=
  let newVal := negb (isDarkMode t) in
  if newVal then mkTheme newVal true (Some DARK)
  else mkTheme newVal false (Some LIGHT).

(** A page load: the state starts as line 15 says, the class and the
    storage are what the page and the browser have, and the effect runs. *)
Definition pageLoad (prefersDark cls : bool) (stored : option jsstring) : Theme :=
  loadTheme prefersDark (mkTheme false cls stored).

(** ** The stored history (lines 45-49 and 264-267)

    [storedHistory] holds the list that line 76 wrote as JSON: reading it
    back gives that list, and its text is never the empty string, so the
    test of line 47 is the test that the key exists. *)

Definition loadHistory (a : App) : App :=
  match storedHistory a with
  | Some savedHistory =>
      mkApp (step a) (files a) (sourceLang a) (targetLang a) (prompt a)
        (removeSDH a) (isProcessing a) (progress a) (currentProcessingFile a)
        savedHistory (storedHistory a) (log a)
  | None => a
  end.

Definition onClear (a : App) : App :=
  mkApp (step a) (files a) (sourceLang a) (targetLang a) (prompt a)
    (removeSDH a) (isProcessing a) (progress a) (currentProcessingFile a)
    [] None (log a).

Definition onRestart (a : App) : App := setStep (setFiles a (fun _ => [])) UPLOAD.

(** The component when the page is loaded: the initial values of lines
    14-32, the storage the browser has, and the effect of line 35. *)
Definition mount (stored : option (list TranslationHistoryItem)) : App :=
  loadHistory
    (mkApp UPLOAD [] (str "English") (str "Uzbek") [] false false (Fin 0) [] []
       stored []).

(** * Properties *)

(** ** Strings *)

Module JSFacts.

Definition blank (s : jsstring) : Prop :=
  Forall (fun c => isWhiteSpace c = true) s.

Lemma replaceSDH_cons c r :
  replaceSDH (c :: r) =
  match matchSDH (c :: r) with
  | Some rest => replaceSDH rest
  | None => c :: replaceSDH r
  end.
Proof.
  simp replaceSDH. unfold withEq.
  assert (forall m (e : matchSDH (c :: r) = m),
    replaceSDH_unfold_clause_2 c r (exist _ m e) =
    match m with
    | Some rest => replaceSDH rest
    | None => c :: replaceSDH r
    end) as H
    by (intros [rest|] e; simp replaceSDH; reflexivity).
  apply H.
Qed.

Lemma trimStart_blank s : blank s -> trimStart s = [].
Proof.
  induction 1 as [|c s Hc _ IH]; simpl; [reflexivity|].
  rewrite Hc. exact IH.
Qed.

Lemma trimStart_head s c r :
  trimStart s = c :: r -> isWhiteSpace c = false.
Proof.
  induction s as [|d s IH]; simpl; [discriminate|].
  destruct (isWhiteSpace d) eqn:Hd; [exact IH|].
  intros [= <- _]. exact Hd.
Qed.

Lemma trimStart_nil s : trimStart s = [] -> blank s.
Proof.
  induction s as [|d s IH]; simpl; [constructor|].
  destruct (isWhiteSpace d) eqn:Hd; [|discriminate].
  intros H. apply Forall_cons_2; [exact Hd | exact (IH H)].
Qed.

Lemma rev_nil_inv {A : Type} (l : list A) : rev l = [] -> l = [].
Proof.
  intros H. apply (f_equal (@rev A)) in H.
  rewrite rev_involutive in H. exact H.
Qed.

Lemma trim_blank s : trim s = [] <-> blank s.
Proof.
  unfold trim, trimEnd. split.
  - intros H%rev_nil_inv. apply trimStart_nil in H.
    destruct (trimStart s) as [|c r] eqn:Hs; [apply trimStart_nil, Hs|].
    apply trimStart_head in Hs.
    unfold blank in H. apply Forall_rev in H. rewrite rev_involutive in H.
    apply Forall_cons_1 in H as [Hc _]. congruence.
  - intros H. rewrite (trimStart_blank _ H). reflexivity.
Qed.

Lemma matchSDH_space c r : isWhiteSpace c = true -> matchSDH (c :: r) = None.
Proof.
  intros Hc. simpl.
  destruct (N.eqb_spec c LBRACKET) as [->|_]; [discriminate|].
  destruct (N.eqb_spec c LPAREN) as [->|_]; [discriminate|].
  reflexivity.
Qed.

Lemma replaceSDH_blank s : blank s -> replaceSDH s = s.
Proof.
  induction 1 as [|c s Hc _ IH]; [reflexivity|].
  rewrite replaceSDH_cons, (matchSDH_space _ _ Hc), IH. reflexivity.
Qed.

Lemma stripSDH_blank s : blank s -> stripSDH s = [].
Proof.
  intros H. unfold stripSDH. rewrite (replaceSDH_blank _ H).
  apply trim_blank, H.
Qed.

(** A text made of white space and of annotations only: each annotation is
    an opening bracket (or parenthesis), a body on one line without the
    closing one, and the closing one. *)
Inductive annotations : jsstring -> Prop :=
| ann_nil : annotations []
| ann_space c s :
    isWhiteSpace c = true -> annotations s -> annotations (c :: s)
| ann_bracket body s :
    Forall (fun c => c <> RBRACKET /\ isLineTerminator c = false) body ->
    annotations s ->
    annotations (LBRACKET :: body ++ RBRACKET :: s)
| ann_paren body s :
    Forall (fun c => c <> RPAREN /\ isLineTerminator c = false) body ->
    annotations s ->
    annotations (LPAREN :: body ++ RPAREN :: s).

Lemma lazyUntil_body close body s :
  Forall (fun c => c <> close /\ isLineTerminator c = false) body ->
  lazyUntil close (body ++ close :: s) = Some s.
Proof.
  induction 1 as [|c body [Hc Hl] _ IH]; simpl.
  - rewrite N.eqb_refl. reflexivity.
  - destruct (N.eqb_spec c close) as [->|_]; [contradiction|].
    rewrite Hl. exact IH.
Qed.

Lemma replaceSDH_annotations s : annotations s -> blank (replaceSDH s).
Proof.
  induction 1 as [|c s Hc _ IH|body s Hb _ IH|body s Hb _ IH].
  - simp replaceSDH. constructor.
  - rewrite replaceSDH_cons, (matchSDH_space _ _ Hc).
    apply Forall_cons_2; [exact Hc | exact IH].
  - rewrite replaceSDH_cons. simpl. rewrite (lazyUntil_body _ _ _ Hb). exact IH.
  - rewrite replaceSDH_cons. simpl. rewrite (lazyUntil_body _ _ _ Hb). exact IH.
Qed.

Lemma stripSDH_annotations s : annotations s -> stripSDH s = [].
Proof.
  intros H. apply trim_blank, replaceSDH_annotations, H.
Qed.

End JSFacts.

Import JSFacts.

(** ** Numbers *)

Module DoubleFacts.

Local Open Scope Q_scope.

Lemma pow2_pos e : 0 < pow2 e.
Proof. apply Qpower_0_lt. reflexivity. Qed.

Lemma pow2_plus a b : pow2 (a + b) == pow2 a * pow2 b.
Proof. apply Qpower_plus. discriminate. Qed.

Lemma pow2_le a b : (a <= b)%Z -> pow2 a <= pow2 b.
Proof. intros H. apply Qpower_le_compat_l; [exact H|discriminate]. Qed.

Lemma pow2_lt a b : (a < b)%Z -> pow2 a < pow2 b.
Proof. intros H. apply Qpower_lt_compat_l; [exact H|reflexivity]. Qed.

Lemma pow2_Z n : (0 <= n)%Z -> inject_Z (2 ^ n) == pow2 n.
Proof. intros H. apply (Zpower_Qpower 2 n H). Qed.

Lemma pow2_opp e : pow2 (- e) * pow2 e == 1.
Proof.
  rewrite <- pow2_plus. replace (- e + e)%Z with 0%Z by lia. reflexivity.
Qed.

Lemma ilog2_spec x : 0 < x -> pow2 (ilog2 x) <= x /\ x < pow2 (ilog2 x + 1).
Proof.
  intros Hx. destruct x as [a b]. unfold ilog2. cbn [Qnum Qden].
  assert (0 < a)%Z as Ha by (unfold Qlt in Hx; simpl in Hx; lia).
  set (la := Z.log2 a). set (lb := Z.log2 (Zpos b)).
  assert (0 <= la)%Z as Hla by apply Z.log2_nonneg.
  assert (0 <= lb)%Z as Hlb by apply Z.log2_nonneg.
  destruct (Z.log2_spec a Ha) as [Ha1 Ha2]. fold la in Ha1, Ha2.
  destruct (Z.log2_spec (Zpos b) ltac:(lia)) as [Hb1 Hb2]. fold lb in Hb1, Hb2.
  assert (pow2 la <= inject_Z a) as Qa1
    by (rewrite <- pow2_Z by exact Hla; rewrite <- Zle_Qle; exact Ha1).
  assert (inject_Z a < pow2 (la + 1)) as Qa2
    by (rewrite <- pow2_Z by lia; rewrite <- Zlt_Qlt; exact Ha2).
  assert (pow2 lb <= inject_Z (Zpos b)) as Qb1
    by (rewrite <- pow2_Z by exact Hlb; rewrite <- Zle_Qle; exact Hb1).
  assert (inject_Z (Zpos b) < pow2 (lb + 1)) as Qb2
    by (rewrite <- pow2_Z by lia; rewrite <- Zlt_Qlt; exact Hb2).
  assert ((a # b) * inject_Z (Zpos b) == inject_Z a) as Hab
    by (unfold Qeq; simpl; rewrite Pos.mul_1_r; ring).
  pose proof (pow2_pos lb) as Plb.
  pose proof (pow2_pos (la - lb)) as Pk.
  pose proof (pow2_pos (la - lb - 1)) as Pk1.
  pose proof (pow2_pos (la - lb + 1)) as Pk2.
  assert (pow2 (la - lb + 1) * pow2 lb == pow2 (la + 1)) as E1
    by (rewrite <- pow2_plus; replace (la - lb + 1 + lb)%Z with (la + 1)%Z by lia;
        reflexivity).
  assert (pow2 (la - lb - 1) * pow2 (lb + 1) == pow2 la) as E2
    by (rewrite <- pow2_plus; replace (la - lb - 1 + (lb + 1))%Z with la by lia;
        reflexivity).
  assert (pow2 (la - lb - 1) <= a # b) as L.
  { destruct (Qlt_le_dec (a # b) (pow2 (la - lb - 1))) as [H|H]; [|exact H].
    exfalso. nra. }
  assert (a # b < pow2 (la - lb + 1)) as U.
  { destruct (Qlt_le_dec (a # b) (pow2 (la - lb + 1))) as [H|H]; [exact H|].
    exfalso. nra. }
  destruct (Qle_bool (pow2 (la - lb)) (a # b)) eqn:Hc.
  - apply Qle_bool_iff in Hc. split; [exact Hc|exact U].
  - split; [exact L|].
    replace (la - lb - 1 + 1)%Z with (la - lb)%Z by lia.
    apply Qnot_le_lt. intros H. apply Qle_bool_iff in H. congruence.
Qed.

Lemma ilog2_unique x k : pow2 k <= x -> x < pow2 (k + 1) -> 0 < x -> ilog2 x = k.
Proof.
  intros H1 H2 Hx. destruct (ilog2_spec x Hx) as [L U].
  destruct (Z.lt_trichotomy (ilog2 x) k) as [H|[H|H]]; [|exact H|]; exfalso.
  - pose proof (pow2_le (ilog2 x + 1) k ltac:(lia)). lra.
  - pose proof (pow2_le (k + 1) (ilog2 x) ltac:(lia)). lra.
Qed.

Lemma ilog2_mono x y : 0 < x -> x <= y -> (ilog2 x <= ilog2 y)%Z.
Proof.
  intros Hx Hxy.
  destruct (ilog2_spec x Hx) as [Lx Ux].
  destruct (ilog2_spec y ltac:(lra)) as [Ly Uy].
  destruct (Z.le_gt_cases (ilog2 x) (ilog2 y)) as [H|H]; [exact H|exfalso].
  pose proof (pow2_le (ilog2 y + 1) (ilog2 x) ltac:(lia)). lra.
Qed.

Lemma exponent_mono x y : 0 < x -> x <= y -> (exponent x <= exponent y)%Z.
Proof.
  intros Hx Hxy. unfold exponent. pose proof (ilog2_mono x y Hx Hxy). lia.
Qed.

(** [nearestEven q] is within one half of [q], and even at a tie. *)
Lemma nearestEven_spec q :
  let m := nearestEven q in
  inject_Z m - (1 # 2) <= q /\ q <= inject_Z m + (1 # 2) /\
  (q == inject_Z m + (1 # 2) -> Z.even m = true) /\
  (q == inject_Z m - (1 # 2) -> Z.even m = true).
Proof.
  destruct q as [n d]. unfold nearestEven. cbn [Qnum Qden].
  pose proof (Z.div_mod n (Zpos d) ltac:(lia)) as Hdm.
  pose proof (Z.mod_pos_bound n (Zpos d) ltac:(lia)) as Hr.
  set (f := (n / Zpos d)%Z) in *. set (r := (n mod Zpos d)%Z) in *.
  assert (forall m : Z,
            (inject_Z m - (1 # 2) <= n # d <-> ((2 * m - 1) * Zpos d <= 2 * n)%Z) /\
            (n # d <= inject_Z m + (1 # 2) <-> (2 * n <= (2 * m + 1) * Zpos d)%Z) /\
            (n # d == inject_Z m + (1 # 2) <-> (2 * n = (2 * m + 1) * Zpos d)%Z) /\
            (n # d == inject_Z m - (1 # 2) <-> (2 * n = (2 * m - 1) * Zpos d)%Z))
    as Hz.
  { intros m. unfold Qle, Qeq, Qminus, Qplus, Qopp, inject_Z. simpl.
    repeat split; intros; lia. }
  destruct (Z.compare_spec (2 * r) (Zpos d)) as [Hc|Hc|Hc]; cbn zeta.
  - destruct (Z.even f) eqn:He.
    + destruct (Hz f) as (H1 & H2 & H3 & H4).
      split; [apply H1; lia|]. split; [apply H2; lia|].
      split; [intros _; exact He|intros _; exact He].
    + destruct (Hz (f + 1)%Z) as (H1 & H2 & H3 & H4).
      assert (Z.even (f + 1) = true) as He1.
      { rewrite Z.even_add, He. reflexivity. }
      split; [apply H1; lia|]. split; [apply H2; lia|].
      split; [intros _; exact He1|intros _; exact He1].
  - destruct (Hz f) as (H1 & H2 & H3 & H4).
    split; [apply H1; lia|]. split; [apply H2; lia|].
    split; [intros H%H3; lia|intros H%H4; lia].
  - destruct (Hz (f + 1)%Z) as (H1 & H2 & H3 & H4).
    split; [apply H1; lia|]. split; [apply H2; lia|].
    split; [intros H%H3; lia|intros H%H4; lia].
Qed.

Lemma nearestEven_mono p q : p <= q -> (nearestEven p <= nearestEven q)%Z.
Proof.
  intros Hpq.
  destruct (nearestEven_spec p) as (Lp & Up & Tp & Tp').
  destruct (nearestEven_spec q) as (Lq & Uq & Tq & Tq').
  cbn zeta in *.
  destruct (Z.le_gt_cases (nearestEven p) (nearestEven q)) as [H|H];
    [exact H|exfalso].
  assert (inject_Z (nearestEven q) + 1 <= inject_Z (nearestEven p)) as Hz
    by (rewrite <- (inject_Z_plus _ 1), <- Zle_Qle; lia).
  assert (p == inject_Z (nearestEven p) - (1 # 2)) as E1 by lra.
  assert (q == inject_Z (nearestEven q) + (1 # 2)) as E2 by lra.
  assert (nearestEven p = nearestEven q + 1)%Z as E.
  { assert (inject_Z (nearestEven p) == inject_Z (nearestEven q) + 1) as E by lra.
    apply inject_Z_injective. rewrite inject_Z_plus. exact E. }
  specialize (Tp' E1). specialize (Tq E2).
  rewrite E, Z.even_add, Tq in Tp'. discriminate.
Qed.

Lemma nearestEven_Z q z : q == inject_Z z -> nearestEven q = z.
Proof.
  intros Hq. destruct (nearestEven_spec q) as (L & U & _). cbn zeta in *.
  assert (inject_Z z - 1 < inject_Z (nearestEven q) < inject_Z z + 1) as [H1 H2]
    by (split; lra).
  rewrite <- (inject_Z_plus _ 1), <- Zlt_Qlt in H2.
  change (inject_Z z - 1) with (inject_Z z + inject_Z (-1)) in H1.
  rewrite <- (inject_Z_plus _ (-1)), <- Zlt_Qlt in H1. lia.
Qed.

Lemma rndQ_pos x :
  0 < x ->
  rndQ x == inject_Z (nearestEven (x * pow2 (- exponent x))) * pow2 (exponent x).
Proof.
  intros Hx. unfold rndQ.
  destruct (Qle_bool x 0) eqn:Hc; [apply Qle_bool_iff in Hc; lra|].
  apply Qred_correct.
Qed.

Lemma rndQ_nonpos x : x <= 0 -> rndQ x = 0.
Proof.
  intros Hx. unfold rndQ. apply Qle_bool_iff in Hx. rewrite Hx. reflexivity.
Qed.

(** The scaled value is below [2^53], and at least [2^52] for a normal
    number. *)
Lemma scaled_lt x : 0 < x -> x * pow2 (- exponent x) < pow2 53.
Proof.
  intros Hx. destruct (ilog2_spec x Hx) as [_ U].
  pose proof (pow2_pos (- exponent x)) as P.
  pose proof (pow2_le (ilog2 x + 1 + - exponent x) 53
                ltac:(unfold exponent; lia)) as H.
  rewrite pow2_plus in H. nra.
Qed.

Lemma scaled_ge x :
  0 < x -> (EMIN < exponent x)%Z -> pow2 52 <= x * pow2 (- exponent x).
Proof.
  intros Hx He. destruct (ilog2_spec x Hx) as [L _].
  pose proof (pow2_pos (- exponent x)) as P.
  assert (exponent x = ilog2 x - 52)%Z as E by (unfold exponent in *; lia).
  assert (pow2 52 == pow2 (ilog2 x) * pow2 (- exponent x)) as ->.
  { rewrite <- pow2_plus. rewrite E.
    replace (ilog2 x + - (ilog2 x - 52))%Z with 52%Z by lia. reflexivity. }
  nra.
Qed.

Lemma nearestEven_le q z : q <= inject_Z z -> (nearestEven q <= z)%Z.
Proof.
  intros H. rewrite <- (nearestEven_Z (inject_Z z) z) by reflexivity.
  apply nearestEven_mono, H.
Qed.

Lemma nearestEven_ge q z : inject_Z z <= q -> (z <= nearestEven q)%Z.
Proof.
  intros H. rewrite <- (nearestEven_Z (inject_Z z) z) at 1 by reflexivity.
  apply nearestEven_mono, H.
Qed.

Lemma rndQ_nonneg x : 0 <= rndQ x.
Proof.
  destruct (Qlt_le_dec 0 x) as [Hx|Hx]; [|rewrite rndQ_nonpos by exact Hx; lra].
  rewrite (rndQ_pos x Hx).
  pose proof (pow2_pos (exponent x)) as P.
  pose proof (pow2_pos (- exponent x)) as P'.
  assert (0 <= nearestEven (x * pow2 (- exponent x)))%Z as Hm
    by (apply nearestEven_ge; change (inject_Z 0) with 0; nra).
  rewrite Zle_Qle in Hm. change (inject_Z 0) with 0 in Hm. nra.
Qed.

Lemma rndQ_mono x y : x <= y -> rndQ x <= rndQ y.
Proof.
  intros Hxy.
  destruct (Qlt_le_dec 0 x) as [Hx|Hx];
    [|rewrite (rndQ_nonpos x Hx); apply rndQ_nonneg].
  assert (0 < y) as Hy by lra.
  rewrite (rndQ_pos x Hx), (rndQ_pos y Hy).
  pose proof (exponent_mono x y Hx Hxy) as He.
  set (ex := exponent x) in *. set (ey := exponent y) in *.
  pose proof (pow2_pos ex) as Pex. pose proof (pow2_pos ey) as Pey.
  pose proof (pow2_pos (- ex)) as Pnx. pose proof (pow2_pos (- ey)) as Pny.
  destruct (Z.eq_dec ex ey) as [E|E].
  - rewrite <- E.
    assert (nearestEven (x * pow2 (- ex)) <= nearestEven (y * pow2 (- ex)))%Z
      as Hm by (apply nearestEven_mono; nra).
    rewrite Zle_Qle in Hm. nra.
  - assert (nearestEven (x * pow2 (- ex)) <= 2 ^ 53)%Z as Hmx.
    { apply nearestEven_le. rewrite pow2_Z by lia.
      apply Qlt_le_weak, scaled_lt, Hx. }
    assert (2 ^ 52 <= nearestEven (y * pow2 (- ey)))%Z as Hmy.
    { apply nearestEven_ge. rewrite pow2_Z by lia.
      apply scaled_ge; [exact Hy|]. unfold ex, ey, exponent in *. lia. }
    rewrite Zle_Qle in Hmx, Hmy. rewrite pow2_Z in Hmx, Hmy by lia.
    pose proof (pow2_le (53 + ex) (52 + ey) ltac:(lia)) as Hp.
    rewrite !pow2_plus in Hp.
    pose proof (pow2_pos 53) as P53. pose proof (pow2_pos 52) as P52.
    set (mx := inject_Z (nearestEven (x * pow2 (- ex)))) in *.
    set (my := inject_Z (nearestEven (y * pow2 (- ey)))) in *.
    apply Qle_trans with (pow2 53 * pow2 ex); [nra|].
    apply Qle_trans with (pow2 52 * pow2 ey); [exact Hp|nra].
Qed.

Lemma rndQ_exact x z :
  0 < x -> x * pow2 (- exponent x) == inject_Z z -> rndQ x == x.
Proof.
  intros Hx Hz. rewrite (rndQ_pos x Hx), (nearestEven_Z _ z Hz), <- Hz.
  rewrite <- Qmult_assoc, pow2_opp. apply Qmult_1_r.
Qed.

Lemma rndQ_Z z : (0 <= z < 2 ^ 53)%Z -> rndQ (inject_Z z) == inject_Z z.
Proof.
  intros [H0 H1].
  destruct (Z.eq_dec z 0%Z) as [->|Hz]; [reflexivity|].
  assert (0 < inject_Z z) as Hx
    by (change 0 with (inject_Z 0); rewrite <- Zlt_Qlt; lia).
  assert (exponent (inject_Z z) <= 0)%Z as He.
  { destruct (ilog2_spec _ Hx) as [L _].
    assert (inject_Z z < pow2 53) as U
      by (rewrite <- pow2_Z by lia; rewrite <- Zlt_Qlt; exact H1).
    assert (ilog2 (inject_Z z) < 53)%Z.
    { destruct (Z.lt_ge_cases (ilog2 (inject_Z z)) 53%Z) as [H|H]; [exact H|].
      pose proof (pow2_le 53%Z _ H). lra. }
    unfold exponent, EMIN. lia. }
  apply (rndQ_exact _ (z * 2 ^ (- exponent (inject_Z z)))%Z Hx).
  rewrite inject_Z_mult, pow2_Z by lia. reflexivity.
Qed.

Lemma Qred_Z z : Qred (inject_Z z) = inject_Z z.
Proof.
  unfold Qred, inject_Z.
  pose proof (Z.ggcd_correct_divisors z 1) as H.
  pose proof (Z.ggcd_gcd z 1) as Hg. rewrite Z.gcd_1_r in Hg.
  destruct (Z.ggcd z 1) as [g [aa bb]]. simpl in Hg. subst g.
  destruct H as [-> Hb]. replace bb with 1%Z by lia.
  rewrite Z.mul_1_l. reflexivity.
Qed.

Lemma rndQ_Z_eq z : (0 <= z < 2 ^ 53)%Z -> rndQ (inject_Z z) = inject_Z z.
Proof.
  intros Hz. pose proof (rndQ_Z z Hz) as H. unfold rndQ in *.
  destruct (Qle_bool (inject_Z z) 0) eqn:Hc.
  - apply Qle_bool_iff in Hc.
    change 0 with (inject_Z 0) in Hc. rewrite <- Zle_Qle in Hc.
    assert (z = 0%Z) as -> by lia. reflexivity.
  - etransitivity; [|apply (Qred_Z z)]. apply Qred_complete.
    etransitivity; [symmetry; apply Qred_correct|exact H].
Qed.

Lemma pow2_1024 z : (z < 2 ^ 53)%Z -> Qle_bool (pow2 1024) (inject_Z z) = false.
Proof.
  intros Hz. destruct (Qle_bool _ _) eqn:H; [|reflexivity].
  apply Qle_bool_iff in H. rewrite <- pow2_Z in H by lia.
  rewrite <- Zle_Qle in H.
  assert (2 ^ 53 < 2 ^ 1024)%Z by (apply Z.pow_lt_mono_r; lia). lia.
Qed.

Lemma rnd_Z z : (0 <= z < 2 ^ 53)%Z -> rnd (inject_Z z) = Fin (inject_Z z).
Proof.
  intros Hz. unfold rnd. rewrite Qred_Z, (rndQ_Z_eq z Hz).
  rewrite pow2_1024 by lia. reflexivity.
Qed.

Lemma ofNat_safe n : safe n -> ofNat n = Fin (inject_Z (Z.of_nat n)).
Proof. intros H. apply rnd_Z. unfold safe in H. lia. Qed.

Lemma rnd_compat x y : x == y -> rnd x = rnd y.
Proof. intros H. unfold rnd. rewrite (Qred_complete x y H). reflexivity. Qed.

(** Rounding is monotone. *)
Lemma rnd_mono x y : x <= y -> dle (rnd x) (rnd y).
Proof.
  intros Hxy. unfold rnd.
  pose proof (rndQ_mono (Qred x) (Qred y)
                ltac:(rewrite !Qred_correct; exact Hxy)) as H.
  destruct (Qle_bool (pow2 1024) (rndQ (Qred y))) eqn:Hy.
  - destruct (Qle_bool (pow2 1024) (rndQ (Qred x))); exact I.
  - destruct (Qle_bool (pow2 1024) (rndQ (Qred x))) eqn:Hx; [|exact H].
    apply Qle_bool_iff in Hx.
    assert (Qle_bool (pow2 1024) (rndQ (Qred y)) = true) as Hy'
      by (apply Qle_bool_iff; lra).
    congruence.
Qed.

(** A number that is not negative (and not [NaN]). *)
Definition num (x : double) : Prop := dle (Fin 0) x.

Lemma rnd_num x : num (rnd x).
Proof.
  unfold num, rnd. destruct (Qle_bool _ _); [exact I|]. apply rndQ_nonneg.
Qed.

Lemma dle_refl x : num x -> dle x x.
Proof. destruct x; simpl; [intros _; apply Qle_refl|auto|auto]. Qed.

Lemma dle_trans x y z : dle x y -> dle y z -> dle x z.
Proof.
  destruct x, y, z; simpl; try tauto. apply Qle_trans.
Qed.

Lemma dle_num x y : num x -> dle x y -> num y.
Proof. apply dle_trans. Qed.

Lemma fadd_mono x x' y y' :
  dle x x' -> dle y y' -> dle (fadd x y) (fadd x' y').
Proof.
  destruct x as [a| |], x' as [a'| |], y as [b| |], y' as [b'| |];
    simpl; try tauto; intros H1 H2.
  - apply rnd_mono. lra.
  - pose proof (rnd_num (a + b)) as H. destruct (rnd (a + b)); auto.
  - pose proof (rnd_num (a + b)) as H. destruct (rnd (a + b)); auto.
  - pose proof (rnd_num (a + b)) as H. destruct (rnd (a + b)); auto.
Qed.

Lemma fadd_num x y : num x -> num y -> num (fadd x y).
Proof.
  destruct x as [a| |], y as [b| |]; simpl; try tauto. intros _ _.
  apply rnd_num.
Qed.

Lemma fdiv_mono x x' b :
  0 < b -> dle x x' -> dle (fdiv x (Fin b)) (fdiv x' (Fin b)).
Proof.
  intros Hb. unfold fdiv, isZero.
  assert (Qeq_bool b 0 = false) as ->.
  { destruct (Qeq_bool b 0) eqn:H; [|reflexivity].
    apply Qeq_bool_iff in H. lra. }
  destruct x as [a| |], x' as [a'| |]; simpl; try tauto; intros H.
  - apply rnd_mono. apply Qmult_le_compat_r; [exact H|].
    apply Qinv_le_0_compat. lra.
  - pose proof (rnd_num (a / b)) as Hn. destruct (rnd (a / b)); auto.
Qed.

Lemma fdiv_num x b : 0 < b -> num x -> num (fdiv x (Fin b)).
Proof.
  intros Hb. unfold fdiv, isZero.
  assert (Qeq_bool b 0 = false) as ->.
  { destruct (Qeq_bool b 0) eqn:H; [|reflexivity].
    apply Qeq_bool_iff in H. lra. }
  destruct x as [a| |]; simpl; try tauto. intros _. apply rnd_num.
Qed.

Lemma fmul_mono x x' b :
  0 < b -> dle (Fin 0) x -> dle x x' -> dle (fmul x (Fin b)) (fmul x' (Fin b)).
Proof.
  intros Hb. unfold fmul, isZero.
  assert (Qeq_bool b 0 = false) as ->.
  { destruct (Qeq_bool b 0) eqn:H; [|reflexivity].
    apply Qeq_bool_iff in H. lra. }
  destruct x as [a| |], x' as [a'| |]; simpl; try tauto; intros H0 H.
  - apply rnd_mono. apply Qmult_le_compat_r; [exact H|lra].
  - pose proof (rnd_num (a * b)) as Hn. destruct (rnd (a * b)); auto.
Qed.

Lemma fmul_num x b : 0 < b -> num x -> num (fmul x (Fin b)).
Proof.
  intros Hb. unfold fmul, isZero.
  assert (Qeq_bool b 0 = false) as ->.
  { destruct (Qeq_bool b 0) eqn:H; [|reflexivity].
    apply Qeq_bool_iff in H. lra. }
  destruct x as [a| |]; simpl; try tauto. intros _. apply rnd_num.
Qed.

Lemma fmin_mono x x' c :
  dle x x' -> dle (fmin x (Fin c)) (fmin x' (Fin c)).
Proof.
  destruct x as [a| |], x' as [a'| |]; simpl; try tauto; intros H.
  - apply Q.min_le_compat_r, H.
  - apply Q.le_min_r.
  - apply Qle_refl.
Qed.

Lemma fmin_bounds x c :
  0 <= c -> num x -> dle (Fin 0) (fmin x (Fin c)) /\ dle (fmin x (Fin c)) (Fin c).
Proof.
  intros Hc. destruct x as [a| |]; simpl; try tauto; intros H.
  - split; [apply Q.min_glb; assumption|apply Q.le_min_r].
  - split; [exact Hc|apply Qle_refl].
Qed.

End DoubleFacts.

Import DoubleFacts.

(** ** The slicing loop *)

Section Slices.
Context {A : Type}.
Implicit Types (arr : list A) (size j : nat).

Lemma slices_eqn size arr j :
  slices size arr j =
  if ((0 <? size) && (j <? length arr))%bool
  then take size (drop j arr) :: slices size arr (j + size)
  else [].
Proof.
  assert (forall m (e : ((0 <? size) && (j <? length arr))%bool = m),
    slices_unfold_clause_1 A size arr j (exist _ m e) =
    if m then take size (drop j arr) :: slices size arr (j + size) else [])
    as H by (intros [|] e; reflexivity).
  rewrite (slices_equation_1 A size arr j). apply H.
Qed.

Lemma slices_done size arr j : length arr <= j -> slices size arr j = [].
Proof.
  intros H. rewrite slices_eqn.
  destruct (Nat.ltb_spec j (length arr)); [lia|].
  rewrite andb_false_r. reflexivity.
Qed.

Lemma slices_step size arr j :
  0 < size -> j < length arr ->
  slices size arr j = take size (drop j arr) :: slices size arr (j + size).
Proof.
  intros H1 H2. rewrite slices_eqn.
  destruct (Nat.ltb_spec 0 size); [|lia].
  destruct (Nat.ltb_spec j (length arr)); [|lia]. reflexivity.
Qed.

(** Induction along the loop. *)
Lemma slices_loop_ind size arr (P : nat -> list (list A) -> Prop) :
  0 < size ->
  (forall j, length arr <= j -> P j []) ->
  (forall j, j < length arr -> P (j + size) (slices size arr (j + size)) ->
             P j (take size (drop j arr) :: slices size arr (j + size))) ->
  forall j, P j (slices size arr j).
Proof.
  intros Hs Hdone Hstep j.
  remember (length arr - j) as n eqn:Hn.
  revert j Hn. induction n as [n IH] using lt_wf_ind. intros j Hn.
  destruct (le_lt_dec (length arr) j) as [Hge|Hlt].
  - rewrite slices_done by exact Hge. apply Hdone, Hge.
  - rewrite slices_step by assumption. apply Hstep; [exact Hlt|].
    apply (IH (length arr - (j + size))); lia.
Qed.

(** The slices are contiguous and in order: put end to end they are the
    array again. *)
Lemma slices_concat size arr j :
  0 < size -> mjoin (slices size arr j) = drop j arr.
Proof.
  intros Hs. apply (slices_loop_ind size arr (fun j l => mjoin l = drop j arr) Hs).
  - intros k Hk. simpl. rewrite drop_ge by exact Hk. reflexivity.
  - intros k Hk IH. simpl. rewrite IH.
    rewrite <- (take_drop size (drop k arr)) at 2.
    rewrite drop_drop. reflexivity.
Qed.

Lemma slices_sizes size arr j :
  0 < size ->
  Forall (fun b => 0 < length b <= size) (slices size arr j).
Proof.
  intros Hs.
  apply (slices_loop_ind size arr
    (fun _ l => Forall (fun b => 0 < length b <= size) l) Hs).
  - intros; constructor.
  - intros k Hk IH. apply Forall_cons_2; [|exact IH].
    rewrite length_take, length_drop. lia.
Qed.



End Slices.

(** ** The translatable subset *)

Lemma validFrom_elem j parsed x :
  x ∈ validFrom j parsed ->
  j <= x /\ exists p, parsed !! (x - j) = Some p /\ translatable p = true.
Proof.
  revert j. induction parsed as [|p rest IH]; intros j; simpl.
  - intros H. apply elem_of_nil in H. contradiction.
  - assert (x ∈ validFrom (S j) rest ->
      j <= x /\ exists q, (p :: rest) !! (x - j) = Some q /\ translatable q = true)
      as Hrest.
    { intros H. destruct (IH _ H) as (Hle & q & Hq & Ht).
      split; [lia|]. exists q. split; [|exact Ht].
      replace (x - j) with (S (x - S j)) by lia. exact Hq. }
    destruct (translatable p) eqn:Hp; [|exact Hrest].
    intros [->|H]%elem_of_cons; [|exact (Hrest H)].
    split; [lia|]. exists p. rewrite Nat.sub_diag. split; [reflexivity|exact Hp].
Qed.

Lemma validFrom_complete j parsed k p :
  parsed !! k = Some p -> translatable p = true -> j + k ∈ validFrom j parsed.
Proof.
  revert j k. induction parsed as [|q rest IH]; intros j k; simpl.
  - rewrite lookup_nil. discriminate.
  - destruct k as [|k]; simpl.
    + intros [= ->] ->. rewrite Nat.add_0_r. apply list_elem_of_here.
    + intros Hk Hp. replace (j + S k) with (S j + k) by lia.
      specialize (IH (S j) k Hk Hp).
      destruct (translatable q); [apply list_elem_of_further|]; exact IH.
Qed.

(** The filter keeps the source order. *)
Lemma validFrom_sorted j parsed : StronglySorted lt (validFrom j parsed).
Proof.
  revert j. induction parsed as [|p rest IH]; intros j; simpl.
  - constructor.
  - destruct (translatable p); [|apply IH].
    constructor; [apply IH|].
    apply Forall_forall. intros x Hx.
    apply validFrom_elem in Hx as [Hle _]. lia.
Qed.

Lemma StronglySorted_lt_NoDup (l : list nat) : StronglySorted lt l -> NoDup l.
Proof.
  induction 1 as [|x l _ IH Hx]; constructor; [|exact IH].
  intros Hin. rewrite Forall_forall in Hx. specialize (Hx _ Hin). lia.
Qed.

Lemma validSubtitles_NoDup parsed : NoDup (validSubtitles parsed).
Proof. apply StronglySorted_lt_NoDup, validFrom_sorted. Qed.

Lemma validSubtitles_elem parsed x :
  x ∈ validSubtitles parsed <->
  exists p, parsed !! x = Some p /\ translatable p = true.
Proof.
  split.
  - intros H. apply validFrom_elem in H as (_ & p & Hp & Ht).
    rewrite Nat.sub_0_r in Hp. eauto.
  - intros (p & Hp & Ht). apply (validFrom_complete 0 _ _ _ Hp Ht).
Qed.

(** ** [processBatch] on the store *)

(** What a settled call does to the entry at position [k] of its batch. *)
Definition settled (o : Exn + list jsstring) (k : nat) (sub : ParsedSubtitle)
  : ParsedSubtitle :=
  match o with
  | inr translatedBatch => setText (orElse (translatedBatch !! k) (text sub)) sub
  | inl _ => sub
  end.

Lemma assignFrom_length tr idx batch store :
  length (assignFrom tr idx batch store) = length store.
Proof.
  revert idx store. induction batch as [|j rest IH]; intros idx store; simpl.
  - reflexivity.
  - rewrite IH, length_alter. reflexivity.
Qed.

Lemma assignFrom_notin tr idx batch store j :
  j ∉ batch -> assignFrom tr idx batch store !! j = store !! j.
Proof.
  revert idx store. induction batch as [|j0 rest IH]; intros idx store Hj; simpl.
  - reflexivity.
  - apply not_elem_of_cons in Hj as [Hne Hj].
    rewrite IH by exact Hj. apply list_lookup_alter_ne. congruence.
Qed.

Lemma assignFrom_in tr idx batch store k j :
  NoDup batch -> batch !! k = Some j ->
  assignFrom tr idx batch store !! j =
  settled (inr tr) (idx + k) <$> store !! j.
Proof.
  revert idx store k.
  induction batch as [|j0 rest IH]; intros idx store k Hnd Hk; simpl.
  - rewrite lookup_nil in Hk. discriminate.
  - apply NoDup_cons in Hnd as [Hj0 Hnd].
    destruct k as [|k]; simpl in Hk.
    + injection Hk as ->. rewrite assignFrom_notin by exact Hj0.
      rewrite list_lookup_alter_eq, Nat.add_0_r. reflexivity.
    + rewrite (IH _ _ k Hnd Hk).
      rewrite list_lookup_alter_ne.
      * replace (S idx + k) with (idx + S k) by lia. reflexivity.
      * intros ->. apply Hj0. eapply list_elem_of_lookup_2, Hk.
Qed.

(** ** Traces

    Every step of the pipeline touches the component state through
    [setProgress] or by leaving an event: [record] is that one step. *)
Definition record (a : App) (e : Event) : App :=
  match e with
  | EvProgress v => setProgress a v
  | _ => emit a e
  end.

Lemma record_log a evs : log (foldl record a evs) = log a ++ evs.
Proof.
  revert a. induction evs as [|e evs IH]; intros a; simpl.
  - rewrite app_nil_r. reflexivity.
  - rewrite IH. destruct e; simpl; rewrite <- app_assoc; reflexivity.
Qed.

Lemma record_files a evs : files (foldl record a evs) = files a.
Proof.
  revert a. induction evs as [|e evs IH]; intros a; simpl; [reflexivity|].
  rewrite IH. destruct e; reflexivity.
Qed.

Lemma record_history a evs :
  history (foldl record a evs) = history a /\
  storedHistory (foldl record a evs) = storedHistory a.
Proof.
  revert a. induction evs as [|e evs IH]; intros a; simpl; [auto|].
  destruct (IH (record a e)) as [-> ->]. destruct e; auto.
Qed.

Lemma record_settings a evs :
  step (foldl record a evs) = step a /\
  isProcessing (foldl record a evs) = isProcessing a /\
  currentProcessingFile (foldl record a evs) = currentProcessingFile a.
Proof.
  revert a. induction evs as [|e evs IH]; intros a; simpl; [auto|].
  destruct (IH (record a e)) as (-> & -> & ->). destruct e; auto.
Qed.

Lemma record_app a evs1 evs2 :
  foldl record a (evs1 ++ evs2) = foldl record (foldl record a evs1) evs2.
Proof. apply foldl_app. Qed.

Section PipelineFacts.
Variable env : Env.
Variables src tgt prm : jsstring.
Variables i totalFiles total : nat.

(** The call made for a batch when the store is [store]. *)
Definition callOf (store : list ParsedSubtitle) (b : nat * list nat) : InFlight :=
  mkInFlight (fst b) (snd b)
    (translateBatch env i (fst b) (textAt store <$> snd b) src tgt prm).

Definition dispatchEvent (store : list ParsedSubtitle) (b : nat * list nat)
  : Event :=
  EvTranslate i (fst b) (snd b) (textAt store <$> snd b).

(** What the settling of one call leaves in the trace when [c] entries
    were complete before. *)
Definition settleEvents (c : nat) (p : InFlight) : list Event :=
  match outcome p with
  | inr _ => [EvSettled i (batchIndex p) (entries p) true]
  | inl _ => [EvSettled i (batchIndex p) (entries p) false; EvConsoleError]
  end ++
  [EvProgress (fmin (globalProgress i (c + length (entries p)) total totalFiles)
                    (Fin 99))].

Fixpoint settleTrace (c : nat) (order : list InFlight) : list Event :=
  match order with
  | [] => []
  | p :: rest => settleEvents c p ++ settleTrace (c + length (entries p)) rest
  end.

Definition settleAll (order : list InFlight) (r : Run) : Run :=
  foldl (fun r p => settle i totalFiles total p r) r order.

Lemma settleAll_cons p rest r :
  settleAll (p :: rest) r = settleAll rest (settle i totalFiles total p r).
Proof. reflexivity. Qed.

Lemma settle_spec p r :
  settle i totalFiles total p r =
  mkRun (foldl record (app r) (settleEvents (completedSubtitlesCount r) p))
        (match outcome p with
         | inr tr => assignFrom tr 0 (entries p) (parsed r)
         | inl _ => parsed r
         end)
        (completedSubtitlesCount r + length (entries p)).
Proof.
  unfold settle, settleEvents. destruct (outcome p); reflexivity.
Qed.

Lemma settle_lookup_notin p r j :
  j ∉ entries p ->
  parsed (settle i totalFiles total p r) !! j = parsed r !! j.
Proof.
  intros Hj. rewrite settle_spec. simpl.
  destruct (outcome p); [reflexivity|]. apply assignFrom_notin, Hj.
Qed.

Lemma settle_lookup_in p r k j :
  NoDup (entries p) -> entries p !! k = Some j ->
  parsed (settle i totalFiles total p r) !! j =
  settled (outcome p) k <$> parsed r !! j.
Proof.
  intros Hnd Hk. rewrite settle_spec. simpl.
  destruct (outcome p) as [e|tr]; simpl.
  - destruct (parsed r !! j); reflexivity.
  - rewrite (assignFrom_in tr 0 _ _ k j Hnd Hk). reflexivity.
Qed.

Lemma settle_length p r :
  length (parsed (settle i totalFiles total p r)) = length (parsed r).
Proof.
  rewrite settle_spec. simpl.
  destruct (outcome p); [reflexivity|]. apply assignFrom_length.
Qed.

Lemma settleAll_app order r :
  app (settleAll order r) =
  foldl record (app r) (settleTrace (completedSubtitlesCount r) order) /\
  completedSubtitlesCount (settleAll order r) =
  completedSubtitlesCount r + sum_list_with (fun p => length (entries p)) order /\
  length (parsed (settleAll order r)) = length (parsed r).
Proof.
  revert r. induction order as [|p rest IH]; intros r.
  - simpl. split; [reflexivity|]. split; [lia|reflexivity].
  - destruct (IH (settle i totalFiles total p r)) as (Ha & Hc & Hl).
    rewrite settleAll_cons, Ha, Hc, Hl.
    rewrite settle_length. rewrite settle_spec. simpl.
    rewrite record_app. split; [reflexivity|]. split; [lia|reflexivity].
Qed.

Lemma settleAll_lookup_notin order r j :
  (forall p, p ∈ order -> j ∉ entries p) ->
  parsed (settleAll order r) !! j = parsed r !! j.
Proof.
  revert r. induction order as [|p rest IH]; intros r Hj; [reflexivity|].
  rewrite settleAll_cons, IH.
  - apply settle_lookup_notin, Hj, list_elem_of_here.
  - intros q Hq. apply Hj, list_elem_of_further, Hq.
Qed.

Lemma settleAll_lookup_in order r p k j :
  NoDup (mjoin (entries <$> order)) ->
  p ∈ order -> entries p !! k = Some j ->
  parsed (settleAll order r) !! j = settled (outcome p) k <$> parsed r !! j.
Proof.
  revert r. induction order as [|q rest IH]; intros r Hnd Hp Hk.
  - apply elem_of_nil in Hp. contradiction.
  - simpl in Hnd. apply NoDup_app in Hnd as (Hq & Hdisj & Hrest).
    rewrite settleAll_cons.
    apply elem_of_cons in Hp as [<-|Hp].
    + rewrite settleAll_lookup_notin.
      * apply settle_lookup_in; assumption.
      * intros q Hq' Hin. apply (Hdisj j).
        -- eapply list_elem_of_lookup_2, Hk.
        -- apply list_elem_of_join. exists (entries q). split; [exact Hin|].
           apply list_elem_of_fmap_2, Hq'.
    + rewrite (IH _ Hrest Hp Hk). rewrite settle_lookup_notin; [reflexivity|].
      intros Hin. apply (Hdisj j Hin).
      apply list_elem_of_join. exists (entries p). split.
      * eapply list_elem_of_lookup_2, Hk.
      * apply list_elem_of_fmap_2, Hp.
Qed.

(** The order in which [awaitAll] settles the calls in flight. *)
Fixpoint settleOrder (w n : nat) (pending : list InFlight) : list InFlight :=
  match n with
  | 0 => []
  | S n' =>
      let k := Nat.modulo (settleNext env i w n') (length pending) in
      match pending !! k with
      | Some p => p :: settleOrder w n' (delete k pending)
      | None => []
      end
  end.

Lemma awaitAll_settleAll w n pending r :
  awaitAll env i totalFiles total w n pending r =
  settleAll (settleOrder w n pending) r.
Proof.
  revert pending r. induction n as [|n IH]; intros pending r; simpl.
  - reflexivity.
  - destruct (pending !! _) as [p|]; [|reflexivity].
    rewrite IH. reflexivity.
Qed.

(** Every call in flight settles, once. *)
Lemma settleOrder_perm w pending :
  settleOrder w (length pending) pending ≡ₚ pending.
Proof.
  remember (length pending) as n eqn:Hn. revert pending Hn.
  induction n as [|n IH]; intros pending Hn; simpl.
  - destruct pending; [reflexivity|discriminate].
  - set (k := Nat.modulo _ _).
    assert (k < length pending) as Hk
      by (apply Nat.mod_upper_bound; lia).
    destruct (lookup_lt_is_Some_2 _ _ Hk) as [p Hp]. rewrite Hp.
    etransitivity; [|symmetry; apply (delete_Permutation _ _ _ Hp)].
    constructor. apply IH. rewrite length_delete by eauto. lia.
Qed.

Lemma dispatchAll_spec chunk r :
  dispatchAll env src tgt prm i chunk r =
  (mkRun (foldl record (app r) (dispatchEvent (parsed r) <$> chunk))
         (parsed r) (completedSubtitlesCount r),
   callOf (parsed r) <$> chunk).
Proof.
  revert r. induction chunk as [|b rest IH]; intros r; simpl.
  - destruct r; reflexivity.
  - rewrite IH. reflexivity.
Qed.

Lemma runWindow_settleAll r w chunk :
  runWindow env src tgt prm i totalFiles total r (w, chunk) =
  settleAll (settleOrder w (length chunk) (callOf (parsed r) <$> chunk))
    (mkRun (foldl record (app r) (dispatchEvent (parsed r) <$> chunk))
           (parsed r) (completedSubtitlesCount r)).
Proof.
  unfold runWindow. simpl. rewrite dispatchAll_spec, awaitAll_settleAll.
  rewrite length_fmap. reflexivity.
Qed.

(** The entries of a window, and of a list of windows. *)
Definition refsOf (chunk : list (nat * list nat)) : list nat :=
  mjoin (snd <$> chunk).

Definition allRefs (ws : list (list (nat * list nat))) : list nat :=
  mjoin (refsOf <$> ws).

Definition sizeOf (chunk : list (nat * list nat)) : nat :=
  sum_list_with (fun b => length (snd b)) chunk.

(** The shape of the trace of a pipeline run over the windows [ws], from
    [c] complete entries on: window after window, the calls of a window
    first, then their settling in some order. *)
Inductive PipeTrace (store0 : list ParsedSubtitle)
  : nat -> list (list (nat * list nat)) -> list Event -> Prop :=
| PipeTrace_nil c : PipeTrace store0 c [] []
| PipeTrace_window c chunk order ws rest :
    order ≡ₚ callOf store0 <$> chunk ->
    PipeTrace store0 (c + sizeOf chunk) ws rest ->
    PipeTrace store0 c (chunk :: ws)
      ((dispatchEvent store0 <$> chunk) ++ settleTrace c order ++ rest).

Lemma textAt_agree store store0 (refs : list nat) :
  (forall j, j ∈ refs -> store !! j = store0 !! j) ->
  textAt store <$> refs = textAt store0 <$> refs.
Proof.
  intros H. apply list_fmap_ext. intros k j Hj. unfold textAt.
  rewrite H; [reflexivity|]. eapply list_elem_of_lookup_2, Hj.
Qed.

Lemma elem_refsOf chunk j :
  j ∈ refsOf chunk <-> exists b, b ∈ chunk /\ j ∈ snd b.
Proof.
  unfold refsOf. rewrite list_elem_of_join. split.
  - intros (l & Hj & (b & -> & Hb)%list_elem_of_fmap). eauto.
  - intros (b & Hb & Hj). exists (snd b). split; [exact Hj|].
    apply list_elem_of_fmap_2, Hb.
Qed.

Lemma calls_agree store store0 chunk :
  (forall j, j ∈ refsOf chunk -> store !! j = store0 !! j) ->
  callOf store <$> chunk = callOf store0 <$> chunk /\
  dispatchEvent store <$> chunk = dispatchEvent store0 <$> chunk.
Proof.
  intros H.
  assert (forall b, b ∈ chunk ->
    textAt store <$> snd b = textAt store0 <$> snd b) as Ht.
  { intros b Hb. apply textAt_agree. intros j Hj. apply H.
    apply elem_refsOf. eauto. }
  split; apply list_fmap_ext; intros k b Hb;
    unfold callOf, dispatchEvent;
    rewrite (Ht b (list_elem_of_lookup_2 _ _ _ Hb)); reflexivity.
Qed.

Lemma entries_calls store (chunk : list (nat * list nat)) :
  entries <$> (callOf store <$> chunk) = snd <$> chunk.
Proof. rewrite <- list_fmap_compose. reflexivity. Qed.

Lemma sizeOf_calls store (chunk : list (nat * list nat)) (order : list InFlight) :
  order ≡ₚ callOf store <$> chunk ->
  sum_list_with (fun p => length (entries p)) order = sizeOf chunk.
Proof.
  intros ->. unfold sizeOf.
  induction chunk as [|b rest IH]; [reflexivity|].
  rewrite fmap_cons. simpl. f_equal. exact IH.
Qed.

Lemma sizeOf_length chunk : sizeOf chunk = length (refsOf chunk).
Proof.
  unfold sizeOf, refsOf. induction chunk as [|b rest IH]; [reflexivity|].
  rewrite fmap_cons. simpl. rewrite length_app, IH. reflexivity.
Qed.

Lemma runWindow_spec r w chunk store0 :
  NoDup (refsOf chunk) ->
  (forall j, j ∈ refsOf chunk -> parsed r !! j = store0 !! j) ->
  exists order, order ≡ₚ callOf store0 <$> chunk /\
    app (runWindow env src tgt prm i totalFiles total r (w, chunk)) =
      foldl record (app r)
        ((dispatchEvent store0 <$> chunk) ++
         settleTrace (completedSubtitlesCount r) order) /\
    completedSubtitlesCount
      (runWindow env src tgt prm i totalFiles total r (w, chunk)) =
      completedSubtitlesCount r + sizeOf chunk /\
    length (parsed (runWindow env src tgt prm i totalFiles total r (w, chunk))) =
      length (parsed r) /\
    (forall j, j ∉ refsOf chunk ->
       parsed (runWindow env src tgt prm i totalFiles total r (w, chunk)) !! j =
       parsed r !! j) /\
    (forall b k j, b ∈ chunk -> snd b !! k = Some j ->
       parsed (runWindow env src tgt prm i totalFiles total r (w, chunk)) !! j =
       settled (outcome (callOf store0 b)) k <$> parsed r !! j).
Proof.
  intros Hnd Hagree.
  rewrite runWindow_settleAll.
  destruct (calls_agree _ _ _ Hagree) as [-> ->].
  set (order := settleOrder w (length chunk) (callOf store0 <$> chunk)).
  set (r0 := mkRun _ _ _).
  assert (order ≡ₚ callOf store0 <$> chunk) as Hperm.
  { unfold order. rewrite <- (length_fmap (callOf store0) chunk).
    apply settleOrder_perm. }
  assert (mjoin (entries <$> order) ≡ₚ refsOf chunk) as Hrefs.
  { unfold refsOf. rewrite <- (entries_calls store0 chunk), Hperm. reflexivity. }
  destruct (settleAll_app order r0) as (Ha & Hc & Hl).
  exists order. split; [exact Hperm|].
  split; [rewrite Ha; unfold r0; simpl; rewrite record_app; reflexivity|].
  split; [rewrite Hc, (sizeOf_calls _ _ _ Hperm); reflexivity|].
  split; [exact Hl|]. split.
  - intros j Hj. rewrite settleAll_lookup_notin; [reflexivity|].
    intros p Hp Hin. apply Hj. rewrite <- Hrefs.
    apply list_elem_of_join. exists (entries p). split; [exact Hin|].
    apply list_elem_of_fmap_2, Hp.
  - intros b k j Hb Hk.
    apply (settleAll_lookup_in order r0 (callOf store0 b) k j).
    + rewrite Hrefs. exact Hnd.
    + rewrite Hperm. apply list_elem_of_fmap_2, Hb.
    + exact Hk.
Qed.

Lemma elem_allRefs ws j :
  j ∈ allRefs ws <-> exists chunk, chunk ∈ ws /\ j ∈ refsOf chunk.
Proof.
  unfold allRefs. rewrite list_elem_of_join. split.
  - intros (l & Hj & (c & -> & Hc)%list_elem_of_fmap). eauto.
  - intros (c & Hc & Hj). exists (refsOf c). split; [exact Hj|].
    apply list_elem_of_fmap_2, Hc.
Qed.

(** The loop over the windows: its trace has the shape [PipeTrace]; an
    entry outside every batch is left as it is; the entry at position [k]
    of a batch is what the settling of that batch's call makes of it. *)
Lemma runWindows_spec (wws : list (nat * list (nat * list nat))) r store0 :
  NoDup (allRefs (snd <$> wws)) ->
  (forall j, j ∈ allRefs (snd <$> wws) -> parsed r !! j = store0 !! j) ->
  exists evs,
    app (foldl (runWindow env src tgt prm i totalFiles total) r wws) =
      foldl record (app r) evs /\
    PipeTrace store0 (completedSubtitlesCount r) (snd <$> wws) evs /\
    length (parsed (foldl (runWindow env src tgt prm i totalFiles total) r wws)) =
      length (parsed r) /\
    (forall j, j ∉ allRefs (snd <$> wws) ->
       parsed (foldl (runWindow env src tgt prm i totalFiles total) r wws) !! j =
       parsed r !! j) /\
    (forall chunk b k j,
       chunk ∈ snd <$> wws -> b ∈ chunk -> snd b !! k = Some j ->
       parsed (foldl (runWindow env src tgt prm i totalFiles total) r wws) !! j =
       settled (outcome (callOf store0 b)) k <$> parsed r !! j) /\
    completedSubtitlesCount
      (foldl (runWindow env src tgt prm i totalFiles total) r wws) =
      completedSubtitlesCount r + length (allRefs (snd <$> wws)).
Proof.
  revert r. induction wws as [|[w chunk] rest IH]; intros r Hnd Hagree.
  - exists []. simpl. split; [reflexivity|]. split; [constructor|].
    split; [reflexivity|]. split; [reflexivity|].
    split; [|lia].
    intros chunk b k j Hc. apply elem_of_nil in Hc. contradiction.
  - rewrite fmap_cons in Hnd, Hagree. simpl in Hnd, Hagree.
    unfold allRefs in Hnd. rewrite fmap_cons in Hnd. simpl in Hnd.
    apply NoDup_app in Hnd as (Hnd1 & Hdisj & Hnd2).
    assert (forall j, j ∈ refsOf chunk -> parsed r !! j = store0 !! j) as Hagree1.
    { intros j Hj. apply Hagree. apply elem_allRefs.
      exists chunk. split; [apply list_elem_of_here|exact Hj]. }
    destruct (runWindow_spec r w chunk store0 Hnd1 Hagree1)
      as (order & Hperm & Ha1 & Hc1 & Hl1 & Hout1 & Hin1).
    set (r1 := runWindow env src tgt prm i totalFiles total r (w, chunk)) in *.
    assert (forall j, j ∈ allRefs (snd <$> rest) ->
              parsed r1 !! j = store0 !! j) as Hagree2.
    { intros j Hj. rewrite Hout1.
      - apply Hagree. apply elem_allRefs. apply elem_allRefs in Hj as (c & Hc & Hj).
        exists c. split; [apply list_elem_of_further, Hc|exact Hj].
      - intros Hj1. exact (Hdisj j Hj1 Hj). }
    destruct (IH r1 Hnd2 Hagree2) as (evs & Ha & Htr & Hl & Hout & Hin & Hcnt).
    exists ((dispatchEvent store0 <$> chunk) ++
            settleTrace (completedSubtitlesCount r) order ++ evs).
    simpl. fold r1.
    assert (completedSubtitlesCount
              (foldl (runWindow env src tgt prm i totalFiles total) r1 rest) =
            completedSubtitlesCount r +
            length (allRefs (chunk :: (snd <$> rest)))) as Hcount.
    { rewrite Hcnt, Hc1, sizeOf_length. unfold allRefs at 2.
      rewrite fmap_cons. simpl. rewrite length_app.
      unfold allRefs. lia. }
    split; [rewrite Ha, Ha1, !record_app; reflexivity|].
    split; [constructor; [exact Hperm|rewrite <- Hc1; exact Htr]|].
    split; [rewrite Hl; exact Hl1|]. split; [|split].
    + intros j Hj. rewrite Hout, Hout1; [reflexivity| |].
      * intros Hj1. apply Hj. apply elem_allRefs.
        exists chunk. split; [apply list_elem_of_here|exact Hj1].
      * intros Hj2. apply Hj. apply elem_allRefs.
        apply elem_allRefs in Hj2 as (c & Hc & Hj2).
        exists c. split; [apply list_elem_of_further, Hc|exact Hj2].
    + intros c b k j Hc Hb Hk.
      assert (j ∈ refsOf c) as Hjc.
      { apply elem_refsOf. exists b. split; [exact Hb|].
        eapply list_elem_of_lookup_2, Hk. }
      apply elem_of_cons in Hc as [->|Hc].
      * rewrite Hout; [apply (Hin1 b k j Hb Hk)|].
        intros Hj2. exact (Hdisj j Hjc Hj2).
      * rewrite (Hin c b k j Hc Hb Hk). rewrite Hout1; [reflexivity|].
        intros Hj1. apply (Hdisj j Hj1). apply elem_allRefs. eauto.
    + exact Hcount.
Qed.

End PipelineFacts.

(** ** The pipeline of one file *)

(** The batches and the windows of lines 126-129 and 154-155. *)
Definition batchesOf (store : list ParsedSubtitle) : list (list nat) :=
  slices BATCH_SIZE (validSubtitles store) 0.

Definition windowsOf (store : list ParsedSubtitle)
  : list (list (nat * list nat)) :=
  slices CONCURRENT_LIMIT (imap pair (batchesOf store)) 0.

Lemma snd_imap_pair {A : Type} (l : list A) : snd <$> imap pair l = l.
Proof.
  apply list_eq. intros k.
  rewrite list_lookup_fmap, list_lookup_imap.
  destruct (l !! k); reflexivity.
Qed.

Lemma elem_imap_pair {A : Type} (l : list A) k x :
  (k, x) ∈ imap pair l <-> l !! k = Some x.
Proof.
  rewrite list_elem_of_lookup. split.
  - intros (n & Hn). rewrite list_lookup_imap in Hn.
    destruct (l !! n) as [y|] eqn:Hy; simpl in Hn; [|discriminate].
    injection Hn as <- <-. exact Hy.
  - intros H. exists k. rewrite list_lookup_imap, H. reflexivity.
Qed.

Lemma refsOf_app c1 c2 : refsOf (c1 ++ c2) = refsOf c1 ++ refsOf c2.
Proof. unfold refsOf. rewrite fmap_app, join_app. reflexivity. Qed.

Lemma allRefs_join ws : allRefs ws = refsOf (mjoin ws).
Proof.
  induction ws as [|c ws IH]; [reflexivity|].
  unfold allRefs in *. rewrite fmap_cons. simpl.
  rewrite refsOf_app, IH. reflexivity.
Qed.

Lemma BATCH_SIZE_pos : 0 < BATCH_SIZE.
Proof. unfold BATCH_SIZE. lia. Qed.

Lemma CONCURRENT_LIMIT_pos : 0 < CONCURRENT_LIMIT.
Proof. unfold CONCURRENT_LIMIT. lia. Qed.

Lemma windowsOf_join store : mjoin (windowsOf store) = imap pair (batchesOf store).
Proof.
  unfold windowsOf. rewrite slices_concat by exact CONCURRENT_LIMIT_pos.
  reflexivity.
Qed.

Lemma batchesOf_join store : mjoin (batchesOf store) = validSubtitles store.
Proof.
  unfold batchesOf. rewrite slices_concat by exact BATCH_SIZE_pos.
  reflexivity.
Qed.

Lemma allRefs_windowsOf store : allRefs (windowsOf store) = validSubtitles store.
Proof.
  rewrite allRefs_join, windowsOf_join. unfold refsOf.
  rewrite snd_imap_pair. apply batchesOf_join.
Qed.

Lemma windowsOf_nil store : validSubtitles store = [] -> windowsOf store = [].
Proof.
  intros H. unfold windowsOf, batchesOf. rewrite H.
  rewrite (slices_done BATCH_SIZE (@nil nat) 0) by (simpl; lia).
  apply slices_done. simpl. lia.
Qed.

Lemma batch_in_window store b refs :
  batchesOf store !! b = Some refs ->
  exists chunk, chunk ∈ windowsOf store /\ (b, refs) ∈ chunk.
Proof.
  intros H. apply elem_imap_pair in H. rewrite <- windowsOf_join in H.
  apply list_elem_of_join in H as (chunk & Hb & Hc). eauto.
Qed.

Lemma window_in_batches store chunk b refs :
  chunk ∈ windowsOf store -> (b, refs) ∈ chunk ->
  batchesOf store !! b = Some refs.
Proof.
  intros Hc Hb. apply elem_imap_pair. rewrite <- windowsOf_join.
  apply list_elem_of_join. eauto.
Qed.

Section PipelineSpec.
Variable env : Env.
Variables src tgt prm : jsstring.
Variables i totalFiles : nat.

(** What the call made for batch [b] settles with. *)
Definition outcomeOf (store : list ParsedSubtitle) (b : nat) (refs : list nat)
  : Exn + list jsstring :=
  translateBatch env i b (textAt store <$> refs) src tgt prm.

Lemma runPipeline_spec a store :
  exists evs,
    app (runPipeline env src tgt prm i totalFiles a store) =
      foldl record a evs /\
    PipeTrace env src tgt prm i totalFiles (length (validSubtitles store))
      store 0 (windowsOf store) evs /\
    length (parsed (runPipeline env src tgt prm i totalFiles a store)) =
      length store /\
    (forall j, j ∉ validSubtitles store ->
       parsed (runPipeline env src tgt prm i totalFiles a store) !! j =
       store !! j) /\
    (forall b refs k j,
       batchesOf store !! b = Some refs -> refs !! k = Some j ->
       parsed (runPipeline env src tgt prm i totalFiles a store) !! j =
       settled (outcomeOf store b refs) k <$> store !! j) /\
    completedSubtitlesCount (runPipeline env src tgt prm i totalFiles a store) =
      length (validSubtitles store).
Proof.
  unfold runPipeline.
  fold (batchesOf store). fold (windowsOf store).
  destruct (runWindows_spec env src tgt prm i totalFiles
              (length (validSubtitles store))
              (imap pair (windowsOf store)) (mkRun a store 0) store)
    as (evs & Ha & Htr & Hl & Hout & Hin & Hcnt).
  - rewrite snd_imap_pair, allRefs_windowsOf. apply validSubtitles_NoDup.
  - reflexivity.
  - rewrite snd_imap_pair in *. rewrite allRefs_windowsOf in Hout, Hcnt.
    exists evs. split; [exact Ha|]. split; [exact Htr|].
    split; [exact Hl|]. split; [exact Hout|]. split; [|exact Hcnt].
    intros b refs k j Hb Hk.
    destruct (batch_in_window _ _ _ Hb) as (chunk & Hc & Hbc).
    apply (Hin chunk (b, refs) k j Hc Hbc Hk).
Qed.

End PipelineSpec.

(** ** What a trace of the shape [PipeTrace] holds *)

Definition isTranslate (e : Event) : bool :=
  match e with EvTranslate _ _ _ _ => true | _ => false end.

Definition isSettled (e : Event) : bool :=
  match e with EvSettled _ _ _ _ => true | _ => false end.

(** The number of events of a kind in a trace. *)
Definition countIf (f : Event -> bool) (evs : list Event) : nat :=
  length (List.filter f evs).

Lemma countIf_app f evs1 evs2 :
  countIf f (evs1 ++ evs2) = countIf f evs1 + countIf f evs2.
Proof. unfold countIf. rewrite List.filter_app, length_app. reflexivity. Qed.

Lemma countIf_le f evs : countIf f evs <= length evs.
Proof. apply List.filter_length_le. Qed.

(** Two ways to cut a list meet. *)
Lemma app_eq_app_cases {A : Type} (l1 l2 pre post : list A) :
  l1 ++ l2 = pre ++ post ->
  (exists mid, l1 = pre ++ mid /\ post = mid ++ l2) \/
  (exists mid, pre = l1 ++ mid /\ l2 = mid ++ post).
Proof.
  intros H. destruct (List.app_eq_app _ _ _ _ H) as [mid [[-> ->]|[-> ->]]];
    [left|right]; exists mid; auto.
Qed.

Lemma app_eq_cons_cases {A : Type} (l1 l2 pre post : list A) (x : A) :
  l1 ++ l2 = pre ++ x :: post ->
  (exists post1, l1 = pre ++ x :: post1 /\ post = post1 ++ l2) \/
  (exists pre2, pre = l1 ++ pre2 /\ l2 = pre2 ++ x :: post).
Proof.
  intros H. destruct (app_eq_app_cases _ _ _ _ H) as [[mid [-> Hp]]|[mid [-> Hp]]].
  - destruct mid as [|y mid]; simpl in Hp.
    + right. exists []. rewrite !app_nil_r. auto.
    + injection Hp as <- ->. left. exists mid. auto.
  - right. exists mid. auto.
Qed.

Section TraceFacts.
Variable env : Env.
Variables src tgt prm : jsstring.
Variables i totalFiles total : nat.
Variable store : list ParsedSubtitle.

Local Abbreviation PipeTrace' := (PipeTrace env src tgt prm i totalFiles total store).
Local Abbreviation settleTrace' := (settleTrace i totalFiles total).
Local Abbreviation callOf' := (callOf env src tgt prm i store).
Local Abbreviation dispatchEvent' := (dispatchEvent i store).

(** The events the pipeline of file [i] may leave: calls made for a batch
    of a window with the texts the store had, their settling, progress
    reports and error logs. *)
Definition pipeEvent (ws : list (list (nat * list nat))) (e : Event) : Prop :=
  match e with
  | EvTranslate fi b refs texts =>
      fi = i /\ (exists chunk, chunk ∈ ws /\ (b, refs) ∈ chunk) /\
      texts = textAt store <$> refs
  | EvSettled fi b refs ok =>
      fi = i /\ (exists chunk, chunk ∈ ws /\ (b, refs) ∈ chunk) /\
      ok = match outcome (callOf' (b, refs)) with inr _ => true | inl _ => false end
  | EvProgress _ | EvConsoleError => True
  | EvAlert _ | EvReconstruct _ _ => False
  end.

Lemma pipeEvent_mono ws ws' e :
  (forall chunk, chunk ∈ ws -> chunk ∈ ws') -> pipeEvent ws e -> pipeEvent ws' e.
Proof.
  intros Hsub. destruct e; simpl; try tauto.
  - intros (? & (c & ? & ?) & ?). eauto 6.
  - intros (? & (c & ? & ?) & ?). eauto 6.
Qed.

Lemma settleTrace_events ws chunk c order :
  chunk ∈ ws -> (forall p, p ∈ order -> p ∈ callOf' <$> chunk) ->
  Forall (pipeEvent ws) (settleTrace' c order).
Proof.
  intros Hc. revert c. induction order as [|p rest IH]; intros c Hp; simpl.
  - constructor.
  - apply Forall_app. split.
    + destruct (list_elem_of_fmap_1 _ _ _ (Hp p (list_elem_of_here _ _)))
        as ([b refs] & -> & Hb).
      unfold settleEvents. simpl.
      destruct (translateBatch _ _ _ _ _ _ _) eqn:Ho;
        repeat (apply Forall_cons_2 || apply Forall_nil_2); simpl; try exact I.
      * split; [reflexivity|]. split; [eauto|]. unfold callOf. simpl.
        rewrite Ho. reflexivity.
      * split; [reflexivity|]. split; [eauto|]. unfold callOf. simpl.
        rewrite Ho. reflexivity.
    + apply IH. intros q Hq. apply Hp, list_elem_of_further, Hq.
Qed.

Lemma PipeTrace_events c ws evs :
  PipeTrace' c ws evs -> Forall (pipeEvent ws) evs.
Proof.
  induction 1 as [c|c chunk order ws rest Hperm _ IH].
  - constructor.
  - apply Forall_app. split; [|apply Forall_app; split].
    + apply Forall_fmap, Forall_forall. intros [b refs] Hb. simpl.
      split; [reflexivity|]. split; [|reflexivity].
      exists chunk. split; [apply list_elem_of_here|exact Hb].
    + apply (settleTrace_events _ chunk); [apply list_elem_of_here|].
      intros p Hp. rewrite <- Hperm. exact Hp.
    + eapply Forall_impl; [exact IH|]. intros e. apply pipeEvent_mono.
      intros c0 Hc0. apply list_elem_of_further, Hc0.
Qed.

Lemma settleTrace_settled c order p :
  p ∈ order ->
  exists ok, EvSettled i (batchIndex p) (entries p) ok ∈ settleTrace' c order.
Proof.
  revert c. induction order as [|q rest IH]; intros c Hp.
  - apply elem_of_nil in Hp. contradiction.
  - simpl. apply elem_of_cons in Hp as [<-|Hp].
    + unfold settleEvents. destruct (outcome p); eexists;
        apply elem_of_app; left; apply list_elem_of_here.
    + destruct (IH (c + length (entries q)) Hp) as [ok Hok].
      exists ok. apply elem_of_app. right. exact Hok.
Qed.

(** Every batch of every window is called for, and its call settles. *)
Lemma PipeTrace_complete c ws evs chunk b refs :
  PipeTrace' c ws evs -> chunk ∈ ws -> (b, refs) ∈ chunk ->
  EvTranslate i b refs (textAt store <$> refs) ∈ evs /\
  exists ok, EvSettled i b refs ok ∈ evs.
Proof.
  induction 1 as [c|c chunk0 order ws rest Hperm _ IH]; intros Hc Hb.
  - apply elem_of_nil in Hc. contradiction.
  - apply elem_of_cons in Hc as [->|Hc].
    + split.
      * apply elem_of_app. left.
        apply (list_elem_of_fmap_2 dispatchEvent' _ _ Hb).
      * assert (callOf' (b, refs) ∈ order) as Hp
          by (rewrite Hperm; apply list_elem_of_fmap_2, Hb).
        destruct (settleTrace_settled c order _ Hp) as [ok Hok].
        exists ok. apply elem_of_app. right. apply elem_of_app. left. exact Hok.
    + destruct (IH Hc Hb) as (Ht & ok & Hs). split.
      * apply elem_of_app. right. apply elem_of_app. right. exact Ht.
      * exists ok. apply elem_of_app. right. apply elem_of_app. right. exact Hs.
Qed.

Lemma countIf_dispatch chunk :
  countIf isTranslate (dispatchEvent' <$> chunk) = length chunk /\
  countIf isSettled (dispatchEvent' <$> chunk) = 0.
Proof.
  unfold countIf. induction chunk as [|b rest [IH1 IH2]]; [auto|].
  rewrite fmap_cons. simpl. rewrite IH1, IH2. auto.
Qed.

Lemma countIf_settleTrace c order :
  countIf isTranslate (settleTrace' c order) = 0 /\
  countIf isSettled (settleTrace' c order) = length order.
Proof.
  revert c. induction order as [|p rest IH]; intros c; [auto|].
  simpl. rewrite !countIf_app.
  destruct (IH (c + length (entries p))) as [-> ->].
  unfold settleEvents. destruct (outcome p); auto.
Qed.

Lemma countIf_prefix f (pre post : list Event) :
  countIf f pre <= countIf f (pre ++ post).
Proof. rewrite countIf_app. lia. Qed.

(** At every point of the trace the calls made and not yet settled are at
    most as many as the largest window has batches. *)
Lemma PipeTrace_in_flight limit c ws evs :
  PipeTrace' c ws evs ->
  Forall (fun chunk => length chunk <= limit) ws ->
  countIf isTranslate evs = countIf isSettled evs /\
  forall pre post, evs = pre ++ post ->
    countIf isSettled pre <= countIf isTranslate pre <=
    countIf isSettled pre + limit.
Proof.
  induction 1 as [c|c chunk order ws rest Hperm _ IH]; intros Hlim.
  - split; [reflexivity|]. intros pre post H. symmetry in H.
    apply app_eq_nil in H as [-> _]. unfold countIf. simpl. lia.
  - apply Forall_cons_1 in Hlim as [Hlen Hlim].
    destruct (IH Hlim) as [Hbal Hpre]. clear IH.
    destruct (countIf_dispatch chunk) as [Hd1 Hd2].
    destruct (countIf_settleTrace c order) as [Hs1 Hs2].
    assert (length order = length chunk) as Hlo
      by (rewrite Hperm, length_fmap; reflexivity).
    split; [rewrite !countIf_app; lia|].
    intros pre post H.
    destruct (app_eq_app_cases _ _ _ _ H) as [(mid & HD & _)|(mid & -> & H')].
    + pose proof (countIf_prefix isTranslate pre mid) as P1.
      pose proof (countIf_prefix isSettled pre mid) as P2.
      rewrite <- HD in P1, P2. lia.
    + destruct (app_eq_app_cases _ _ _ _ H') as [(m2 & HS & _)|(m3 & -> & H'')].
      * pose proof (countIf_prefix isTranslate mid m2) as P1.
        pose proof (countIf_prefix isSettled mid m2) as P2.
        rewrite <- HS in P1, P2. rewrite !countIf_app. lia.
      * specialize (Hpre m3 post H''). rewrite !countIf_app. lia.
Qed.



(** The calls are made batch after batch, in the order of the windows. *)
Lemma PipeTrace_calls c ws evs :
  PipeTrace' c ws evs ->
  List.filter isTranslate evs = dispatchEvent' <$> mjoin ws.
Proof.
  induction 1 as [c|c chunk order ws rest Hperm _ IH]; [reflexivity|].
  rewrite !List.filter_app, IH. simpl. rewrite fmap_app.
  assert (List.filter isTranslate (settleTrace' c order) = []) as ->.
  { destruct (countIf_settleTrace c order) as [H0 _].
    apply nil_length_inv, H0. }
  assert (List.filter isTranslate (dispatchEvent' <$> chunk) =
          dispatchEvent' <$> chunk) as ->.
  { clear. induction chunk as [|b r IHc]; [reflexivity|].
    rewrite fmap_cons. simpl. rewrite IHc. reflexivity. }
  reflexivity.
Qed.

End TraceFacts.

(** ** Entries of a batch *)

Lemma batch_elem_valid store b refs j :
  batchesOf store !! b = Some refs -> j ∈ refs -> j ∈ validSubtitles store.
Proof.
  intros Hb Hj. rewrite <- batchesOf_join. apply list_elem_of_join.
  exists refs. split; [exact Hj|]. eapply list_elem_of_lookup_2, Hb.
Qed.

Lemma translatable_text p : translatable p = true -> trim (text p) <> [].
Proof.
  unfold translatable. intros H.
  apply andb_prop in H as [_ H]. apply Nat.ltb_lt in H.
  destruct (trim (text p)); [simpl in H; lia|discriminate].
Qed.

Lemma translatable_nonempty p : translatable p = true -> text p <> [].
Proof.
  intros H%translatable_text Hnil. apply H. rewrite Hnil. reflexivity.
Qed.

Lemma translatable_flags p :
  translatable p = true ->
  flag (isHeader p) = false /\ flag (isMalformed p) = false.
Proof.
  unfold translatable. intros H.
  apply andb_prop in H as [H _]. apply andb_prop in H as [H1 H2].
  split; apply negb_true_iff; assumption.
Qed.

Lemma batch_entry store b refs k j :
  batchesOf store !! b = Some refs -> refs !! k = Some j ->
  exists sub, store !! j = Some sub /\ translatable sub = true.
Proof.
  intros Hb Hk. apply validSubtitles_elem.
  apply (batch_elem_valid store b refs j Hb).
  eapply list_elem_of_lookup_2, Hk.
Qed.

Lemma pipeline_log env src tgt prm i totalFiles a store evs :
  app (runPipeline env src tgt prm i totalFiles a store) = foldl record a evs ->
  log (app (runPipeline env src tgt prm i totalFiles a store)) = log a ++ evs.
Proof. intros ->. apply record_log. Qed.

(** An entry the filter of line 123 must drop. *)
Definition excluded (p : ParsedSubtitle) : Prop :=
  flag (isHeader p) = true \/ flag (isMalformed p) = true \/ trim (text p) = [].

Lemma excluded_translatable p : excluded p -> translatable p = false.
Proof.
  unfold translatable. intros [H|[H|H]]; rewrite H; simpl;
    rewrite ?andb_false_r; reflexivity.
Qed.

Lemma excluded_stripEntry p : excluded p -> excluded (stripEntry p).
Proof.
  unfold stripEntry. destruct (truthy (text p)); [|auto].
  intros [H|[H|H]]; [left; exact H|right; left; exact H|].
  right. right. simpl. rewrite stripSDH_blank by (apply trim_blank, H).
  reflexivity.
Qed.

Lemma stripAll_lookup sdh fresh j :
  stripAll sdh fresh !! j =
  (fun p => if sdh then stripEntry p else p) <$> fresh !! j.
Proof.
  unfold stripAll. destruct sdh.
  - apply list_lookup_fmap.
  - destruct (fresh !! j); reflexivity.
Qed.




(** ** One file *)

Lemma valid_in_batch store j :
  j ∈ validSubtitles store ->
  exists b refs k, batchesOf store !! b = Some refs /\ refs !! k = Some j.
Proof.
  rewrite <- batchesOf_join. intros (refs & Hj & Hr)%list_elem_of_join.
  apply list_elem_of_lookup_1 in Hr as [b Hb].
  apply list_elem_of_lookup_1 in Hj as [k Hk]. eauto.
Qed.

(** The entries the pipeline ends with depend on the environment and on
    the entries it starts with, not on the component state. *)
Lemma runPipeline_parsed_indep env src tgt prm i totalFiles a a' store :
  parsed (runPipeline env src tgt prm i totalFiles a store) =
  parsed (runPipeline env src tgt prm i totalFiles a' store).
Proof.
  destruct (runPipeline_spec env src tgt prm i totalFiles a store)
    as (_ & _ & _ & _ & Hout & Hin & _).
  destruct (runPipeline_spec env src tgt prm i totalFiles a' store)
    as (_ & _ & _ & _ & Hout' & Hin' & _).
  apply list_eq. intros j.
  destruct (decide (j ∈ validSubtitles store)) as [Hj|Hj].
  - destruct (valid_in_batch _ _ Hj) as (b & refs & k & Hb & Hk).
    rewrite (Hin _ _ _ _ Hb Hk), (Hin' _ _ _ _ Hb Hk). reflexivity.
  - rewrite (Hout _ Hj), (Hout' _ Hj). reflexivity.
Qed.

Section FileFacts.
Variable env : Env.
Variable a0 : App.

(** The entries of a file when the filter is computed, and when
    [reconstructSubtitles] is called. *)
Definition entriesBefore (fresh : list ParsedSubtitle) : list ParsedSubtitle :=
  stripAll (removeSDH a0) fresh.

Definition entriesAfter (i : nat) (fresh : list ParsedSubtitle)
  : list ParsedSubtitle :=
  parsed (runPipeline env (sourceLang a0) (targetLang a0) (prompt a0) i
            (length (files a0)) a0 (entriesBefore fresh)).

(** How the [try] block of file [i] ends: with the exception of the first
    step that throws, or with the text read and the text reconstructed. *)
Definition fileOutcome (i : nat) (fileItem : FileItem)
  : Exn + (jsstring * jsstring) :=
  match readFileAsText env (file fileItem) with
  | inl e => inl e
  | inr txt =>
      match parseSubtitles env txt with
      | inl e => inl e
      | inr fresh =>
          match reconstructSubtitles env (entriesAfter i fresh)
                  (name (file fileItem)) with
          | inl e => inl e
          | inr finalText => inr (txt, finalText)
          end
      end
  end.

(** What the file's record becomes. *)
Definition finish (i : nat) (fileItem : FileItem) : FileItem -> FileItem :=
  match fileOutcome i fileItem with
  | inl e => asError e
  | inr (txt, finalText) => fun _ => asDone txt finalText fileItem
  end.

(** The trace of one iteration of the file loop. *)
Definition FileTrace (i : nat) (fileItem : FileItem) (evs : list Event) : Prop :=
  match readFileAsText env (file fileItem) with
  | inl _ => evs = [EvConsoleError]
  | inr txt =>
      match parseSubtitles env txt with
      | inl _ => evs = [EvConsoleError]
      | inr fresh =>
          exists pevs,
            PipeTrace env (sourceLang a0) (targetLang a0) (prompt a0) i
              (length (files a0))
              (length (validSubtitles (entriesBefore fresh)))
              (entriesBefore fresh) 0 (windowsOf (entriesBefore fresh)) pevs /\
            evs = pevs ++ EvReconstruct i (entriesAfter i fresh) ::
                  match reconstructSubtitles env (entriesAfter i fresh)
                          (name (file fileItem)) with
                  | inl _ => [EvConsoleError]
                  | inr _ => []
                  end
      end
  end.

Lemma mapById_mapById fid u v fs :
  (forall f, file_id (u f) = file_id f) ->
  mapById fid v (mapById fid u fs) = mapById fid (fun f => v (u f)) fs.
Proof.
  intros Hid. unfold mapById. rewrite <- list_fmap_compose.
  apply list_fmap_ext. intros k f _. simpl.
  destruct (decide (file_id f = fid)) as [Hf|Hf].
  - rewrite Hid. destruct (decide (file_id f = fid)); [reflexivity|contradiction].
  - destruct (decide (file_id f = fid)); [contradiction|reflexivity].
Qed.

Lemma mapById_ext fid u v fs :
  (forall f, u f = v f) -> mapById fid u fs = mapById fid v fs.
Proof.
  intros H. unfold mapById. apply list_fmap_ext. intros k f _.
  destruct (decide _); [apply H|reflexivity].
Qed.

Lemma processFile_spec i fileItem a :
  exists evs,
    FileTrace i fileItem evs /\
    log (processFile env a0 a (i, fileItem)) = log a ++ evs /\
    files (processFile env a0 a (i, fileItem)) =
      mapById (file_id fileItem) (finish i fileItem) (files a).
Proof.
  unfold processFile, tryFile, FileTrace, finish, fileOutcome.
  destruct (readFileAsText env (file fileItem)) as [e|txt].
  { exists [EvConsoleError]. split; [reflexivity|]. split; [reflexivity|].
    simpl. rewrite mapById_mapById by reflexivity.
    apply mapById_ext. reflexivity. }
  destruct (parseSubtitles env txt) as [e|fresh].
  { exists [EvConsoleError]. split; [reflexivity|]. split; [reflexivity|].
    simpl. rewrite mapById_mapById by reflexivity.
    apply mapById_ext. reflexivity. }
  fold (entriesBefore fresh).
  set (a2 := setFiles _ _).
  destruct (runPipeline_spec env (sourceLang a0) (targetLang a0) (prompt a0) i
              (length (files a0)) a2 (entriesBefore fresh))
    as (pevs & Ha & Htr & _).
  assert (parsed (runPipeline env (sourceLang a0) (targetLang a0) (prompt a0) i
                    (length (files a0)) a2 (entriesBefore fresh)) =
          entriesAfter i fresh) as Hp
    by apply runPipeline_parsed_indep.
  rewrite Hp, Ha.
  destruct (reconstructSubtitles env (entriesAfter i fresh) (name (file fileItem)))
    as [e|finalText].
  - exists (pevs ++ [EvReconstruct i (entriesAfter i fresh); EvConsoleError]).
    split; [exists pevs; split; [exact Htr|reflexivity]|].
    simpl. rewrite record_log, record_files. simpl.
    split; [rewrite <- !app_assoc; reflexivity|].
    rewrite mapById_mapById by reflexivity.
    apply mapById_ext. reflexivity.
  - exists (pevs ++ [EvReconstruct i (entriesAfter i fresh)]).
    split; [exists pevs; split; [exact Htr|reflexivity]|].
    simpl. rewrite record_log, record_files. simpl.
    split; [rewrite <- !app_assoc; reflexivity|].
    rewrite mapById_mapById by reflexivity.
    apply mapById_ext. reflexivity.
Qed.

(** The [try] block ends with the exception of [readFileAsText],
    [parseSubtitles] or [reconstructSubtitles], if one of them throws, and
    with none otherwise: no call of [translateBatch] makes it throw. *)
Lemma tryFile_result i fileItem a :
  snd (tryFile env a0 i fileItem a) =
  match fileOutcome i fileItem with
  | inl e => Some e
  | inr _ => None
  end.
Proof.
  unfold tryFile, fileOutcome, entriesAfter, entriesBefore.
  destruct (readFileAsText env (file fileItem)) as [e|txt]; [reflexivity|].
  destruct (parseSubtitles env txt) as [e|fresh]; [reflexivity|].
  rewrite (runPipeline_parsed_indep env (sourceLang a0) (targetLang a0)
             (prompt a0) i (length (files a0)) a a0).
  destruct (reconstructSubtitles env _ (name (file fileItem))); reflexivity.
Qed.

End FileFacts.

(** ** The loop over the files *)

Definition terminal (f : FileItem) : Prop :=
  status f = Done \/ status f = Error.

Section LoopFacts.
Variable env : Env.
Variable a0 : App.

(** The trace of the loop over the files [todo], the first of which has
    index [k]. *)
Inductive RunTrace : nat -> list FileItem -> list Event -> Prop :=
| RunTrace_nil k : RunTrace k [] []
| RunTrace_file k f rest evs1 evs2 :
    FileTrace env a0 k f evs1 ->
    RunTrace (S k) rest evs2 ->
    RunTrace k (f :: rest) (evs1 ++ evs2).

(** What one iteration does to the list of files. *)
Definition stepFiles (fs : list FileItem) (ix : nat * FileItem) : list FileItem :=
  mapById (file_id (snd ix)) (finish env a0 (fst ix) (snd ix)) fs.

Definition indexedFrom (k : nat) (todo : list FileItem) : list (nat * FileItem) :=
  imap (fun j f => (k + j, f)) todo.

Lemma indexedFrom_cons k f rest :
  indexedFrom k (f :: rest) = (k, f) :: indexedFrom (S k) rest.
Proof.
  unfold indexedFrom. rewrite imap_cons, Nat.add_0_r. f_equal.
  apply imap_ext. intros j x _. simpl. f_equal. lia.
Qed.

Lemma foldl_step {A B : Type} (f : A -> B -> A) a x l :
  foldl f a (x :: l) = foldl f (f a x) l.
Proof. reflexivity. Qed.

Lemma loop_spec todo k a :
  exists evs,
    RunTrace k todo evs /\
    log (foldl (processFile env a0) a (indexedFrom k todo)) = log a ++ evs /\
    files (foldl (processFile env a0) a (indexedFrom k todo)) =
      foldl stepFiles (files a) (indexedFrom k todo).
Proof.
  revert k a. induction todo as [|f rest IH]; intros k a.
  - exists []. split; [constructor|]. simpl. rewrite app_nil_r. auto.
  - rewrite indexedFrom_cons, !foldl_step.
    destruct (processFile_spec env a0 k f a) as (evs1 & Hf & Hl1 & Hf1).
    destruct (IH (S k) (processFile env a0 a (k, f))) as (evs2 & Hr & Hl2 & Hf2).
    exists (evs1 ++ evs2). split; [constructor; assumption|].
    split; [rewrite Hl2, Hl1, app_assoc; reflexivity|].
    rewrite Hf2, Hf1. reflexivity.
Qed.

Lemma finish_terminal i f g : terminal (finish env a0 i f g).
Proof.
  unfold finish, terminal. destruct (fileOutcome env a0 i f) as [e|[txt ft]];
    simpl; auto.
Qed.

Lemma finish_id i f g :
  file_id g = file_id f -> file_id (finish env a0 i f g) = file_id g.
Proof.
  unfold finish. destruct (fileOutcome env a0 i f) as [e|[txt ft]];
    simpl; auto.
Qed.

Lemma stepFiles_lookup fs ix m :
  stepFiles fs ix !! m =
  (fun g => if decide (file_id g = file_id (snd ix))
            then finish env a0 (fst ix) (snd ix) g else g) <$> fs !! m.
Proof. unfold stepFiles, mapById. apply list_lookup_fmap. Qed.

Lemma loop_length fs l : length (foldl stepFiles fs l) = length fs.
Proof.
  revert fs. induction l as [|ix l IH]; intros fs; [reflexivity|].
  rewrite foldl_step, IH. unfold stepFiles, mapById. apply length_fmap.
Qed.

(** Where the loop leaves each record: its identifier is kept; a record
    that no file of [todo] shares its identifier with is untouched; one
    that some file does is in a terminal state; one that exactly one file
    does, the file at position [n], is what that iteration makes of it. *)
Lemma loop_files todo k fs m g :
  fs !! m = Some g ->
  exists g',
    foldl stepFiles fs (indexedFrom k todo) !! m = Some g' /\
    file_id g' = file_id g /\
    (file_id g ∉ file_id <$> todo -> g' = g) /\
    (file_id g ∈ file_id <$> todo -> terminal g') /\
    (forall n f,
       todo !! n = Some f -> file_id f = file_id g ->
       (forall n' f', todo !! n' = Some f' -> file_id f' = file_id g -> n' = n) ->
       g' = finish env a0 (k + n) f g).
Proof.
  revert k fs g. induction todo as [|f rest IH]; intros k fs g Hg.
  - exists g. simpl. split; [exact Hg|]. split; [reflexivity|].
    split; [reflexivity|]. split.
    + intros H. apply elem_of_nil in H. contradiction.
    + intros n f0 H. rewrite lookup_nil in H. discriminate.
  - rewrite indexedFrom_cons, foldl_step.
    set (g1 := if decide (file_id g = file_id f)
               then finish env a0 k f g else g).
    assert (stepFiles fs (k, f) !! m = Some g1) as Hg1
      by (rewrite stepFiles_lookup, Hg; reflexivity).
    assert (file_id g1 = file_id g) as Hid1.
    { unfold g1. destruct (decide _) as [Heq|]; [|reflexivity].
      apply finish_id, Heq. }
    destruct (IH (S k) _ g1 Hg1) as (g' & Hl & Hid & Hout & Hin & Huniq).
    exists g'. split; [exact Hl|]. split; [congruence|].
    rewrite fmap_cons. split; [|split].
    + intros Hn. apply not_elem_of_cons in Hn as [Hne Hn].
      rewrite Hout by (rewrite Hid1; exact Hn).
      unfold g1. destruct (decide _); [contradiction|reflexivity].
    + intros Hi.
      destruct (decide (file_id g ∈ file_id <$> rest)) as [Hr|Hr].
      * apply Hin. rewrite Hid1. exact Hr.
      * rewrite Hout by (rewrite Hid1; exact Hr).
        apply elem_of_cons in Hi as [Heq|Hi]; [|contradiction].
        unfold g1. destruct (decide _); [|contradiction].
        apply finish_terminal.
    + intros [|n] f0 Hn Hf0 Hu; simpl in Hn.
      * injection Hn as ->. rewrite Nat.add_0_r.
        rewrite Hout.
        -- unfold g1. destruct (decide _); [reflexivity|congruence].
        -- rewrite Hid1. intros Hr.
           apply list_elem_of_fmap in Hr as (f1 & Hf1 & Hr).
           apply list_elem_of_lookup_1 in Hr as [n1 Hn1].
           specialize (Hu (S n1) f1 Hn1 (eq_sym Hf1)). discriminate.
      * assert (file_id g <> file_id f) as Hne.
        { intros Heq. specialize (Hu 0 f eq_refl (eq_sym Heq)). discriminate. }
        replace (k + S n) with (S k + n) by lia.
        assert (g1 = g) as Hg1g
          by (unfold g1; destruct (decide _); [contradiction|reflexivity]).
        rewrite <- Hg1g. apply Huniq; [exact Hn|congruence|].
        intros n' f' Hn' Hf'. rewrite Hid1 in Hf'.
        specialize (Hu (S n') f' Hn' Hf'). lia.
Qed.

End LoopFacts.

(** ** The handler *)

Lemma imap_pair_indexed (fs : list FileItem) : imap pair fs = indexedFrom 0 fs.
Proof. unfold indexedFrom. apply imap_ext. reflexivity. Qed.

Lemma processAll_spec env a0 :
  exists evs,
    RunTrace env a0 0 (files a0) evs /\
    log (processAll env a0) = log a0 ++ EvProgress (Fin 0) :: evs ++ [EvProgress (Fin 100)] /\
    files (processAll env a0) =
      foldl (stepFiles env a0) (files a0) (indexedFrom 0 (files a0)) /\
    progress (processAll env a0) = Fin 100.
Proof.
  unfold processAll. rewrite imap_pair_indexed.
  set (a1 := setProgress _ (Fin 0)).
  destruct (loop_spec env a0 (files a0) 0 a1) as (evs & Htr & Hl & Hf).
  exists evs. split; [exact Htr|]. simpl. rewrite Hl, Hf. simpl.
  split; [rewrite <- !app_assoc; reflexivity|]. split; reflexivity.
Qed.

Lemma handler_runs env a :
  files a <> [] -> sourceLang a <> targetLang a ->
  handleStartProcessing env a = processAll env a.
Proof.
  intros Hf Hl. unfold handleStartProcessing.
  destruct (decide (length (files a) = 0)) as [H0|_].
  - apply nil_length_inv in H0. contradiction.
  - destruct (decide (sourceLang a = targetLang a)); [contradiction|reflexivity].
Qed.

Lemma stripEntry_annotations p :
  annotations (text p) -> stripEntry p = setText [] p.
Proof.
  intros H. unfold stripEntry. rewrite (stripSDH_annotations _ H).
  destruct p as [c t tx h m]. simpl. destruct tx; reflexivity.
Qed.

(** ** Progress *)

(** The value handed to [setProgress] in the [finally] of line 143. *)
Definition reported (i completed total totalFiles : nat) : double :=
  fmin (globalProgress i completed total totalFiles) (Fin 99).

Definition nQ (n : nat) : Q := inject_Z (Z.of_nat n).

Lemma nQ_le n m : n <= m -> (nQ n <= nQ m)%Q.
Proof. intros H. unfold nQ. rewrite <- Zle_Qle. lia. Qed.

Lemma nQ_pos n : 0 < n -> (0 < nQ n)%Q.
Proof.
  intros H. unfold nQ. change 0%Q with (inject_Z 0). rewrite <- Zlt_Qlt. lia.
Qed.

Lemma nQ_S n : (nQ n + 1 == nQ (S n))%Q.
Proof.
  unfold nQ. change 1%Q with (inject_Z 1). rewrite <- inject_Z_plus.
  replace (Z.of_nat n + 1)%Z with (Z.of_nat (S n)) by lia. reflexivity.
Qed.

Lemma ofNat_nQ n : safe n -> ofNat n = Fin (nQ n).
Proof. apply ofNat_safe. Qed.

Lemma ofNat_mono n m : n <= m -> dle (ofNat n) (ofNat m).
Proof. intros H. apply rnd_mono, nQ_le, H. Qed.

Lemma ofNat_num n : num (ofNat n).
Proof. apply rnd_num. Qed.

Lemma safe_le n m : n <= m -> safe m -> safe n.
Proof. unfold safe. lia. Qed.

(** [completed / total] is at most 1. *)
Lemma ratio_le_1 c n :
  0 < n -> safe n -> c <= n -> dle (fdiv (ofNat c) (ofNat n)) (Fin 1).
Proof.
  intros Hn Hs Hc.
  rewrite (ofNat_nQ n Hs), (ofNat_nQ c (safe_le c n Hc Hs)).
  pose proof (nQ_pos n Hn) as Hq. pose proof (nQ_le c n Hc) as Hle.
  unfold fdiv, isZero.
  assert (Qeq_bool (nQ n) 0 = false) as ->.
  { destruct (Qeq_bool (nQ n) 0) eqn:H; [|reflexivity].
    apply Qeq_bool_iff in H. lra. }
  change (Fin 1) with (Fin (inject_Z 1)). rewrite <- (rnd_Z 1) by lia.
  apply rnd_mono.
  apply Qle_shift_div_r; [exact Hq|]. change (inject_Z 1) with 1%Q. lra.
Qed.

Lemma ratio_num c n : 0 < n -> safe n -> num (fdiv (ofNat c) (ofNat n)).
Proof.
  intros Hn Hs. rewrite (ofNat_nQ n Hs).
  apply fdiv_num; [apply nQ_pos, Hn|apply ofNat_num].
Qed.

(** [i + 1] is exact, and [i + x] is not below [i]. *)
Lemma fadd_one i : safe (S i) -> fadd (ofNat i) (Fin 1) = ofNat (S i).
Proof.
  intros Hs. rewrite (ofNat_nQ i) by (apply (safe_le i (S i)); [lia|exact Hs]).
  unfold fadd, ofNat. apply rnd_compat, nQ_S.
Qed.

Lemma fadd_ge i x : safe i -> num x -> dle (ofNat i) (fadd (ofNat i) x).
Proof.
  intros Hs Hx. pose proof (ofNat_nQ i Hs) as E. unfold num in Hx.
  destruct x as [b| |]; [|rewrite E; exact I|destruct Hx].
  rewrite E at 2. change (fadd (Fin (nQ i)) (Fin b)) with (rnd (nQ i + b)).
  apply rnd_mono. fold (nQ i). simpl in Hx. lra.
Qed.

Section Formula.
Variables n t : nat.
Hypothesis Hn : 0 < n.
Hypothesis Sn : safe n.
Hypothesis Ht : 0 < t.
Hypothesis St : safe t.

Lemma scale_mono x y :
  num x -> dle x y ->
  dle (fmul (fdiv x (ofNat t)) (Fin 100)) (fmul (fdiv y (ofNat t)) (Fin 100)).
Proof.
  intros Hx Hxy. rewrite (ofNat_nQ t St).
  apply fmul_mono; [reflexivity| |].
  - apply fdiv_num; [apply nQ_pos, Ht|exact Hx].
  - apply fdiv_mono; [apply nQ_pos, Ht|exact Hxy].
Qed.

Lemma globalProgress_num i c : num (globalProgress i c n t).
Proof.
  unfold globalProgress. rewrite (ofNat_nQ t St).
  apply fmul_num; [reflexivity|].
  apply fdiv_num; [apply nQ_pos, Ht|].
  apply fadd_num; [apply ofNat_num|apply ratio_num; assumption].
Qed.

Lemma globalProgress_mono i c1 c2 :
  c1 <= c2 -> dle (globalProgress i c1 n t) (globalProgress i c2 n t).
Proof.
  intros H. unfold globalProgress. apply scale_mono.
  - apply fadd_num; [apply ofNat_num|apply ratio_num; assumption].
  - apply fadd_mono; [apply dle_refl, ofNat_num|].
    rewrite (ofNat_nQ n Sn).
    apply fdiv_mono; [apply nQ_pos, Hn|apply ofNat_mono, H].
Qed.

Lemma globalProgress_next i i' c c' n' :
  0 < n' -> safe n' -> i < i' -> safe i' -> c <= n ->
  dle (globalProgress i c n t) (globalProgress i' c' n' t).
Proof.
  intros Hn' Sn' Hi Si' Hc. unfold globalProgress. apply scale_mono.
  - apply fadd_num; [apply ofNat_num|apply ratio_num; assumption].
  - apply dle_trans with (ofNat (S i)).
    + rewrite <- fadd_one by (apply (safe_le (S i) i'); [lia|exact Si']).
      apply fadd_mono; [apply dle_refl, ofNat_num|].
      apply ratio_le_1; assumption.
    + apply dle_trans with (ofNat i'); [apply ofNat_mono; lia|].
      apply fadd_ge; [exact Si'|apply ratio_num; assumption].
Qed.

Lemma reported_bounds i c :
  dle (Fin 0) (reported i c n t) /\ dle (reported i c n t) (Fin 99).
Proof.
  unfold reported. apply fmin_bounds; [discriminate|apply globalProgress_num].
Qed.

Lemma reported_mono i c1 c2 :
  c1 <= c2 -> dle (reported i c1 n t) (reported i c2 n t).
Proof.
  intros H. unfold reported. apply fmin_mono, globalProgress_mono, H.
Qed.

Lemma reported_next i i' c c' n' :
  0 < n' -> safe n' -> i < i' -> safe i' -> c <= n ->
  dle (reported i c n t) (reported i' c' n' t).
Proof.
  intros. unfold reported. apply fmin_mono, globalProgress_next; assumption.
Qed.

End Formula.

(** The values reported, in order. *)
Definition progressOf (e : Event) : option double :=
  match e with EvProgress v => Some v | _ => None end.

Definition progressValues (evs : list Event) : list double := omap progressOf evs.

(** The entries of the batches of file [fi] whose calls have settled. *)
Definition settledSize (fi : nat) (e : Event) : nat :=
  match e with
  | EvSettled f _ batch _ => if decide (f = fi) then length batch else 0
  | _ => 0
  end.

Definition completedIn (fi : nat) (evs : list Event) : nat :=
  sum_list_with (settledSize fi) evs.

(** The file of the call that settled last. *)
Fixpoint lastSettledFile (evs : list Event) : option nat :=
  match evs with
  | [] => None
  | e :: rest =>
      match lastSettledFile rest with
      | Some f => Some f
      | None => match e with EvSettled f _ _ _ => Some f | _ => None end
      end
  end.

Lemma completedIn_app fi evs1 evs2 :
  completedIn fi (evs1 ++ evs2) = completedIn fi evs1 + completedIn fi evs2.
Proof. apply sum_list_with_app. Qed.

Lemma lastSettledFile_app evs1 evs2 :
  lastSettledFile (evs1 ++ evs2) =
  match lastSettledFile evs2 with
  | Some f => Some f
  | None => lastSettledFile evs1
  end.
Proof.
  induction evs1 as [|e evs1 IH]; simpl.
  - destruct (lastSettledFile evs2); reflexivity.
  - rewrite IH. destruct (lastSettledFile evs2); reflexivity.
Qed.

Lemma progressValues_app evs1 evs2 :
  progressValues (evs1 ++ evs2) = progressValues evs1 ++ progressValues evs2.
Proof. apply omap_app. Qed.

Lemma progressValues_split evs v :
  v ∈ progressValues evs -> exists pre post, evs = pre ++ EvProgress v :: post.
Proof.
  unfold progressValues. rewrite list_elem_of_omap.
  intros (e & He & Hv). destruct e; try discriminate. injection Hv as ->.
  apply list_elem_of_split in He as (pre & post & ->). eauto.
Qed.

(** A trace in which every reported value is a monotone function of the
    entries complete so far reports non-decreasing values. *)
Lemma monotone_reports fi (G : nat -> double) evs c0 :
  (forall c1 c2, c1 <= c2 -> dle (G c1) (G c2)) ->
  (forall pre v post, evs = pre ++ EvProgress v :: post ->
     v = G (c0 + completedIn fi pre)) ->
  StronglySorted dle (progressValues evs) /\
  Forall (fun v => dle (G c0) v) (progressValues evs).
Proof.
  intros HG. revert c0. induction evs as [|e evs IH]; intros c0 H.
  - split; constructor.
  - destruct (IH (c0 + settledSize fi e)) as [Hs Hb].
    { intros pre v post ->. rewrite (H (e :: pre) v post eq_refl).
      f_equal. unfold completedIn. simpl. lia. }
    assert (Forall (fun v => dle (G c0) v) (progressValues evs)) as Hb0.
    { eapply Forall_impl; [exact Hb|]. simpl. intros v Hv.
      eapply dle_trans; [|exact Hv]. apply HG. lia. }
    destruct e; simpl; try (split; assumption).
    specialize (H [] v evs eq_refl). simpl in H.
    rewrite Nat.add_0_r in H. subst v.
    split; [constructor; assumption|].
    constructor; [apply HG; lia|exact Hb0].
Qed.

Section ProgressFacts.
Variable env : Env.
Variables src tgt prm : jsstring.
Variables i totalFiles total : nat.
Variable store : list ParsedSubtitle.

Local Abbreviation PipeTrace' := (PipeTrace env src tgt prm i totalFiles total store).
Local Abbreviation settleTrace' := (settleTrace i totalFiles total).
Local Abbreviation settleEvents' := (settleEvents i totalFiles total).

Lemma settleEvents_progress c p pre v post :
  settleEvents' c p = pre ++ EvProgress v :: post ->
  lastSettledFile pre = Some i /\
  completedIn i pre = length (entries p) /\
  v = reported i (c + length (entries p)) total totalFiles.
Proof.
  unfold settleEvents, completedIn.
  destruct (outcome p); simpl; intros H.
  - destruct pre as [|e1 pre]; [discriminate|].
    destruct pre as [|e2 pre]; [discriminate|].
    destruct pre as [|e3 pre].
    + injection H as <- <- <- _. simpl.
      destruct (decide (i = i)); [|contradiction]. split; [reflexivity|].
      split; [lia|reflexivity].
    + injection H as _ _ _ H. destruct pre; discriminate.
  - destruct pre as [|e1 pre]; [discriminate|].
    destruct pre as [|e2 pre].
    + injection H as <- <- _. simpl.
      destruct (decide (i = i)); [|contradiction]. split; [reflexivity|].
      split; [lia|reflexivity].
    + injection H as _ _ H. destruct pre; discriminate.
Qed.

Lemma settleEvents_completed c p :
  completedIn i (settleEvents' c p) = length (entries p).
Proof.
  unfold settleEvents, completedIn. destruct (outcome p); simpl;
    destruct (decide (i = i)); try contradiction; lia.
Qed.

Lemma settleTrace_completed c order :
  completedIn i (settleTrace' c order) =
  sum_list_with (fun p => length (entries p)) order.
Proof.
  revert c. induction order as [|p rest IH]; intros c; [reflexivity|].
  simpl. rewrite completedIn_app, settleEvents_completed, IH. reflexivity.
Qed.

Lemma settleTrace_progress c order pre v post :
  settleTrace' c order = pre ++ EvProgress v :: post ->
  lastSettledFile pre = Some i /\
  v = reported i (c + completedIn i pre) total totalFiles /\
  completedIn i pre <= sum_list_with (fun p => length (entries p)) order.
Proof.
  revert c pre. induction order as [|p rest IH]; intros c pre H; simpl in H.
  - destruct pre; discriminate.
  - destruct (app_eq_cons_cases _ _ _ _ _ H) as [(p1 & H1 & _)|(m & -> & H2)].
    + destruct (settleEvents_progress _ _ _ _ _ H1) as (Hl & Hc & ->).
      rewrite Hc. split; [exact Hl|]. split; [reflexivity|]. simpl. lia.
    + destruct (IH _ _ H2) as (Hl & -> & Hle).
      rewrite lastSettledFile_app, Hl, completedIn_app, settleEvents_completed.
      split; [reflexivity|]. split; [f_equal; lia|]. simpl. lia.
Qed.

Lemma dispatch_completed chunk :
  completedIn i (dispatchEvent i store <$> chunk) = 0.
Proof.
  unfold completedIn. induction chunk as [|b rest IH]; [reflexivity|].
  rewrite fmap_cons. simpl. exact IH.
Qed.

Lemma dispatch_no_progress chunk pre v post :
  dispatchEvent i store <$> chunk <> pre ++ EvProgress v :: post.
Proof.
  intros H.
  assert (EvProgress v ∈ dispatchEvent i store <$> chunk) as Hin
    by (rewrite H; apply elem_of_app; right; apply list_elem_of_here).
  apply list_elem_of_fmap in Hin as (b & Hb & _). discriminate.
Qed.

(** In the trace of a pipeline run every reported value is the formula of
    line 148, capped, at the number of entries whose batch has settled. *)
Lemma PipeTrace_progress c ws evs pre v post :
  PipeTrace' c ws evs ->
  evs = pre ++ EvProgress v :: post ->
  lastSettledFile pre = Some i /\
  v = reported i (c + completedIn i pre) total totalFiles /\
  completedIn i pre <= length (allRefs ws).
Proof.
  intros Htr. revert pre.
  induction Htr as [c|c chunk order ws rest Hperm _ IH]; intros pre H.
  - destruct pre; discriminate.
  - assert (sum_list_with (fun p => length (entries p)) order =
            length (refsOf chunk)) as Hsize
      by (rewrite (sizeOf_calls _ _ _ _ _ _ _ _ Hperm); apply sizeOf_length).
    assert (length (allRefs (chunk :: ws)) =
            length (refsOf chunk) + length (allRefs ws)) as Hall
      by (unfold allRefs; rewrite fmap_cons; simpl; apply length_app).
    destruct (app_eq_cons_cases _ _ _ _ _ H) as [(p1 & H1 & _)|(m & -> & H2)].
    + exfalso. exact (dispatch_no_progress _ _ _ _ H1).
    + rewrite lastSettledFile_app, completedIn_app, dispatch_completed.
      destruct (app_eq_cons_cases _ _ _ _ _ H2) as [(p2 & H3 & _)|(m2 & -> & H4)].
      * destruct (settleTrace_progress _ _ _ _ _ H3) as (Hl & -> & Hle).
        rewrite Hl. split; [reflexivity|]. split; [reflexivity|]. lia.
      * destruct (IH _ H4) as (Hl & -> & Hle).
        rewrite lastSettledFile_app, Hl, completedIn_app, settleTrace_completed.
        split; [reflexivity|]. rewrite Hsize, sizeOf_length.
        split; [f_equal; lia|lia].
Qed.

End ProgressFacts.

Section RunProgress.
Variable env : Env.
Variable a0 : App.

(** [validSubtitles.length] of file [fi]. *)
Definition translatableCount (fi : nat) : nat :=
  match files a0 !! fi with
  | Some f =>
      match readFileAsText env (file f) with
      | inr txt =>
          match parseSubtitles env txt with
          | inr fresh => length (validSubtitles (entriesBefore a0 fresh))
          | inl _ => 0
          end
      | inl _ => 0
      end
  | None => 0
  end.

Lemma tail_no_progress fi final (tail : list Event) pre v post :
  tail = [EvConsoleError] \/ tail = [] ->
  EvReconstruct fi final :: tail <> pre ++ EvProgress v :: post.
Proof.
  intros Ht H.
  assert (EvProgress v ∈ EvReconstruct fi final :: tail) as Hin
    by (rewrite H; apply elem_of_app; right; apply list_elem_of_here).
  apply elem_of_cons in Hin as [Hin|Hin]; [discriminate|].
  destruct Ht as [-> | ->].
  - apply elem_of_cons in Hin as [Hin|Hin]; [discriminate|].
    apply elem_of_nil in Hin. exact Hin.
  - apply elem_of_nil in Hin. exact Hin.
Qed.

Lemma FileTrace_progress k f evs pre v post :
  files a0 !! k = Some f ->
  FileTrace env a0 k f evs ->
  evs = pre ++ EvProgress v :: post ->
  lastSettledFile pre = Some k /\
  v = reported k (completedIn k pre) (translatableCount k) (length (files a0)) /\
  completedIn k pre <= translatableCount k /\
  0 < translatableCount k.
Proof.
  intros Hk Htr H. unfold translatableCount. rewrite Hk.
  unfold FileTrace in Htr.
  destruct (readFileAsText env (file f)) as [e|txt].
  { subst evs. destruct pre as [|? [|]]; discriminate. }
  destruct (parseSubtitles env txt) as [e|fresh].
  { subst evs. destruct pre as [|? [|]]; discriminate. }
  destruct Htr as (pevs & Hp & ->).
  destruct (app_eq_cons_cases _ _ _ _ _ H) as [(p1 & H1 & _)|(m & _ & H2)].
  - destruct (PipeTrace_progress _ _ _ _ _ _ _ _ _ _ _ _ _ _ Hp H1)
      as (Hl & Hv & Hle).
    rewrite allRefs_windowsOf in Hle. split; [exact Hl|].
    split; [exact Hv|]. split; [exact Hle|].
    destruct (validSubtitles (entriesBefore a0 fresh)) as [|j valid] eqn:Hnil;
      [|simpl; lia].
    exfalso. rewrite (windowsOf_nil _ Hnil) in Hp.
    inversion Hp; subst. destruct pre; discriminate.
  - exfalso. refine (tail_no_progress _ _ _ _ _ _ _ H2).
    destruct (reconstructSubtitles _ _ _); auto.
Qed.

Lemma FileTrace_other_files k f evs fi :
  FileTrace env a0 k f evs -> fi <> k ->
  completedIn fi evs = 0 /\
  (lastSettledFile evs = None \/ lastSettledFile evs = Some k).
Proof.
  intros Htr Hne. unfold FileTrace in Htr.
  destruct (readFileAsText env (file f)) as [e|txt]; [subst; simpl; auto|].
  destruct (parseSubtitles env txt) as [e|fresh]; [subst; simpl; auto|].
  destruct Htr as (pevs & Hp & ->).
  pose proof (PipeTrace_events _ _ _ _ _ _ _ _ _ _ _ Hp) as Hev.
  assert (completedIn fi pevs = 0 /\
          (lastSettledFile pevs = None \/ lastSettledFile pevs = Some k))
    as [Hc Hl].
  { clear Hp. induction Hev as [|e evs He _ [IHc IHl]]; [simpl; auto|].
    unfold completedIn in *. simpl. rewrite IHc. split.
    - destruct e; simpl; try reflexivity.
      destruct He as (-> & _). destruct (decide (k = fi)); [congruence|].
      reflexivity.
    - destruct IHl as [-> | ->]; [|auto].
      destruct e; auto. destruct He as (-> & _). auto. }
  rewrite completedIn_app, Hc, lastSettledFile_app. split.
  - unfold completedIn. simpl.
    destruct (reconstructSubtitles _ _ _); reflexivity.
  - assert (lastSettledFile
              (EvReconstruct k (entriesAfter env a0 k fresh) ::
               match reconstructSubtitles env (entriesAfter env a0 k fresh)
                       (name (file f)) with
               | inl _ => [EvConsoleError]
               | inr _ => []
               end) = None) as ->
      by (destruct (reconstructSubtitles _ _ _); reflexivity).
    exact Hl.
Qed.

(** In the trace of the loop every reported value is the capped formula of
    line 148 for the file whose call settled last, at the number of that
    file's entries whose batch has settled. *)
Lemma RunTrace_progress k todo evs :
  RunTrace env a0 k todo evs ->
  (forall j f, todo !! j = Some f -> files a0 !! (k + j) = Some f) ->
  forall pre v post,
    evs = pre ++ EvProgress v :: post ->
    exists fi,
      k <= fi < length (files a0) /\
      lastSettledFile pre = Some fi /\
      v = reported fi (completedIn fi pre) (translatableCount fi)
            (length (files a0)) /\
      completedIn fi pre <= translatableCount fi /\
      0 < translatableCount fi.
Proof.
  induction 1 as [k|k f rest evs1 evs2 Hf _ IH]; intros Hfiles pre v post H.
  - destruct pre; discriminate.
  - assert (files a0 !! k = Some f) as Hk
      by (rewrite <- (Nat.add_0_r k); apply Hfiles; reflexivity).
    destruct (app_eq_cons_cases _ _ _ _ _ H) as [(p1 & H1 & _)|(m & -> & H2)].
    + exists k. split; [split; [lia|apply (lookup_lt_Some _ _ _ Hk)]|].
      exact (FileTrace_progress _ _ _ _ _ _ Hk Hf H1).
    + destruct (IH ltac:(intros j g Hj; replace (S k + j) with (k + S j) by lia;
                         apply Hfiles; exact Hj) _ _ _ H2)
        as (fi & Hle & Hl & Hv & Hc).
      destruct (FileTrace_other_files _ _ _ fi Hf ltac:(lia)) as [H0 _].
      exists fi. split; [lia|].
      rewrite lastSettledFile_app, Hl, completedIn_app, H0. auto.
Qed.

(** Counts are Numbers: there are fewer than [2^53] files, and fewer than
    [2^53] translatable entries in each. *)
Hypothesis safe_files : safe (length (files a0)).
Hypothesis safe_entries : forall fi, safe (translatableCount fi).

Lemma RunTrace_bounds k todo evs :
  RunTrace env a0 k todo evs ->
  (forall j f, todo !! j = Some f -> files a0 !! (k + j) = Some f) ->
  Forall (fun v => dle (Fin 0) v /\ dle v (Fin 99)) (progressValues evs).
Proof.
  intros Htr Hfiles. apply Forall_forall. intros v Hv.
  apply progressValues_split in Hv as (pre & post & H).
  destruct (RunTrace_progress _ _ _ Htr Hfiles _ _ _ H)
    as (fi & Hfi & _ & -> & _ & Hpos).
  apply reported_bounds;
    [exact Hpos|apply safe_entries|lia|exact safe_files].
Qed.

Lemma RunTrace_sorted k todo evs :
  RunTrace env a0 k todo evs ->
  (forall j f, todo !! j = Some f -> files a0 !! (k + j) = Some f) ->
  StronglySorted dle (progressValues evs).
Proof.
  induction 1 as [k|k f rest evs1 evs2 Hf Hr IH]; intros Hfiles.
  - constructor.
  - assert (files a0 !! k = Some f) as Hk
      by (rewrite <- (Nat.add_0_r k); apply Hfiles; reflexivity).
    assert (0 < length (files a0)) as Hpos
      by (apply lookup_lt_Some in Hk; lia).
    assert (forall j g, rest !! j = Some g -> files a0 !! (S k + j) = Some g)
      as Hrest
      by (intros j g Hj; replace (S k + j) with (k + S j) by lia;
          apply Hfiles; exact Hj).
    rewrite progressValues_app. apply StronglySorted_app.
    split; [|split; [|exact (IH Hrest)]].
    + intros x1 x2 Hx1 Hx2.
      apply progressValues_split in Hx1 as (pre1 & post1 & H1).
      apply progressValues_split in Hx2 as (pre2 & post2 & H2).
      destruct (FileTrace_progress _ _ _ _ _ _ Hk Hf H1)
        as (_ & -> & Hc1 & Hp1).
      destruct (RunTrace_progress _ _ _ Hr Hrest _ _ _ H2)
        as (fi & Hle & _ & -> & _ & Hp2).
      apply reported_next;
        [exact Hp1|apply safe_entries|exact Hpos|exact safe_files|exact Hp2
        |apply safe_entries|lia
        |apply (safe_le fi (length (files a0))); [lia|exact safe_files]
        |exact Hc1].
    + destruct (list_eq_nil_dec (progressValues evs1)) as [->|Hne];
        [constructor|].
      assert (0 < translatableCount k) as Hp1.
      { destruct (progressValues evs1) as [|v vs] eqn:Hvs; [contradiction|].
        assert (v ∈ progressValues evs1) as Hv
          by (rewrite Hvs; apply list_elem_of_here).
        apply progressValues_split in Hv as (pre & post & H1).
        apply (FileTrace_progress _ _ _ _ _ _ Hk Hf H1). }
      apply (monotone_reports k
        (fun c => reported k c (translatableCount k) (length (files a0)))
        evs1 0).
      * intros c1 c2. apply reported_mono;
          [exact Hp1|apply safe_entries|exact Hpos|exact safe_files].
      * intros pre v post H1.
        destruct (FileTrace_progress _ _ _ _ _ _ Hk Hf H1) as (_ & -> & _).
        reflexivity.
Qed.

End RunProgress.

(** ** A small run, used to exercise the statements below *)

Module Demo.

Definition cue (n ts txt : string) : ParsedSubtitle :=
  mkParsedSubtitle (Some (str n)) (Some (str ts)) (str txt) None None.

Definition hello : ParsedSubtitle :=
  cue "1" "00:00:01,000 --> 00:00:02,000" "Hello".

Definition world : ParsedSubtitle :=
  cue "2" "00:00:03,000 --> 00:00:04,000" "[door slams] World".

Definition scriptInfo : ParsedSubtitle :=
  mkParsedSubtitle None None (str "[Script Info]") (Some true) None.

Definition sighs : ParsedSubtitle :=
  cue "3" "00:00:05,000 --> 00:00:06,000" "(sighs) [music]".

Definition doc : list ParsedSubtitle := [hello; world; scriptInfo; sighs].

Definition dict (t : jsstring) : jsstring :=
  if decide (t = str "Hello") then str "Salom"
  else if decide (t = str "World") then str "Dunyo"
  else [].

Definition join (es : list ParsedSubtitle) : jsstring :=
  mjoin ((fun e => text e ++ [10%N]) <$> es).

(** Every call answers; an unknown text comes back empty. *)
Definition envOk : Env :=
  mkEnv (fun _ => inr (str "doc")) (fun _ => inr doc)
    (fun es _ => inr (join es))
    (fun _ _ texts _ _ _ => inr (dict <$> texts))
    (fun _ _ _ => 0) (fun _ => str "0") (fun _ => str "now").

(** Every call is rejected. *)
Definition envFail : Env :=
  mkEnv (fun _ => inr (str "doc")) (fun _ => inr doc)
    (fun es _ => inr (join es))
    (fun _ _ _ _ _ _ => inl (mkExn (str "503")))
    (fun _ _ _ => 0) (fun _ => str "0") (fun _ => str "now").

(** The second file cannot be read. *)
Definition envRead : Env :=
  mkEnv (fun f => if decide (blob f = 1) then inl (mkExn (str "unreadable"))
                  else inr (str "doc"))
    (fun _ => inr doc) (fun es _ => inr (join es))
    (fun _ _ texts _ _ _ => inr (dict <$> texts))
    (fun _ _ _ => 0) (fun _ => str "0") (fun _ => str "now").

Definition item (n : string) (k : nat) : FileItem :=
  mkFileItem (str n) (mkFile (str n) k) Pending [] None None 0.

Definition app1 : App :=
  mkApp SETTINGS [item "a.srt" 0; item "b.srt" 1; item "c.srt" 2]
    (str "English") (str "Uzbek") [] true false (Fin 0) [] [] None [].

End Demo.

Example demo_batches :
  length <$> batchesOf (replicate 1234 Demo.hello) = replicate 12 100 ++ [34].
Proof. vm_compute. reflexivity. Qed.

Example demo_windows :
  length <$> windowsOf (replicate 1234 Demo.hello) = [5; 5; 3].
Proof. vm_compute. reflexivity. Qed.

(** The two scenarios of the specification: the sample translated with SDH
    stripping on, and the sample when every call is rejected. *)
Example demo_translated :
  text <$> entriesAfter Demo.envOk Demo.app1 0 Demo.doc =
  [str "Salom"; str "Dunyo"; []; []].
Proof. vm_compute. reflexivity. Qed.

Example demo_all_rejected :
  entriesAfter Demo.envFail Demo.app1 0 Demo.doc =
  entriesBefore Demo.app1 Demo.doc.
Proof. vm_compute. reflexivity. Qed.

(** The Numbers of the model against those of the machine: the progress
    after the first of three files and after 7 of 9 entries of the second
    of four, [0.1 + 0.2], an integer above [2^53] that is a tie, a division
    by zero and [0 / 0]. *)
Example number_first_of_three :
  toSpec (globalProgress 0 2 2 3) = Prim2SF ((0 + 2 / 2) / 3 * 100)%float.
Proof. vm_compute. reflexivity. Qed.

Example number_second_of_four :
  toSpec (globalProgress 1 7 9 4) = Prim2SF ((1 + 7 / 9) / 4 * 100)%float.
Proof. vm_compute. reflexivity. Qed.

Example number_tenths :
  toSpec (fadd (fdiv (Fin 1) (Fin 10)) (fdiv (Fin 2) (Fin 10))) =
  Prim2SF (1 / 10 + 2 / 10)%float.
Proof. vm_compute. reflexivity. Qed.

Example number_tie :
  toSpec (fadd (Fin 9007199254740992) (Fin 1)) =
  Prim2SF (9007199254740992 + 1)%float /\
  toSpec (fadd (Fin 9007199254740994) (Fin 1)) =
  Prim2SF (9007199254740994 + 1)%float.
Proof. vm_compute. split; reflexivity. Qed.

Example number_by_zero :
  toSpec (fdiv (Fin 1) (Fin 0)) = Prim2SF (1 / 0)%float /\
  toSpec (fdiv (Fin 0) (Fin 0)) = Prim2SF (0 / 0)%float /\
  fmin (fmul (fdiv (Fin 1) (Fin 0)) (Fin 100)) (Fin 99) = Fin 99.
Proof. vm_compute. repeat split; reflexivity. Qed.

(** * The claims *)

(** C2. An entry that is a header, is malformed, or has an empty or
    white-space-only text is in no batch that [translateBatch] is called
    for during the run (with or without SDH stripping); the texts of a
    call are the texts of the entries of its batch, none of them blank. *)
Theorem C2_exclusion env src tgt prm i totalFiles a sdh fresh j p evs :
  fresh !! j = Some p ->
  flag (isHeader p) = true \/ flag (isMalformed p) = true \/ trim (text p) = [] ->
  log (app (runPipeline env src tgt prm i totalFiles a (stripAll sdh fresh))) =
    log a ++ evs ->
  forall fi b refs texts,
    EvTranslate fi b refs texts ∈ evs ->
    (j ∉ refs) /\
    texts = textAt (stripAll sdh fresh) <$> refs /\
    Forall (fun t => trim t <> []) texts.
Proof.
  intros Hj Hex Hlog fi b refs texts Hcall.
  set (store := stripAll sdh fresh) in *.
  destruct (runPipeline_spec env src tgt prm i totalFiles a store)
    as (evs' & Ha & Htr & _).
  rewrite (pipeline_log _ _ _ _ _ _ _ _ _ Ha) in Hlog.
  apply app_inv_head in Hlog as ->.
  pose proof (PipeTrace_events _ _ _ _ _ _ _ _ _ _ _ Htr) as Hev.
  rewrite Forall_forall in Hev.
  specialize (Hev _ Hcall) as (_ & (chunk & Hc & Hbc) & ->).
  pose proof (window_in_batches _ _ _ _ Hc Hbc) as Hb.
  split; [|split; [reflexivity|]].
  - intros Hin. apply (batch_elem_valid _ _ _ _ Hb) in Hin.
    apply validSubtitles_elem in Hin as (q & Hq & Ht).
    unfold store in Hq. rewrite stripAll_lookup, Hj in Hq. injection Hq as <-.
    assert (excluded (if sdh then stripEntry p else p)) as Hx
      by (destruct sdh; [apply excluded_stripEntry|]; exact Hex).
    rewrite (excluded_translatable _ Hx) in Ht. discriminate.
  - apply Forall_fmap, Forall_forall. intros x Hx. simpl.
    apply list_elem_of_lookup_1 in Hx as [k Hk].
    destruct (batch_entry _ _ _ _ _ Hb Hk) as (sub & Hsub & Hts).
    unfold textAt. rewrite Hsub. simpl. apply translatable_text, Hts.
Qed.

Lemma C2_exclusion_witness :
  Demo.doc !! 2 = Some Demo.scriptInfo /\
  (flag (isHeader Demo.scriptInfo) = true \/
   flag (isMalformed Demo.scriptInfo) = true \/
   trim (text Demo.scriptInfo) = []) /\
  forall fi b refs texts,
    EvTranslate fi b refs texts ∈
      [EvTranslate 0 0 [0; 1] [str "Hello"; str "World"];
       EvSettled 0 0 [0; 1] true; EvProgress (fmin (globalProgress 0 2 2 1) (Fin 99))] ->
    (2 ∉ refs) /\
    texts = textAt (stripAll true Demo.doc) <$> refs /\
    Forall (fun t => trim t <> []) texts.
Proof.
  split; [reflexivity|]. split; [left; reflexivity|].
  apply (C2_exclusion Demo.envOk (str "English") (str "Uzbek") [] 0 1
           Demo.app1 true Demo.doc 2 Demo.scriptInfo).
  - reflexivity.
  - left. reflexivity.
  - vm_compute. reflexivity.
Defined.

(** C3. If [translateBatch] is rejected for a batch, the call had been
    given the texts of the batch's entries, every entry of the batch is
    after the run what it was before, the failure is logged and the run
    goes on: every batch is called for and settles, and the count of
    complete entries reaches the number of translatable entries.  No
    exception leaves the batch: the [try] block of the file ends with an
    exception only when reading, parsing or reconstructing throws. *)
Theorem C3_batch_fallback env src tgt prm i totalFiles a store b refs e :
  batchesOf store !! b = Some refs ->
  translateBatch env i b (textAt store <$> refs) src tgt prm = inl e ->
  exists evs,
    log (app (runPipeline env src tgt prm i totalFiles a store)) = log a ++ evs /\
    EvTranslate i b refs (textAt store <$> refs) ∈ evs /\
    EvSettled i b refs false ∈ evs /\
    (forall j, j ∈ refs ->
       parsed (runPipeline env src tgt prm i totalFiles a store) !! j =
       store !! j) /\
    (forall b' refs', batchesOf store !! b' = Some refs' ->
       EvTranslate i b' refs' (textAt store <$> refs') ∈ evs /\
       exists ok, EvSettled i b' refs' ok ∈ evs) /\
    completedSubtitlesCount (runPipeline env src tgt prm i totalFiles a store) =
      length (validSubtitles store) /\
    (forall a0 fileItem a1,
       snd (tryFile env a0 i fileItem a1) =
       match fileOutcome env a0 i fileItem with
       | inl e' => Some e'
       | inr _ => None
       end).
Proof.
  intros Hb He.
  destruct (runPipeline_spec env src tgt prm i totalFiles a store)
    as (evs & Ha & Htr & _ & _ & Hin & Hcnt).
  assert (forall b' refs', batchesOf store !! b' = Some refs' ->
    EvTranslate i b' refs' (textAt store <$> refs') ∈ evs /\
    exists ok, EvSettled i b' refs' ok ∈ evs) as Hall.
  { intros b' refs' Hb'.
    destruct (batch_in_window _ _ _ Hb') as (chunk & Hc & Hbc).
    exact (PipeTrace_complete _ _ _ _ _ _ _ _ _ _ _ _ _ _ Htr Hc Hbc). }
  exists evs. split; [apply pipeline_log, Ha|].
  destruct (Hall b refs Hb) as (Hcall & ok & Hok).
  split; [exact Hcall|].
  split; [|split; [|split; [exact Hall|split; [exact Hcnt|]]]];
    [| |intros a0 fileItem a1; apply tryFile_result].
  - pose proof (PipeTrace_events _ _ _ _ _ _ _ _ _ _ _ Htr) as Hev.
    rewrite Forall_forall in Hev. specialize (Hev _ Hok) as (_ & _ & Hval).
    unfold callOf in Hval. simpl in Hval. rewrite He in Hval.
    rewrite Hval in Hok. exact Hok.
  - intros j Hj. apply list_elem_of_lookup_1 in Hj as [k Hk].
    rewrite (Hin b refs k j Hb Hk). unfold outcomeOf. rewrite He. simpl.
    destruct (store !! j); reflexivity.
Qed.

Lemma C3_batch_fallback_witness :
  exists evs,
    log (app (runPipeline Demo.envFail (str "English") (str "Uzbek") [] 0 1
                Demo.app1 (stripAll true Demo.doc))) = log Demo.app1 ++ evs /\
    EvSettled 0 0 [0; 1] false ∈ evs /\
    (forall j, j ∈ [0; 1] ->
       parsed (runPipeline Demo.envFail (str "English") (str "Uzbek") [] 0 1
                 Demo.app1 (stripAll true Demo.doc)) !! j =
       stripAll true Demo.doc !! j).
Proof.
  destruct (C3_batch_fallback Demo.envFail (str "English") (str "Uzbek") []
              0 1 Demo.app1 (stripAll true Demo.doc) 0 [0; 1]
              (mkExn (str "503")))
    as (evs & H1 & _ & H3 & H4 & _).
  - vm_compute. reflexivity.
  - vm_compute. reflexivity.
  - exists evs. repeat split; assumption.
Defined.


(** C5. When [translateBatch] succeeds for a batch, the translated string
    at position [k] of the answer is assigned to the entry at position [k]
    of the batch, whatever the order in which the calls settle; where the
    answer has nothing or an empty string at [k], the entry keeps its
    text; the entry never ends with an empty text, and nothing but its
    text changes. *)
Theorem C5_positional_assignment env src tgt prm i totalFiles a store
    b refs tr k j :
  batchesOf store !! b = Some refs ->
  translateBatch env i b (textAt store <$> refs) src tgt prm = inr tr ->
  refs !! k = Some j ->
  exists sub sub',
    store !! j = Some sub /\
    parsed (runPipeline env src tgt prm i totalFiles a store) !! j = Some sub' /\
    (forall t : jsstring, tr !! k = Some t -> t <> [] -> text sub' = t) /\
    (tr !! k = None \/ tr !! k = Some [] -> text sub' = text sub) /\
    text sub' <> [] /\
    sub' = setText (text sub') sub.
Proof.
  intros Hb Htr Hk.
  destruct (batch_entry store b refs k j Hb Hk) as (sub & Hsub & Hts).
  destruct (runPipeline_spec env src tgt prm i totalFiles a store)
    as (evs & _ & _ & _ & _ & Hin & _).
  specialize (Hin b refs k j Hb Hk).
  unfold outcomeOf in Hin. rewrite Htr, Hsub in Hin. simpl in Hin.
  exists sub, (setText (orElse (tr !! k) (text sub)) sub).
  split; [exact Hsub|]. split; [exact Hin|]. cbn [text setText].
  pose proof (translatable_nonempty sub Hts) as Hne.
  split; [|split; [|split]].
  - intros t -> Ht. destruct t; [contradiction|reflexivity].
  - intros [->| ->]; reflexivity.
  - destruct (tr !! k) as [[|c t]|]; cbn [orElse truthy];
      [exact Hne|discriminate|exact Hne].
  - reflexivity.
Qed.

Lemma C5_positional_assignment_witness :
  batchesOf (stripAll true Demo.doc) !! 0 = Some [0; 1] /\
  exists sub sub',
    stripAll true Demo.doc !! 1 = Some sub /\
    parsed (runPipeline Demo.envOk (str "English") (str "Uzbek") [] 0 1
              Demo.app1 (stripAll true Demo.doc)) !! 1 = Some sub' /\
    (forall t : jsstring, [str "Salom"; str "Dunyo"] !! 1 = Some t ->
               t <> [] -> text sub' = t) /\
    ([str "Salom"; str "Dunyo"] !! 1 = None \/
     [str "Salom"; str "Dunyo"] !! 1 = Some [] -> text sub' = text sub) /\
    text sub' <> [] /\
    sub' = setText (text sub') sub.
Proof.
  split; [vm_compute; reflexivity|].
  apply (C5_positional_assignment Demo.envOk (str "English") (str "Uzbek") []
           0 1 Demo.app1 (stripAll true Demo.doc) 0 [0; 1]
           [str "Salom"; str "Dunyo"] 1 1);
    vm_compute; reflexivity.
Defined.

(** C6. During a run the values handed to [setProgress] are: first 0; then
    values between 0 and 99, each the capped formula
    [Math.min(((fileIndex + completed / totalTranslatable) / totalFiles) * 100, 99)]
    for the file whose call settled last and the entries of that file whose
    batch has settled, every operation being that of binary64 Numbers; last
    100, when every file is in a terminal state.  The whole sequence never
    decreases.  The numbers of files and of translatable entries are array
    lengths: they are below [2^32], and all that is used is that they are
    below [2^53]. *)
Theorem C6_progress env a :
  files a <> [] -> sourceLang a <> targetLang a ->
  safe (length (files a)) ->
  (forall fi, safe (translatableCount env a fi)) ->
  exists evs,
    log (handleStartProcessing env a) =
      log a ++ EvProgress (Fin 0) :: evs ++ [EvProgress (Fin 100)] /\
    progress (handleStartProcessing env a) = Fin 100 /\
    Forall (fun v => dle (Fin 0) v /\ dle v (Fin 99)) (progressValues evs) /\
    StronglySorted dle (Fin 0 :: progressValues evs ++ [Fin 100]) /\
    (forall pre v post,
       evs = pre ++ EvProgress v :: post ->
       exists fi,
         lastSettledFile pre = Some fi /\
         v = fmin
               (fmul
                  (fdiv
                     (fadd (ofNat fi)
                        (fdiv (ofNat (completedIn fi pre))
                           (ofNat (translatableCount env a fi))))
                     (ofNat (length (files a))))
                  (Fin 100))
               (Fin 99)) /\
    Forall terminal (files (handleStartProcessing env a)).
Proof.
  intros Hne Hlang Sf Se. rewrite (handler_runs env a Hne Hlang).
  destruct (processAll_spec env a) as (evs & Htr & Hlog & Hfiles & Hprog).
  assert (forall j f, files a !! j = Some f -> files a !! (0 + j) = Some f)
    as Hidx by (intros j f Hj; exact Hj).
  pose proof (RunTrace_progress env a 0 _ _ Htr Hidx) as Hform.
  pose proof (RunTrace_bounds env a Sf Se 0 _ _ Htr Hidx) as Hb.
  exists evs. split; [exact Hlog|]. split; [exact Hprog|].
  split; [exact Hb|]. split; [|split].
  - constructor.
    + apply StronglySorted_app. split; [|split].
      * intros x1 x2 Hx1 Hx2. apply list_elem_of_singleton in Hx2 as ->.
        rewrite Forall_forall in Hb. destruct (Hb _ Hx1) as [_ Hx].
        eapply dle_trans; [exact Hx|]. simpl. discriminate.
      * exact (RunTrace_sorted env a Sf Se 0 _ _ Htr Hidx).
      * repeat constructor.
    + apply Forall_app. split.
      * eapply Forall_impl; [exact Hb|]. simpl. tauto.
      * repeat constructor. simpl. discriminate.
  - intros pre v post H.
    destruct (Hform _ _ _ H) as (fi & _ & Hl & Hv & _).
    exists fi. split; [exact Hl|exact Hv].
  - rewrite Hfiles. apply Forall_lookup. intros m g' Hm.
    assert (m < length (files a)) as Hlt
      by (apply lookup_lt_Some in Hm; rewrite loop_length in Hm; exact Hm).
    destruct (lookup_lt_is_Some_2 _ _ Hlt) as [g Hg].
    destruct (loop_files env a (files a) 0 (files a) m g Hg)
      as (g'' & Hg'' & _ & _ & Hin & _).
    rewrite Hm in Hg''. injection Hg'' as <-.
    apply Hin. apply list_elem_of_fmap_2. eapply list_elem_of_lookup_2, Hg.
Qed.

Lemma C6_progress_witness :
  exists evs,
    log (handleStartProcessing Demo.envRead Demo.app1) =
      log Demo.app1 ++ EvProgress (Fin 0) :: evs ++ [EvProgress (Fin 100)] /\
    progressValues (EvProgress (Fin 0) :: evs ++ [EvProgress (Fin 100)]) =
      [Fin 0; Fin (2345624805922133 # 70368744177664); Fin 99; Fin 100] /\
    Forall (fun v => dle (Fin 0) v /\ dle v (Fin 99)) (progressValues evs) /\
    StronglySorted dle (Fin 0 :: progressValues evs ++ [Fin 100]) /\
    Forall terminal (files (handleStartProcessing Demo.envRead Demo.app1)).
Proof.
  destruct (C6_progress Demo.envRead Demo.app1)
    as (evs & H1 & _ & H3 & H4 & _ & H6).
  - discriminate.
  - vm_compute. discriminate.
  - reflexivity.
  - intros [|[|[|fi]]]; reflexivity.
  - exists evs. split; [exact H1|]. split; [|repeat split; assumption].
    change (log Demo.app1) with (@nil Event) in H1. rewrite app_nil_l in H1.
    rewrite <- H1. vm_compute. reflexivity.
Defined.

(** C7 (what the code does).  The stripping of lines 109-115 is guarded by
    the truthiness of the text alone: the header [[Script Info]] of the
    sample document loses its text when SDH stripping is on, while the
    filter of line 123 then leaves the entry out of every batch. *)
Theorem C7_header_text_is_stripped :
  Demo.doc !! 2 = Some Demo.scriptInfo /\
  isHeader Demo.scriptInfo = Some true /\
  text Demo.scriptInfo = str "[Script Info]" /\
  entriesBefore Demo.app1 Demo.doc !! 2 = Some (setText [] Demo.scriptInfo) /\
  entriesAfter Demo.envOk Demo.app1 0 Demo.doc !! 2 =
    Some (setText [] Demo.scriptInfo).
Proof. vm_compute. repeat split; reflexivity. Qed.

(** C8. If reading, parsing or reconstructing a file throws, the record of
    that file ends with status [Error], with the message of the exception
    in [error] and with the [translatedText] it had ([null] for a file not
    yet processed); the loop goes on: every file of the upload ends in a
    terminal state, each as its own steps decide.  File identifiers are
    unique. *)
Theorem C8_file_error env a i fileItem e :
  files a <> [] -> sourceLang a <> targetLang a ->
  NoDup (file_id <$> files a) ->
  files a !! i = Some fileItem ->
  (readFileAsText env (file fileItem) = inl e \/
   (exists txt,
      readFileAsText env (file fileItem) = inr txt /\
      parseSubtitles env txt = inl e) \/
   (exists txt fresh,
      readFileAsText env (file fileItem) = inr txt /\
      parseSubtitles env txt = inr fresh /\
      reconstructSubtitles env (entriesAfter env a i fresh)
        (name (file fileItem)) = inl e)) ->
  exists f',
    files (handleStartProcessing env a) !! i = Some f' /\
    status f' = Error /\
    error f' = Some (message e) /\
    translatedText f' = translatedText fileItem /\
    f' = asError e fileItem /\
    length (files (handleStartProcessing env a)) = length (files a) /\
    (forall j f, files a !! j = Some f ->
       exists g,
         files (handleStartProcessing env a) !! j = Some g /\
         terminal g /\
         match fileOutcome env a j f with
         | inl e' => g = asError e' f
         | inr (txt, finalText) => g = asDone txt finalText f
         end).
Proof.
  intros Hne Hlang Hnd Hi Hthrow.
  rewrite (handler_runs env a Hne Hlang).
  destruct (processAll_spec env a) as (evs & _ & _ & Hfiles & _).
  rewrite Hfiles.
  assert (forall j f, files a !! j = Some f ->
    foldl (stepFiles env a) (files a) (indexedFrom 0 (files a)) !! j =
    Some (finish env a j f f)) as Hall.
  { intros j f Hj.
    destruct (loop_files env a (files a) 0 (files a) j f Hj)
      as (g' & Hg' & _ & _ & _ & Huniq).
    rewrite Hg'. f_equal. apply (Huniq j f Hj eq_refl).
    intros n' f' Hn' Hid.
    apply (NoDup_lookup _ _ _ (file_id f) Hnd).
    - rewrite list_lookup_fmap, Hn'. simpl. congruence.
    - rewrite list_lookup_fmap, Hj. reflexivity. }
  assert (fileOutcome env a i fileItem = inl e) as Hout.
  { unfold fileOutcome.
    destruct Hthrow as [->|[(txt & -> & ->)|(txt & fresh & -> & -> & ->)]];
      reflexivity. }
  exists (asError e fileItem).
  split; [rewrite (Hall i fileItem Hi); unfold finish; rewrite Hout; reflexivity|].
  do 4 (split; [reflexivity|]). split.
  - apply loop_length.
  - intros j f Hj. exists (finish env a j f f).
    split; [apply Hall, Hj|]. split; [apply finish_terminal|].
    unfold finish. destruct (fileOutcome env a j f) as [e'|[txt ft]]; reflexivity.
Qed.

Lemma C8_file_error_witness :
  exists f',
    files (handleStartProcessing Demo.envRead Demo.app1) !! 1 = Some f' /\
    status f' = Error /\
    error f' = Some (str "unreadable") /\
    translatedText f' = None.
Proof.
  destruct (C8_file_error Demo.envRead Demo.app1 1 (Demo.item "b.srt" 1)
              (mkExn (str "unreadable")))
    as (f' & H1 & H2 & H3 & H4 & _).
  - discriminate.
  - vm_compute. discriminate.
  - apply (bool_decide_unpack _). vm_compute. reflexivity.
  - reflexivity.
  - left. reflexivity.
  - exists f'. repeat split; assumption.
Defined.

(** C9. With no file uploaded, or with the source language equal to the
    target language, the handler returns at once: files, progress, step,
    history and the stored history are what they were, no call of
    [translateBatch] is made, and the only thing that may happen is the
    alert of the second guard. *)
Theorem C9_guards env a :
  files a = [] \/ sourceLang a = targetLang a ->
  files (handleStartProcessing env a) = files a /\
  progress (handleStartProcessing env a) = progress a /\
  step (handleStartProcessing env a) = step a /\
  isProcessing (handleStartProcessing env a) = isProcessing a /\
  currentProcessingFile (handleStartProcessing env a) = currentProcessingFile a /\
  history (handleStartProcessing env a) = history a /\
  storedHistory (handleStartProcessing env a) = storedHistory a /\
  (log (handleStartProcessing env a) = log a \/
   log (handleStartProcessing env a) = log a ++ [EvAlert ALERT_SAME_LANG]) /\
  (files a = [] -> handleStartProcessing env a = a).
Proof.
  intros H. unfold handleStartProcessing.
  destruct (decide (length (files a) = 0)) as [H0|H0].
  - repeat split; auto.
  - destruct (decide (sourceLang a = targetLang a)) as [Hl|Hl].
    + simpl. repeat split; auto.
      intros Hnil. rewrite Hnil in H0. contradiction.
    + destruct H as [Hnil|Heq]; [|contradiction].
      rewrite Hnil in H0. contradiction.
Qed.

Lemma C9_guards_witness :
  (files (mkApp SETTINGS [Demo.item "a.srt" 0] (str "Uzbek") (str "Uzbek")
            [] false false (Fin 0) [] [] None []) = [] \/
   str "Uzbek" = str "Uzbek") /\
  log (handleStartProcessing Demo.envOk
         (mkApp SETTINGS [Demo.item "a.srt" 0] (str "Uzbek") (str "Uzbek")
            [] false false (Fin 0) [] [] None [])) = [EvAlert ALERT_SAME_LANG] /\
  files (handleStartProcessing Demo.envOk
           (mkApp SETTINGS [Demo.item "a.srt" 0] (str "Uzbek") (str "Uzbek")
              [] false false (Fin 0) [] [] None [])) = [Demo.item "a.srt" 0].
Proof.
  split; [right; reflexivity|].
  pose proof (C9_guards Demo.envOk
    (mkApp SETTINGS [Demo.item "a.srt" 0] (str "Uzbek") (str "Uzbek")
       [] false false (Fin 0) [] [] None []) (or_intror eq_refl)) as H.
  destruct H as (Hf & _ & _ & _ & _ & _ & _ & _ & _).
  split; [vm_compute; reflexivity|exact Hf].
Defined.

(** C10 (amended).  With SDH stripping on, every parsed entry goes through
    the stripping before the filter is computed, whatever its flags.  An
    entry whose text is made of white space and of annotations that the
    pattern of line 112 matches whole (an opening bracket or parenthesis, a
    body on one line without the closing character, and that closing
    character) has an empty text from then on: it is in no batch that
    [translateBatch] is called for, and it is handed to
    [reconstructSubtitles] with an empty text. *)
Theorem C10_annotation_only env a0 a i fileItem txt fresh j p :
  removeSDH a0 = true ->
  readFileAsText env (file fileItem) = inr txt ->
  parseSubtitles env txt = inr fresh ->
  fresh !! j = Some p ->
  annotations (text p) ->
  exists evs,
    log (processFile env a0 a (i, fileItem)) = log a ++ evs /\
    entriesBefore a0 fresh !! j = Some (setText [] p) /\
    (forall fi b refs texts, EvTranslate fi b refs texts ∈ evs -> j ∉ refs) /\
    (exists final, EvReconstruct i final ∈ evs) /\
    (forall fi final,
       EvReconstruct fi final ∈ evs -> final !! j = Some (setText [] p)).
Proof.
  intros Hsdh Hread Hparse Hj Hann.
  destruct (processFile_spec env a0 i fileItem a) as (evs & Htr & Hlog & _).
  unfold FileTrace in Htr. rewrite Hread, Hparse in Htr.
  destruct Htr as (pevs & Hp & ->).
  set (store := entriesBefore a0 fresh) in *.
  assert (store !! j = Some (setText [] p)) as Hstore.
  { unfold store, entriesBefore. rewrite Hsdh, stripAll_lookup, Hj. simpl.
    rewrite (stripEntry_annotations _ Hann). reflexivity. }
  assert (j ∉ validSubtitles store) as Hnv.
  { intros (q & Hq & Ht)%validSubtitles_elem.
    rewrite Hstore in Hq. injection Hq as <-.
    unfold translatable in Ht. simpl in Ht.
    rewrite andb_false_r in Ht. discriminate. }
  pose proof (PipeTrace_events _ _ _ _ _ _ _ _ _ _ _ Hp) as Hev.
  rewrite Forall_forall in Hev.
  exists (pevs ++ EvReconstruct i (entriesAfter env a0 i fresh) ::
          match reconstructSubtitles env (entriesAfter env a0 i fresh)
                  (name (file fileItem)) with
          | inl _ => [EvConsoleError]
          | inr _ => []
          end).
  split; [exact Hlog|]. split; [exact Hstore|]. split; [|split].
  - intros fi b refs texts Hin Hjr.
    apply elem_of_app in Hin as [Hin|Hin].
    + specialize (Hev _ Hin) as (_ & (chunk & Hc & Hbc) & _).
      apply Hnv. eapply batch_elem_valid; [|exact Hjr].
      eapply window_in_batches; eassumption.
    + apply elem_of_cons in Hin as [Hin|Hin]; [discriminate|].
      destruct (reconstructSubtitles _ _ _).
      * apply elem_of_cons in Hin as [Hin|Hin]; [discriminate|].
        apply elem_of_nil in Hin. exact Hin.
      * apply elem_of_nil in Hin. exact Hin.
  - exists (entriesAfter env a0 i fresh). apply elem_of_app. right.
    apply list_elem_of_here.
  - intros fi final Hin.
    apply elem_of_app in Hin as [Hin|Hin].
    + specialize (Hev _ Hin). contradiction.
    + assert (final = entriesAfter env a0 i fresh) as ->.
      { apply elem_of_cons in Hin as [Hin|Hin]; [congruence|].
        destruct (reconstructSubtitles _ _ _).
        - apply elem_of_cons in Hin as [Hin|Hin]; [discriminate|].
          apply elem_of_nil in Hin. contradiction.
        - apply elem_of_nil in Hin. contradiction. }
      unfold entriesAfter.
      destruct (runPipeline_spec env (sourceLang a0) (targetLang a0) (prompt a0)
                  i (length (files a0)) a0 (entriesBefore a0 fresh))
        as (_ & _ & _ & _ & Hout & _).
      rewrite (Hout j Hnv). exact Hstore.
Qed.

Lemma annotations_sighs : annotations (text Demo.sighs).
Proof.
  apply (ann_paren (str "sighs") (str " [music]")).
  { repeat (apply Forall_cons_2; [split; [discriminate|reflexivity]|]).
    apply Forall_nil_2. }
  apply ann_space; [reflexivity|].
  apply (ann_bracket (str "music") []).
  { repeat (apply Forall_cons_2; [split; [discriminate|reflexivity]|]).
    apply Forall_nil_2. }
  apply ann_nil.
Qed.

Lemma C10_annotation_only_witness :
  exists evs,
    log (processFile Demo.envOk Demo.app1 Demo.app1 (0, Demo.item "a.srt" 0)) =
      log Demo.app1 ++ evs /\
    entriesBefore Demo.app1 Demo.doc !! 3 = Some (setText [] Demo.sighs) /\
    (forall fi b refs texts, EvTranslate fi b refs texts ∈ evs -> 3 ∉ refs) /\
    (exists final, EvReconstruct 0 final ∈ evs) /\
    (forall fi final,
       EvReconstruct fi final ∈ evs -> final !! 3 = Some (setText [] Demo.sighs)).
Proof.
  apply (C10_annotation_only Demo.envOk Demo.app1 Demo.app1 0
           (Demo.item "a.srt" 0) (str "doc") Demo.doc 3 Demo.sighs);
    try reflexivity.
  exact annotations_sighs.
Defined.

(** The texts the claim speaks of, in its own words: white space, and spans
    that open with a bracket and end with a closing bracket, or open with a
    parenthesis and end with a closing parenthesis. *)
Inductive annotationOnly : jsstring -> Prop :=
| ao_nil : annotationOnly []
| ao_space c s :
    isWhiteSpace c = true -> annotationOnly s -> annotationOnly (c :: s)
| ao_bracket body s :
    annotationOnly s -> annotationOnly (LBRACKET :: body ++ RBRACKET :: s)
| ao_paren body s :
    annotationOnly s -> annotationOnly (LPAREN :: body ++ RPAREN :: s).

(** A sound cue on two lines, and a speaker cue with a nested one. *)
Definition twoLines : jsstring :=
  LBRACKET :: str "door" ++ 10%N :: str "slams" ++ [RBRACKET].

Definition nested : jsstring := str "(John (whispering))".

Definition cues : list ParsedSubtitle :=
  [Demo.hello;
   mkParsedSubtitle (Some (str "2")) (Some (str "00:00:03,000 --> 00:00:04,000"))
     twoLines None None;
   mkParsedSubtitle (Some (str "3")) (Some (str "00:00:05,000 --> 00:00:06,000"))
     nested None None].

Definition envCues : Env :=
  mkEnv (fun _ => inr (str "doc")) (fun _ => inr cues)
    (fun es _ => inr (Demo.join es))
    (fun _ _ texts _ _ _ => inr (Demo.dict <$> texts))
    (fun _ _ _ => 0) (fun _ => str "0") (fun _ => str "now").

(** C10 (as stated, refuted).  The two cues are made of an annotation
    only, yet with SDH stripping on the first keeps its text (the pattern
    does not match across a line terminator) and the second is left with
    [")"] (the lazy match ends at the first closing parenthesis): both are
    sent to [translateBatch] and reach [reconstructSubtitles] with a text
    that is not empty. *)
Lemma C10_annotation_not_emptied :
  annotationOnly twoLines /\ annotationOnly nested /\
  removeSDH Demo.app1 = true /\
  text <$> entriesBefore Demo.app1 cues = [str "Hello"; twoLines; str ")"] /\
  EvTranslate 0 0 [0; 1; 2] [str "Hello"; twoLines; str ")"] ∈
    log (processFile envCues Demo.app1 Demo.app1 (0, Demo.item "a.srt" 0)) /\
  text <$> entriesAfter envCues Demo.app1 0 cues =
    [str "Salom"; twoLines; str ")"].
Proof.
  split; [exact (ao_bracket (str "door" ++ 10%N :: str "slams") [] ao_nil)|].
  split; [exact (ao_paren (str "John (whispering)") [] ao_nil)|].
  split; [reflexivity|]. split; [vm_compute; reflexivity|].
  split; [|vm_compute; reflexivity].
  vm_compute. apply list_elem_of_here.
Qed.

(** * Further properties of the code *)

(** ** The SDH transform (line 112) *)

Lemma lazyUntil_skip close c r :
  c <> close -> isLineTerminator c = false ->
  lazyUntil close (c :: r) = lazyUntil close r.
Proof.
  intros Hc Hl. simpl. destruct (N.eqb_spec c close); [contradiction|].
  rewrite Hl. reflexivity.
Qed.

Lemma lazyUntil_stop close c r :
  c <> close -> isLineTerminator c = true -> lazyUntil close (c :: r) = None.
Proof.
  intros Hc Hl. simpl. destruct (N.eqb_spec c close); [contradiction|].
  rewrite Hl. reflexivity.
Qed.

Lemma matchSDH_terminator c r :
  isLineTerminator c = true -> matchSDH (c :: r) = None.
Proof.
  intros Hl. simpl.
  destruct (N.eqb_spec c LBRACKET) as [->|_]; [discriminate|].
  destruct (N.eqb_spec c LPAREN) as [->|_]; [discriminate|].
  reflexivity.
Qed.

Lemma lazyUntil_app close y r w :
  lazyUntil close y = Some r -> lazyUntil close (y ++ w) = Some (r ++ w).
Proof.
  revert r. induction y as [|c y IH]; intros r; simpl; [discriminate|].
  destruct (N.eqb c close); [intros [= ->]; reflexivity|].
  destruct (isLineTerminator c); [discriminate|]. apply IH.
Qed.

Lemma lazyUntil_closed close body post :
  Forall (fun c => isLineTerminator c = false) body ->
  lazyUntil close (body ++ close :: post) <> None.
Proof.
  induction 1 as [|c body Hc _ IH]; simpl.
  - rewrite N.eqb_refl. discriminate.
  - destruct (N.eqb c close); [discriminate|]. rewrite Hc. exact IH.
Qed.

(** Past a match for one closing bracket, a search for another one that
    failed before still fails. *)
Lemma lazyUntil_past close close' r rest :
  isLineTerminator close' = false ->
  lazyUntil close r = None -> lazyUntil close' r = Some rest ->
  lazyUntil close rest = None.
Proof.
  intros Hl'. induction r as [|d r IH]; simpl; [discriminate|].
  destruct (N.eqb_spec d close) as [->|Hd]; [discriminate|].
  destruct (N.eqb_spec d close') as [->|Hd'].
  - rewrite Hl'. intros H [= <-]. exact H.
  - destruct (isLineTerminator d); [discriminate|]. exact IH.
Qed.

Lemma matchSDH_inv c r rest :
  matchSDH (c :: r) = Some rest ->
  exists close, isLineTerminator close = false /\ c <> close /\
                isLineTerminator c = false /\ lazyUntil close r = Some rest.
Proof.
  simpl. destruct (N.eqb_spec c LBRACKET) as [->|_].
  - intros H. exists RBRACKET.
    refine (conj eq_refl (conj _ (conj eq_refl H))). intros [=].
  - destruct (N.eqb_spec c LPAREN) as [->|_]; [|discriminate].
    intros H. exists RPAREN.
    refine (conj eq_refl (conj _ (conj eq_refl H))). intros [=].
Qed.

Lemma lazyUntil_replaceSDH close s :
  lazyUntil close s = None -> lazyUntil close (replaceSDH s) = None.
Proof.
  remember (length s) as n eqn:Hn. revert s Hn.
  induction n as [n IH] using lt_wf_ind. intros [|c r] Hn H.
  - simp replaceSDH; try reflexivity.
  - rewrite replaceSDH_cons. simpl in Hn.
    assert (c <> close) as Hc
      by (intros ->; simpl in H; rewrite N.eqb_refl in H; discriminate).
    destruct (isLineTerminator c) eqn:Hl.
    + rewrite (matchSDH_terminator _ _ Hl). apply lazyUntil_stop; assumption.
    + rewrite (lazyUntil_skip _ _ _ Hc Hl) in H.
      destruct (matchSDH (c :: r)) as [rest|] eqn:Hm.
      * pose proof (matchSDH_length _ _ Hm) as Hlen. simpl in Hlen.
        apply (IH (length rest)); [lia|reflexivity|].
        apply matchSDH_inv in Hm as (close' & Hl' & _ & _ & Hm).
        exact (lazyUntil_past _ _ _ _ Hl' H Hm).
      * rewrite (lazyUntil_skip _ _ _ Hc Hl).
        apply (IH (length r)); [lia|reflexivity|exact H].
Qed.

(** No match of the pattern starts anywhere in [s]. *)
Fixpoint noMatch (s : jsstring) : Prop :=
  match s with
  | [] => True
  | c :: r => matchSDH (c :: r) = None /\ noMatch r
  end.

Lemma matchSDH_replaceSDH c r :
  matchSDH (c :: r) = None -> matchSDH (c :: replaceSDH r) = None.
Proof.
  simpl. destruct (N.eqb c LBRACKET); [apply lazyUntil_replaceSDH|].
  destruct (N.eqb c LPAREN); [apply lazyUntil_replaceSDH|]. reflexivity.
Qed.

Lemma noMatch_replaceSDH s : noMatch (replaceSDH s).
Proof.
  remember (length s) as n eqn:Hn. revert s Hn.
  induction n as [n IH] using lt_wf_ind. intros [|c r] Hn.
  - simp replaceSDH; try exact I.
  - rewrite replaceSDH_cons. simpl in Hn.
    destruct (matchSDH (c :: r)) as [rest|] eqn:Hm.
    + pose proof (matchSDH_length _ _ Hm) as Hlen. simpl in Hlen.
      apply (IH (length rest)); [lia|reflexivity].
    + split; [apply matchSDH_replaceSDH, Hm|].
      apply (IH (length r)); [lia|reflexivity].
Qed.

Lemma replaceSDH_noMatch s : noMatch s -> replaceSDH s = s.
Proof.
  induction s as [|c r IH]; [reflexivity|]. intros [Hm Hr].
  rewrite replaceSDH_cons, Hm, (IH Hr). reflexivity.
Qed.

Lemma noMatch_app_r pre s : noMatch (pre ++ s) -> noMatch s.
Proof. induction pre as [|c pre IH]; [auto|]. intros [_ H]. exact (IH H). Qed.

Lemma matchSDH_app_None c r w :
  matchSDH ((c :: r) ++ w) = None -> matchSDH (c :: r) = None.
Proof.
  simpl.
  assert (forall close, lazyUntil close (r ++ w) = None ->
                        lazyUntil close r = None) as H.
  { intros close Hn. destruct (lazyUntil close r) as [x|] eqn:Hx; [|reflexivity].
    rewrite (lazyUntil_app _ _ _ w Hx) in Hn. discriminate. }
  destruct (N.eqb c LBRACKET); [apply H|].
  destruct (N.eqb c LPAREN); [apply H|]. reflexivity.
Qed.

Lemma noMatch_app_l s w : noMatch (s ++ w) -> noMatch s.
Proof.
  induction s as [|c r IH]; [intros; exact I|]. intros [Hm Hr].
  split; [exact (matchSDH_app_None _ _ _ Hm)|exact (IH Hr)].
Qed.

(** ** [trim] *)

Lemma trimStart_suffix s : exists w, s = w ++ trimStart s.
Proof.
  induction s as [|c s [w IH]]; [exists []; reflexivity|]. simpl.
  destruct (isWhiteSpace c).
  - exists (c :: w). simpl. f_equal. exact IH.
  - exists []. reflexivity.
Qed.

Lemma trimEnd_prefix s : exists w, s = trimEnd s ++ w.
Proof.
  unfold trimEnd. destruct (trimStart_suffix (rev s)) as [w Hw].
  exists (rev w). rewrite <- rev_app_distr, <- Hw, rev_involutive. reflexivity.
Qed.

Lemma trimStart_fixed s :
  trimStart s = s <-> s = [] \/ exists c r, s = c :: r /\ isWhiteSpace c = false.
Proof.
  split.
  - destruct s as [|c r]; [auto|]. intros H. right. exists c, r.
    split; [reflexivity|]. exact (trimStart_head _ _ _ H).
  - intros [->|(c & r & -> & Hc)]; [reflexivity|]. simpl. rewrite Hc. reflexivity.
Qed.

Lemma trimStart_idem s : trimStart (trimStart s) = trimStart s.
Proof.
  apply trimStart_fixed. destruct (trimStart s) as [|c r] eqn:H; [auto|].
  right. exists c, r. split; [reflexivity|]. exact (trimStart_head _ _ _ H).
Qed.

Lemma trimStart_keeps_last z c :
  isWhiteSpace c = false -> exists z', trimStart (z ++ [c]) = z' ++ [c].
Proof.
  intros Hc. induction z as [|d z [z' IH]]; simpl.
  - rewrite Hc. exists []. reflexivity.
  - destruct (isWhiteSpace d); [exists z'; exact IH|].
    exists (d :: z). reflexivity.
Qed.

(** A trimmed text: empty, or with a first and a last code unit that are
    not white space. *)
Definition trimmed (t : jsstring) : Prop :=
  trimStart t = t /\ trimStart (rev t) = rev t.

Lemma trimmed_trim t : trimmed t -> trim t = t.
Proof.
  intros [H1 H2]. unfold trim, trimEnd. rewrite H1, H2. apply rev_involutive.
Qed.

Lemma trim_trimmed s : trimmed (trim s).
Proof.
  unfold trimmed, trim, trimEnd. rewrite rev_involutive. split.
  - destruct (trimStart s) as [|c x] eqn:Hx; [reflexivity|].
    apply trimStart_head in Hx. change (rev (c :: x)) with (rev x ++ [c]).
    destruct (trimStart_keeps_last (rev x) c Hx) as [z' Hz].
    rewrite Hz, rev_app_distr. simpl. rewrite Hx. reflexivity.
  - apply trimStart_idem.
Qed.

Lemma trim_idem s : trim (trim s) = trim s.
Proof. apply trimmed_trim, trim_trimmed. Qed.

Lemma noMatch_trim s : noMatch s -> noMatch (trim s).
Proof.
  intros H. unfold trim.
  destruct (trimStart_suffix s) as [w Hw]. rewrite Hw in H.
  apply noMatch_app_r in H.
  destruct (trimEnd_prefix (trimStart s)) as [w' Hw']. rewrite Hw' in H.
  exact (noMatch_app_l _ _ H).
Qed.

Lemma trimmed_last t r c : trimmed t -> t = r ++ [c] -> isWhiteSpace c = false.
Proof.
  intros [_ H] ->. rewrite rev_app_distr in H.
  change (rev [c] ++ rev r) with (c :: rev r) in H.
  exact (trimStart_head _ _ _ H).
Qed.

Lemma trimmed_first t c r : trimmed t -> t = c :: r -> isWhiteSpace c = false.
Proof. intros [H _] ->. exact (trimStart_head _ _ _ H). Qed.

Lemma lazyUntil_suffix close s r :
  lazyUntil close s = Some r -> exists w, s = w ++ r.
Proof.
  revert r. induction s as [|c s IH]; intros r; simpl; [discriminate|].
  destruct (N.eqb c close).
  - intros [= ->]. exists [c]. reflexivity.
  - destruct (isLineTerminator c); [discriminate|].
    intros H. destruct (IH _ H) as [w ->]. exists (c :: w). reflexivity.
Qed.

Lemma replaceSDH_sublist s : replaceSDH s `sublist_of` s.
Proof.
  remember (length s) as n eqn:Hn. revert s Hn.
  induction n as [n IH] using lt_wf_ind. intros [|c r] Hn.
  - simp replaceSDH; try reflexivity.
  - rewrite replaceSDH_cons. simpl in Hn.
    destruct (matchSDH (c :: r)) as [rest|] eqn:Hm.
    + pose proof (matchSDH_length _ _ Hm) as Hlen. simpl in Hlen.
      apply matchSDH_inv in Hm as (close & _ & _ & _ & Hm).
      destruct (lazyUntil_suffix _ _ _ Hm) as [w ->].
      apply sublist_cons, sublist_inserts_l.
      apply (IH (length rest)); [lia|reflexivity].
    + apply sublist_skip. apply (IH (length r)); [lia|reflexivity].
Qed.

Lemma trim_sublist s : trim s `sublist_of` s.
Proof.
  unfold trim. destruct (trimStart_suffix s) as [w Hw].
  destruct (trimEnd_prefix (trimStart s)) as [w' Hw'].
  rewrite Hw at 2. rewrite Hw' at 2.
  apply sublist_inserts_l, sublist_inserts_r. reflexivity.
Qed.

Lemma noMatch_plain s : LBRACKET ∉ s -> LPAREN ∉ s -> noMatch s.
Proof.
  induction s as [|c r IH]; [intros; exact I|].
  intros [H1 H1']%not_elem_of_cons [H2 H2']%not_elem_of_cons.
  split; [|exact (IH H1' H2')]. simpl.
  destruct (N.eqb_spec c LBRACKET); [congruence|].
  destruct (N.eqb_spec c LPAREN); [congruence|]. reflexivity.
Qed.

(** X1. Stripping is idempotent: a text that went through the SDH
    transform is left as it is by a second pass, and so is an entry. *)
Theorem stripSDH_idempotent :
  (forall s, stripSDH (stripSDH s) = stripSDH s) /\
  (forall p, stripEntry (stripEntry p) = stripEntry p).
Proof.
  assert (forall s, stripSDH (stripSDH s) = stripSDH s) as H.
  { intros s. unfold stripSDH.
    rewrite (replaceSDH_noMatch (trim (replaceSDH s)))
      by apply noMatch_trim, noMatch_replaceSDH.
    apply trim_idem. }
  split; [exact H|]. intros p. unfold stripEntry.
  destruct (truthy (text p)) eqn:Ht; [|rewrite Ht; reflexivity].
  cbn [text setText]. destruct (truthy (stripSDH (text p))); [|reflexivity].
  rewrite H. reflexivity.
Qed.

(** X2. After the transform no bracketed and no parenthesized span without
    a line terminator inside is left in the text. *)
Theorem stripSDH_leaves_no_annotation s pre body post :
  Forall (fun c => isLineTerminator c = false) body ->
  stripSDH s <> pre ++ LBRACKET :: body ++ RBRACKET :: post /\
  stripSDH s <> pre ++ LPAREN :: body ++ RPAREN :: post.
Proof.
  intros Hb.
  pose proof (noMatch_trim _ (noMatch_replaceSDH s)) as Hn.
  fold (stripSDH s) in Hn.
  split; intros Heq; rewrite Heq in Hn; apply noMatch_app_r in Hn as [Hm _];
    simpl in Hm; exact (lazyUntil_closed _ _ _ Hb Hm).
Qed.

Lemma stripSDH_leaves_no_annotation_witness :
  stripSDH (str "a [b (c] d) e") <> str "a " ++ LPAREN :: str "c] d" ++ RPAREN :: str " e".
Proof.
  apply (stripSDH_leaves_no_annotation (str "a [b (c] d) e") (str "a ")
           (str "c] d") (str " e")).
  repeat (apply Forall_cons_2; [reflexivity|]). apply Forall_nil_2.
Defined.

(** X3. The transformed text is trimmed: it neither starts nor ends with
    white space, so the [trim] of the filter of line 123 leaves it as it
    is. *)
Theorem stripSDH_trimmed s :
  trim (stripSDH s) = stripSDH s /\
  (forall c r, stripSDH s = c :: r -> isWhiteSpace c = false) /\
  (forall r c, stripSDH s = r ++ [c] -> isWhiteSpace c = false).
Proof.
  pose proof (trim_trimmed (replaceSDH s)) as H. fold (stripSDH s) in H.
  split; [apply trimmed_trim, H|]. split.
  - intros c r. apply trimmed_first, H.
  - intros r c. apply trimmed_last, H.
Qed.

(** X4. The transform only deletes: what is left is a subsequence of the
    text, in order; a text without an opening bracket or parenthesis is
    only trimmed. *)
Theorem stripSDH_only_deletes s :
  stripSDH s `sublist_of` s /\
  length (stripSDH s) <= length s /\
  (LBRACKET ∉ s -> LPAREN ∉ s -> stripSDH s = trim s).
Proof.
  assert (stripSDH s `sublist_of` s) as H.
  { unfold stripSDH. etransitivity; [apply trim_sublist|apply replaceSDH_sublist]. }
  split; [exact H|]. split; [apply sublist_length, H|].
  intros H1 H2. unfold stripSDH.
  rewrite (replaceSDH_noMatch s (noMatch_plain s H1 H2)). reflexivity.
Qed.

(** ** The word count (line 169) *)

(** The words of a text: its maximal runs of code units that are not white
    space. *)
Fixpoint wordRuns (inWord : bool) (s : jsstring) : nat :=
  match s with
  | [] => 0
  | c :: r =>
      if isWhiteSpace c then wordRuns false r
      else (if inWord then 0 else 1) + wordRuns true r
  end.

Definition words (s : jsstring) : nat := wordRuns false s.

Definition b2n (b : bool) : nat := if b then 1 else 0.

Fixpoint endClass (p : bool) (s : jsstring) : bool :=
  match s with
  | [] => p
  | c :: r => endClass (isWhiteSpace c) r
  end.

Lemma runs_balance p s :
  wsRuns p s + b2n p = wordRuns (negb p) s + b2n (endClass p s).
Proof.
  revert p. induction s as [|c r IH]; intros p; simpl; [lia|].
  destruct (isWhiteSpace c) eqn:Hc.
  - specialize (IH true). simpl in IH. destruct p; simpl in *; lia.
  - specialize (IH false). simpl in IH. destruct p; simpl in *; lia.
Qed.

Lemma endClass_last p s :
  endClass p s = match last s with Some c => isWhiteSpace c | None => p end.
Proof.
  revert p. induction s as [|c r IH]; intros p; [reflexivity|].
  simpl endClass. rewrite IH. destruct r as [|d r]; [reflexivity|].
  change (last (c :: d :: r)) with (last (d :: r)).
  destruct (last (d :: r)) eqn:E; [reflexivity|].
  apply last_None in E. discriminate.
Qed.

(** X5. [wordCount]: the empty text counts 1; otherwise the count is the
    number of words, plus one if the text starts with white space and plus
    one if it ends with white space.  For a text that starts and ends with
    a word it is the number of words. *)
Theorem wordCount_formula :
  splitWsLength [] = 1 /\
  (forall c r,
     splitWsLength (c :: r) =
     words (c :: r) + b2n (isWhiteSpace c) +
     match last (c :: r) with Some d => b2n (isWhiteSpace d) | None => 0 end) /\
  (forall s, 1 <= splitWsLength s).
Proof.
  split; [reflexivity|]. split; [|intros s; unfold splitWsLength; lia].
  intros c r. unfold splitWsLength, words.
  pose proof (runs_balance true (c :: r)) as H.
  rewrite endClass_last in H. simpl negb in H.
  destruct (last (c :: r)) as [d|] eqn:Hd.
  - simpl wsRuns in *. simpl b2n in H.
    destruct (isWhiteSpace c); simpl in *; lia.
  - apply last_None in Hd. discriminate.
Qed.

(** ** The pipeline of one file (lines 106-161) *)

Lemma setText_setText t t' p : setText t (setText t' p) = setText t p.
Proof. reflexivity. Qed.

Lemma setText_same p : setText (text p) p = p.
Proof. destruct p. reflexivity. Qed.

Lemma stripEntry_setText p : stripEntry p = setText (text (stripEntry p)) p.
Proof.
  unfold stripEntry. destruct (truthy (text p)); [reflexivity|].
  symmetry. apply setText_same.
Qed.

Lemma settled_setText o k sub : settled o k sub = setText (text (settled o k sub)) sub.
Proof.
  unfold settled. destruct o; [symmetry; apply setText_same|reflexivity].
Qed.

(** What [reconstructSubtitles] is handed, entry by entry. *)
Lemma entriesAfter_lookup env a0 i fresh j :
  entriesAfter env a0 i fresh !! j = entriesBefore a0 fresh !! j \/
  exists b refs k,
    batchesOf (entriesBefore a0 fresh) !! b = Some refs /\ refs !! k = Some j /\
    entriesAfter env a0 i fresh !! j =
    settled (outcomeOf env (sourceLang a0) (targetLang a0) (prompt a0) i
               (entriesBefore a0 fresh) b refs) k
      <$> entriesBefore a0 fresh !! j.
Proof.
  unfold entriesAfter.
  destruct (runPipeline_spec env (sourceLang a0) (targetLang a0) (prompt a0) i
              (length (files a0)) a0 (entriesBefore a0 fresh))
    as (_ & _ & _ & _ & Hout & Hin & _).
  destruct (decide (j ∈ validSubtitles (entriesBefore a0 fresh))) as [Hj|Hj].
  - right. destruct (valid_in_batch _ _ Hj) as (b & refs & k & Hb & Hk).
    exists b, refs, k. split; [exact Hb|]. split; [exact Hk|].
    apply (Hin _ _ _ _ Hb Hk).
  - left. apply Hout, Hj.
Qed.

(** X6. From [parseSubtitles] to [reconstructSubtitles] no entry is added,
    dropped or moved, and the identifier, the timestamp and the two flags
    of every entry are untouched: stripping and translation change texts
    only. *)
Theorem pipeline_keeps_structure env a0 i fresh :
  length (entriesAfter env a0 i fresh) = length fresh /\
  forall j p,
    fresh !! j = Some p ->
    exists q,
      entriesAfter env a0 i fresh !! j = Some q /\
      q = setText (text q) p.
Proof.
  split.
  - unfold entriesAfter.
    destruct (runPipeline_spec env (sourceLang a0) (targetLang a0) (prompt a0) i
                (length (files a0)) a0 (entriesBefore a0 fresh))
      as (_ & _ & _ & -> & _).
    unfold entriesBefore, stripAll. destruct (removeSDH a0);
      [apply length_fmap|reflexivity].
  - intros j p Hj.
    assert (exists q0, entriesBefore a0 fresh !! j = Some q0 /\
                       q0 = setText (text q0) p) as (q0 & Hq0 & Hs0).
    { unfold entriesBefore. rewrite stripAll_lookup, Hj. simpl.
      destruct (removeSDH a0); eexists; (split; [reflexivity|]);
        [apply stripEntry_setText|symmetry; apply setText_same]. }
    destruct (entriesAfter_lookup env a0 i fresh j)
      as [H|(b & refs & k & _ & _ & H)]; rewrite H, Hq0.
    + exists q0. split; [reflexivity|exact Hs0].
    + simpl. eexists. split; [reflexivity|].
      rewrite (settled_setText _ _ q0) at 1. rewrite Hs0 at 2.
      apply setText_setText.
Qed.

(** X7. An entry that the filter of line 123 leaves out (header, malformed
    or blank once stripped) is handed to [reconstructSubtitles] exactly as
    the stripping step left it. *)
Theorem untranslatable_untouched env a0 i fresh j q :
  entriesBefore a0 fresh !! j = Some q ->
  translatable q = false ->
  entriesAfter env a0 i fresh !! j = Some q.
Proof.
  intros Hq Ht.
  destruct (entriesAfter_lookup env a0 i fresh j)
    as [H|(b & refs & k & Hb & Hk & _)]; [rewrite H; exact Hq|].
  destruct (batch_entry _ _ _ _ _ Hb Hk) as (sub & Hsub & Hts).
  congruence.
Qed.

Lemma untranslatable_untouched_witness :
  entriesAfter Demo.envOk Demo.app1 0 Demo.doc !! 2 =
  Some (setText [] Demo.scriptInfo).
Proof.
  apply (untranslatable_untouched Demo.envOk Demo.app1 0 Demo.doc 2
           (setText [] Demo.scriptInfo)); reflexivity.
Defined.

(** X8. If every call of [translateBatch] made for a file is rejected, or
    answers with empty strings only, [reconstructSubtitles] is handed the
    entries exactly as they were before the first call.  Only the calls
    made count: one for each batch, with the texts of its entries. *)
Theorem nothing_translated env a0 i fresh :
  (forall b refs,
     batchesOf (entriesBefore a0 fresh) !! b = Some refs ->
     match translateBatch env i b (textAt (entriesBefore a0 fresh) <$> refs)
             (sourceLang a0) (targetLang a0) (prompt a0) with
     | inl _ => True
     | inr tr => Forall (fun t => t = []) tr
     end) ->
  entriesAfter env a0 i fresh = entriesBefore a0 fresh.
Proof.
  intros Hall. apply list_eq. intros j.
  destruct (entriesAfter_lookup env a0 i fresh j)
    as [H|(b & refs & k & Hb & _ & H)]; [exact H|].
  rewrite H. unfold outcomeOf.
  specialize (Hall b refs Hb).
  destruct (translateBatch _ _ _ _ _ _ _) as [e|tr];
    destruct (entriesBefore a0 fresh !! j) as [sub|]; try reflexivity.
  simpl. f_equal.
  assert (orElse (tr !! k) (text sub) = text sub) as ->; [|apply setText_same].
  destruct (tr !! k) as [t|] eqn:Hk; [|reflexivity].
  rewrite Forall_forall in Hall.
  rewrite (Hall t (list_elem_of_lookup_2 _ _ _ Hk)). reflexivity.
Qed.

(** The one call made for the sample document is rejected; any other call
    would be answered. *)
Definition envRejectsTheCall : Env :=
  mkEnv (fun _ => inr (str "doc")) (fun _ => inr Demo.doc)
    (fun es _ => inr (Demo.join es))
    (fun _ b texts _ _ _ =>
       if decide (b = 0 /\ texts = [str "Hello"; str "World"])
       then inl (mkExn (str "503"))
       else inr (Demo.dict <$> texts))
    (fun _ _ _ => 0) (fun _ => str "0") (fun _ => str "now").

Lemma nothing_translated_witness :
  translateBatch envRejectsTheCall 0 1 [str "Hello"] (str "English")
    (str "Uzbek") [] = inr [str "Salom"] /\
  entriesAfter envRejectsTheCall Demo.app1 0 Demo.doc =
  entriesBefore Demo.app1 Demo.doc.
Proof.
  split; [reflexivity|].
  apply (nothing_translated envRejectsTheCall Demo.app1 0 Demo.doc).
  intros [|b] refs Hb.
  - injection Hb as <-. exact I.
  - discriminate.
Defined.

Lemma slices_length {A : Type} size (arr : list A) :
  0 < size ->
  length (slices size arr 0) = (length arr + (size - 1)) / size.
Proof.
  intros Hs.
  enough (forall j, length (slices size arr j) =
                    (length arr - j + (size - 1)) / size) as H
    by (rewrite H, Nat.sub_0_r; reflexivity).
  apply (slices_loop_ind size arr
    (fun j l => length l = (length arr - j + (size - 1)) / size) Hs).
  - intros j Hj. replace (length arr - j) with 0 by lia. simpl.
    symmetry. apply Nat.div_small. lia.
  - intros j Hj IH. simpl. rewrite IH.
    destruct (le_lt_dec size (length arr - j)) as [Hle|Hlt].
    + replace (length arr - j + (size - 1))
        with (length arr - (j + size) + (size - 1) + 1 * size) by lia.
      rewrite Nat.div_add by lia. lia.
    + replace (length arr - (j + size)) with 0 by lia. simpl.
      rewrite (Nat.div_small (size - 1) size) by lia.
      assert ((length arr - j + (size - 1)) / size = 1) as ->; [|reflexivity].
      symmetry. apply (Nat.div_unique _ _ _ (length arr - j - 1)); lia.
Qed.

(** X9. The number of [translateBatch] calls made for a file is the number
    of translatable entries divided by 100, rounded up; each of them
    settles. *)
Theorem calls_per_file env src tgt prm i totalFiles a store :
  exists evs,
    log (app (runPipeline env src tgt prm i totalFiles a store)) = log a ++ evs /\
    countIf isTranslate evs =
      (length (validSubtitles store) + (BATCH_SIZE - 1)) / BATCH_SIZE /\
    countIf isSettled evs = countIf isTranslate evs.
Proof.
  destruct (runPipeline_spec env src tgt prm i totalFiles a store)
    as (evs & Ha & Htr & _).
  exists evs. split; [apply pipeline_log, Ha|]. split.
  - unfold countIf. rewrite (PipeTrace_calls _ _ _ _ _ _ _ _ _ _ _ Htr).
    rewrite windowsOf_join, length_fmap, length_imap.
    apply slices_length, BATCH_SIZE_pos.
  - symmetry.
    apply (PipeTrace_in_flight _ _ _ _ _ _ _ _ (length (validSubtitles store))
             _ _ _ Htr).
    apply Forall_forall. intros chunk Hc.
    transitivity (length (mjoin (windowsOf store))).
    + clear -Hc. induction (windowsOf store) as [|c0 ws IH].
      * apply elem_of_nil in Hc. contradiction.
      * simpl. rewrite length_app.
        apply elem_of_cons in Hc as [->|Hc]; [lia|]. specialize (IH Hc). lia.
    + rewrite windowsOf_join, length_imap.
      rewrite <- (batchesOf_join store).
      pose proof (slices_sizes BATCH_SIZE (validSubtitles store) 0 BATCH_SIZE_pos)
        as Hsz. fold (batchesOf store) in Hsz.
      induction Hsz as [|b bs Hb _ IH]; [reflexivity|].
      simpl. rewrite length_app. lia.
Qed.

(** X10. A file without a translatable entry: no call is made, nothing is
    reported as progress (the division of line 146 is not reached), and
    the entries are left as they are. *)
Theorem no_translatable_entry env src tgt prm i totalFiles a store :
  validSubtitles store = [] ->
  runPipeline env src tgt prm i totalFiles a store = mkRun a store 0.
Proof.
  intros H. unfold runPipeline. rewrite H.
  rewrite (slices_done BATCH_SIZE (@nil nat) 0) by (simpl; lia).
  rewrite (slices_done CONCURRENT_LIMIT _ 0) by (simpl; lia).
  reflexivity.
Qed.

Lemma no_translatable_entry_witness :
  runPipeline Demo.envOk [] [] [] 0 1 Demo.app1 [setText [] Demo.scriptInfo] =
  mkRun Demo.app1 [setText [] Demo.scriptInfo] 0.
Proof.
  apply (no_translatable_entry Demo.envOk [] [] [] 0 1 Demo.app1
           [setText [] Demo.scriptInfo]).
  reflexivity.
Defined.

(** ** The value shown when the calls of a file have all settled *)

Lemma settleTrace_last i totalFiles total c order :
  order <> [] ->
  exists pre,
    settleTrace i totalFiles total c order =
    pre ++ [EvProgress
              (reported i (c + sum_list_with (fun p => length (entries p)) order)
                 total totalFiles)].
Proof.
  revert c. induction order as [|p rest IH]; intros c Hne; [contradiction|].
  simpl. destruct rest as [|q rest].
  - simpl. rewrite app_nil_r, Nat.add_0_r. unfold settleEvents.
    eexists. reflexivity.
  - destruct (IH (c + length (entries p))) as (pre & Hpre); [discriminate|].
    rewrite Hpre. exists (settleEvents i totalFiles total c p ++ pre).
    rewrite <- app_assoc. do 5 f_equal. simpl. lia.
Qed.

Lemma PipeTrace_last env src tgt prm i totalFiles total store c ws evs :
  PipeTrace env src tgt prm i totalFiles total store c ws evs ->
  Forall (fun chunk => chunk <> []) ws ->
  ws <> [] ->
  exists pre,
    evs = pre ++ [EvProgress
                    (reported i (c + length (allRefs ws)) total totalFiles)].
Proof.
  induction 1 as [c|c chunk order ws rest Hperm Htr IH]; intros Hne Hws;
    [contradiction|].
  apply Forall_cons_1 in Hne as [Hc Hne].
  assert (length (allRefs (chunk :: ws)) = sizeOf chunk + length (allRefs ws))
    as Hall.
  { unfold allRefs. rewrite fmap_cons. simpl.
    rewrite length_app, sizeOf_length. reflexivity. }
  destruct ws as [|chunk' ws].
  - inversion Htr; subst. rewrite app_nil_r.
    assert (order <> []) as Ho.
    { intros ->. apply Permutation_nil_l in Hperm.
      destruct chunk; [contradiction|discriminate]. }
    destruct (settleTrace_last i totalFiles total c order Ho) as (pre & ->).
    rewrite (sizeOf_calls _ _ _ _ _ _ _ _ Hperm), Hall.
    unfold allRefs. simpl. rewrite Nat.add_0_r.
    exists ((dispatchEvent i store <$> chunk) ++ pre).
    rewrite <- app_assoc. reflexivity.
  - destruct (IH Hne) as (pre & ->); [discriminate|].
    exists ((dispatchEvent i store <$> chunk) ++
            settleTrace i totalFiles total c order ++ pre).
    rewrite <- !app_assoc, Hall. do 6 f_equal. lia.
Qed.

Lemma record_last a evs v :
  progress (foldl record a (evs ++ [EvProgress v])) = v.
Proof. rewrite record_app. reflexivity. Qed.

Lemma fdiv_self n : 0 < n -> safe n -> fdiv (ofNat n) (ofNat n) = Fin 1.
Proof.
  intros Hn Hs. rewrite (ofNat_nQ n Hs).
  pose proof (nQ_pos n Hn) as Hq. unfold fdiv, isZero.
  assert (Qeq_bool (nQ n) 0 = false) as ->.
  { destruct (Qeq_bool (nQ n) 0) eqn:H; [|reflexivity].
    apply Qeq_bool_iff in H. lra. }
  change (Fin 1) with (Fin (inject_Z 1)). rewrite <- (rnd_Z 1) by lia.
  apply rnd_compat. apply Qmult_inv_r. lra.
Qed.

Lemma full_file_progress i n t :
  0 < n -> safe n ->
  globalProgress i n n t =
  fmul (fdiv (fadd (ofNat i) (Fin 1)) (ofNat t)) (Fin 100).
Proof.
  intros Hn Hs. unfold globalProgress. rewrite (fdiv_self n Hn Hs). reflexivity.
Qed.

(** X11. When the calls of a file with a translatable entry have all
    settled, the progress shown is
    [Math.min(((i + 1) / totalFiles) * 100, 99)] in binary64 Numbers: the
    share of the files dealt with so far, capped.  For the last file (and
    so for a single file) it is 99, whatever was translated; it would be
    99 as well with no file at all, the quotient being [Infinity]. *)
Theorem progress_when_file_settled env src tgt prm i totalFiles a store :
  validSubtitles store <> [] ->
  safe (length (validSubtitles store)) ->
  let v := progress (app (runPipeline env src tgt prm i totalFiles a store)) in
  v = fmin (fmul (fdiv (fadd (ofNat i) (Fin 1)) (ofNat totalFiles)) (Fin 100))
        (Fin 99) /\
  (S i = totalFiles -> safe totalFiles -> v = Fin 99) /\
  (totalFiles = 0 -> safe (S i) -> v = Fin 99).
Proof.
  intros Hne Hs v.
  assert (0 < length (validSubtitles store)) as Hn
    by (destruct (validSubtitles store); [contradiction|simpl; lia]).
  destruct (runPipeline_spec env src tgt prm i totalFiles a store)
    as (evs & Ha & Htr & _).
  destruct (PipeTrace_last _ _ _ _ _ _ _ _ _ _ _ Htr) as (pre & Hpre).
  { eapply Forall_impl; [apply slices_sizes, CONCURRENT_LIMIT_pos|].
    simpl. intros chunk [Hc _] ->. simpl in Hc. lia. }
  { intros Hw. pose proof (allRefs_windowsOf store) as Hr.
    rewrite Hw in Hr. unfold allRefs in Hr. simpl in Hr. congruence. }
  assert (v = fmin (fmul (fdiv (fadd (ofNat i) (Fin 1)) (ofNat totalFiles))
                      (Fin 100)) (Fin 99)) as Hv.
  { unfold v. rewrite Ha, Hpre. rewrite record_last, allRefs_windowsOf.
    unfold reported. rewrite Nat.add_0_l.
    rewrite (full_file_progress i _ totalFiles Hn Hs). reflexivity. }
  split; [exact Hv|]. split.
  - intros <- St. rewrite Hv, (fadd_one i St).
    rewrite (fdiv_self (S i)) by (exact St || lia).
    reflexivity.
  - intros -> Si. rewrite Hv, (fadd_one i Si), (ofNat_nQ (S i) Si).
    change (ofNat 0) with (rnd (inject_Z 0)). rewrite (rnd_Z 0) by lia.
    unfold fdiv, isZero.
    assert (Qeq_bool (nQ (S i)) 0 = false) as ->.
    { destruct (Qeq_bool (nQ (S i)) 0) eqn:H; [|reflexivity].
      apply Qeq_bool_iff in H. pose proof (nQ_pos (S i) ltac:(lia)). lra. }
    reflexivity.
Qed.

Lemma progress_when_file_settled_witness :
  progress (app (runPipeline Demo.envOk (str "English") (str "Uzbek") [] 2 3
                   Demo.app1 (stripAll true Demo.doc))) = Fin 99.
Proof.
  destruct (progress_when_file_settled Demo.envOk (str "English")
              (str "Uzbek") [] 2 3 Demo.app1 (stripAll true Demo.doc))
    as (_ & H & _).
  - vm_compute. discriminate.
  - reflexivity.
  - apply H; reflexivity.
Defined.

(** ** What a run leaves in the component state *)

Lemma record_options a evs :
  sourceLang (foldl record a evs) = sourceLang a /\
  targetLang (foldl record a evs) = targetLang a /\
  prompt (foldl record a evs) = prompt a /\
  removeSDH (foldl record a evs) = removeSDH a.
Proof.
  revert a. induction evs as [|e evs IH]; intros a; simpl; [auto|].
  destruct (IH (record a e)) as (-> & -> & -> & ->). destruct e; auto.
Qed.

(** The item that [addToHistory] builds for file [i]. *)
Definition historyItem (env : Env) (a0 : App) (i : nat) (f : FileItem)
  : TranslationHistoryItem :=
  mkHistoryItem (dateNow env i) (name (file f)) (sourceLang a0)
    (targetLang a0) (dateLocale env i).

(** The part of the state that the loop neither reads nor reports in the
    trace. *)
Record Frame : Type := mkFrame {
  fr_step : AppStep;
  fr_isProcessing : bool;
  fr_sourceLang : jsstring;
  fr_targetLang : jsstring;
  fr_prompt : jsstring;
  fr_removeSDH : bool
}.

Definition frameOf (a : App) : Frame :=
  mkFrame (step a) (isProcessing a) (sourceLang a) (targetLang a) (prompt a)
    (removeSDH a).

Lemma record_frame a evs : frameOf (foldl record a evs) = frameOf a.
Proof.
  unfold frameOf.
  destruct (record_options a evs) as (-> & -> & -> & ->).
  destruct (record_settings a evs) as (-> & -> & _). reflexivity.
Qed.

Lemma processFile_state env a0 i f a :
  frameOf (processFile env a0 a (i, f)) = frameOf a /\
  currentProcessingFile (processFile env a0 a (i, f)) = name (file f) /\
  match fileOutcome env a0 i f with
  | inl _ =>
      history (processFile env a0 a (i, f)) = history a /\
      storedHistory (processFile env a0 a (i, f)) = storedHistory a
  | inr _ =>
      history (processFile env a0 a (i, f)) =
        take 20 (historyItem env a0 i f :: history a0) /\
      storedHistory (processFile env a0 a (i, f)) =
        Some (take 20 (historyItem env a0 i f :: history a0))
  end.
Proof.
  unfold processFile, tryFile, fileOutcome.
  destruct (readFileAsText env (file f)) as [e|txt]; [simpl; auto|].
  destruct (parseSubtitles env txt) as [e|fresh]; [simpl; auto|].
  fold (entriesBefore a0 fresh).
  set (a2 := setFiles _ _).
  destruct (runPipeline_spec env (sourceLang a0) (targetLang a0) (prompt a0) i
              (length (files a0)) a2 (entriesBefore a0 fresh))
    as (pevs & Ha & _).
  assert (parsed (runPipeline env (sourceLang a0) (targetLang a0) (prompt a0) i
                    (length (files a0)) a2 (entriesBefore a0 fresh)) =
          entriesAfter env a0 i fresh) as Hp
    by apply runPipeline_parsed_indep.
  rewrite Hp, Ha.
  pose proof (record_frame a2 pevs) as Hfr.
  destruct (record_settings a2 pevs) as (_ & _ & Hcur).
  destruct (record_history a2 pevs) as (Hh & Hs).
  unfold frameOf in *.
  destruct (reconstructSubtitles env (entriesAfter env a0 i fresh)
              (name (file f))) as [e|finalText]; cbn.
  - rewrite Hcur, Hh, Hs. injection Hfr as -> -> -> -> -> ->. auto.
  - rewrite Hcur. injection Hfr as -> -> -> -> -> ->. auto.
Qed.

(** The file whose [try] block is the last to reach [addToHistory]. *)
Fixpoint lastDone (env : Env) (a0 : App) (k : nat) (todo : list FileItem)
  : option (nat * FileItem) :=
  match todo with
  | [] => None
  | f :: rest =>
      match lastDone env a0 (S k) rest with
      | Some x => Some x
      | None =>
          match fileOutcome env a0 k f with
          | inr _ => Some (k, f)
          | inl _ => None
          end
      end
  end.

Lemma lastDone_Some env a0 k todo i f :
  lastDone env a0 k todo = Some (i, f) <->
  exists n,
    i = k + n /\ todo !! n = Some f /\
    (exists r, fileOutcome env a0 i f = inr r) /\
    (forall m g, n < m -> todo !! m = Some g ->
       exists e, fileOutcome env a0 (k + m) g = inl e).
Proof.
  revert k i f. induction todo as [|f0 rest IH]; intros k i f; simpl.
  - split; [discriminate|]. intros (n & _ & H & _). rewrite lookup_nil in H.
    discriminate.
  - destruct (lastDone env a0 (S k) rest) as [[i' f']|] eqn:Hl.
    + apply IH in Hl as (n & -> & Hn & Hr & Hlater). split.
      * intros [= <- <-]. exists (S n). split; [lia|]. split; [exact Hn|].
        split; [exact Hr|]. intros [|m] g Hm Hg; [lia|].
        replace (k + S m) with (S k + m) by lia.
        apply (Hlater m g); [lia|exact Hg].
      * intros (n' & -> & Hn' & [r' Hr'] & Hlater').
        destruct (Nat.lt_trichotomy n' (S n)) as [Hlt|[->|Hgt]].
        -- destruct (Hlater' (S n) f' Hlt Hn) as [e He].
           destruct Hr as [r Hr].
           replace (k + S n) with (S k + n) in He by lia. congruence.
        -- simpl in Hn'. replace (k + S n) with (S k + n) by lia. congruence.
        -- destruct n' as [|n']; [lia|]. simpl in Hn'.
           destruct (Hlater n' f) as [e He]; [lia|exact Hn'|].
           replace (k + S n') with (S k + n') in Hr' by lia. congruence.
    + assert (forall m g, rest !! m = Some g ->
                exists e, fileOutcome env a0 (S k + m) g = inl e) as Hnone.
      { intros m g Hg.
        destruct (fileOutcome env a0 (S k + m) g) as [e|r] eqn:Ho; [eauto|].
        exfalso.
        enough (exists x, lastDone env a0 (S k) rest = Some x) as [x Hx]
          by congruence.
        clear -Hg Ho. revert k m Hg Ho.
        induction rest as [|f1 rest IH1]; intros k m Hg Ho;
          [rewrite lookup_nil in Hg; discriminate|].
        simpl. destruct m as [|m]; simpl in Hg.
        - injection Hg as ->. rewrite Nat.add_0_r in Ho. rewrite Ho.
          destruct (lastDone env a0 (S (S k)) rest); eauto.
        - replace (S k + S m) with (S (S k) + m) in Ho by lia.
          destruct (IH1 (S k) m Hg Ho) as [x ->]. eauto. }
      destruct (fileOutcome env a0 k f0) as [e|r] eqn:Ho; split.
      * discriminate.
      * intros ([|n] & -> & Hn & [r Hr] & _); simpl in Hn.
        -- injection Hn as <-. rewrite Nat.add_0_r in Hr. congruence.
        -- destruct (Hnone n f Hn) as [e' He'].
           replace (k + S n) with (S k + n) in Hr by lia. congruence.
      * intros [= <- <-]. exists 0. rewrite Nat.add_0_r.
        split; [reflexivity|]. split; [reflexivity|]. split; [eauto|].
        intros [|m] g Hm Hg; [lia|]. simpl in Hg.
        replace (k + S m) with (S k + m) by lia. apply (Hnone m g Hg).
      * intros ([|n] & -> & Hn & [r' Hr'] & Hlater); simpl in Hn.
        -- injection Hn as <-. rewrite Nat.add_0_r. reflexivity.
        -- destruct (Hnone n f Hn) as [e' He'].
           replace (k + S n) with (S k + n) in Hr' by lia. congruence.
Qed.

Lemma lastDone_None env a0 k todo :
  lastDone env a0 k todo = None <->
  forall n f, todo !! n = Some f ->
    exists e, fileOutcome env a0 (k + n) f = inl e.
Proof.
  revert k. induction todo as [|f0 rest IH]; intros k; simpl.
  - split; [|reflexivity]. intros _ n f H. rewrite lookup_nil in H.
    discriminate.
  - destruct (lastDone env a0 (S k) rest) as [x|] eqn:Hl.
    + split; [discriminate|]. intros H. exfalso.
      assert (lastDone env a0 (S k) rest = None) as Hn; [|congruence].
      apply IH. intros n f Hn.
      replace (S k + n) with (k + S n) by lia. apply (H (S n) f Hn).
    + destruct (fileOutcome env a0 k f0) as [e|r] eqn:Ho; split.
      * intros _ [|n] f Hn; simpl in Hn.
        -- injection Hn as <-. rewrite Nat.add_0_r. eauto.
        -- replace (k + S n) with (S k + n) by lia.
           apply (proj1 (IH (S k)) Hl n f Hn).
      * reflexivity.
      * discriminate.
      * intros H. destruct (H 0 f0 eq_refl) as [e He].
        rewrite Nat.add_0_r in He. congruence.
Qed.

Lemma loop_state env a0 todo k a :
  let a' := foldl (processFile env a0) a (indexedFrom k todo) in
  frameOf a' = frameOf a /\
  currentProcessingFile a' =
    match last todo with
    | Some f => name (file f)
    | None => currentProcessingFile a
    end /\
  match lastDone env a0 k todo with
  | Some (i, f) =>
      history a' = take 20 (historyItem env a0 i f :: history a0) /\
      storedHistory a' = Some (take 20 (historyItem env a0 i f :: history a0))
  | None => history a' = history a /\ storedHistory a' = storedHistory a
  end.
Proof.
  revert k a. induction todo as [|f rest IH]; intros k a; [simpl; auto|].
  rewrite indexedFrom_cons, foldl_step. cbn zeta.
  destruct (processFile_state env a0 k f a) as (Hfr & Hcur & Hh).
  destruct (IH (S k) (processFile env a0 a (k, f))) as (Hfr' & Hcur' & Hh').
  cbn zeta in Hfr', Hcur', Hh'.
  split; [congruence|]. split.
  - rewrite Hcur', (last_cons f rest).
    destruct (last rest); [reflexivity|exact Hcur].
  - cbn [lastDone]. revert Hh'.
    destruct (lastDone env a0 (S k) rest) as [[i' f']|]; [auto|].
    intros [-> ->].
    destruct (fileOutcome env a0 k f); exact Hh.
Qed.

Lemma loop_ids env a0 fs l :
  file_id <$> foldl (stepFiles env a0) fs l = file_id <$> fs.
Proof.
  revert fs. induction l as [|ix l IH]; intros fs; [reflexivity|].
  rewrite foldl_step, IH. unfold stepFiles, mapById.
  rewrite <- list_fmap_compose. apply list_fmap_ext. intros n g _. simpl.
  destruct (decide _) as [Heq|]; [|reflexivity].
  apply finish_id, Heq.
Qed.

Lemma processAll_state env a :
  frameOf (processAll env a) =
    mkFrame RESULTS false (sourceLang a) (targetLang a) (prompt a) (removeSDH a) /\
  currentProcessingFile (processAll env a) =
    match last (files a) with
    | Some f => name (file f)
    | None => currentProcessingFile a
    end /\
  match lastDone env a 0 (files a) with
  | Some (i, f) =>
      history (processAll env a) =
        take 20 (historyItem env a i f :: history a) /\
      storedHistory (processAll env a) =
        Some (take 20 (historyItem env a i f :: history a))
  | None =>
      history (processAll env a) = history a /\
      storedHistory (processAll env a) = storedHistory a
  end.
Proof.
  unfold processAll. rewrite imap_pair_indexed.
  set (a1 := setProgress _ (Fin 0)).
  destruct (loop_state env a (files a) 0 a1) as (Hfr & Hcur & Hh).
  cbn zeta in Hfr, Hcur, Hh. unfold frameOf in *. cbn.
  injection Hfr as -> _ -> -> -> ->. rewrite Hcur.
  split; [reflexivity|]. split; [reflexivity|]. exact Hh.
Qed.

(** X12. A run that passes the two guards ends on the results step with
    [isProcessing] off; it leaves both languages, the prompt and the SDH
    switch as they were; the file shown as current is the last of the
    upload; and the records are the same files in the same order, by
    identifier. *)
Theorem run_end_state env a :
  files a <> [] -> sourceLang a <> targetLang a ->
  let a' := handleStartProcessing env a in
  step a' = RESULTS /\ isProcessing a' = false /\
  sourceLang a' = sourceLang a /\ targetLang a' = targetLang a /\
  prompt a' = prompt a /\ removeSDH a' = removeSDH a /\
  (name ∘ file) <$> last (files a) = Some (currentProcessingFile a') /\
  file_id <$> files a' = file_id <$> files a.
Proof.
  intros Hf Hl a'. unfold a'. rewrite (handler_runs env a Hf Hl).
  destruct (processAll_state env a) as (Hfr & Hcur & _).
  split; [exact (f_equal fr_step Hfr)|].
  split; [exact (f_equal fr_isProcessing Hfr)|].
  split; [exact (f_equal fr_sourceLang Hfr)|].
  split; [exact (f_equal fr_targetLang Hfr)|].
  split; [exact (f_equal fr_prompt Hfr)|].
  split; [exact (f_equal fr_removeSDH Hfr)|]. split.
  - rewrite Hcur. destruct (last (files a)) eqn:Hlast; [reflexivity|].
    apply last_None in Hlast. contradiction.
  - destruct (processAll_spec env a) as (_ & _ & _ & -> & _).
    apply loop_ids.
Qed.

Lemma run_end_state_witness :
  step (handleStartProcessing Demo.envRead Demo.app1) = RESULTS /\
  currentProcessingFile (handleStartProcessing Demo.envRead Demo.app1) =
    str "c.srt".
Proof.
  destruct (run_end_state Demo.envRead Demo.app1)
    as (H1 & _ & _ & _ & _ & _ & H2 & _); [discriminate|discriminate|].
  split; [exact H1|].
  assert (forall x y : jsstring, Some x = Some y -> y = x) as Hinj
    by (intros x y [= ->]; reflexivity).
  apply Hinj. exact H2.
Defined.

(** X13. [addToHistory] reads the history that the handler captured when it
    was called (line 74).  So a run adds one item at most, whatever the
    number of files it translates: the item of the file translated last,
    put before the history of the start of the run, the whole cut to 20
    items and written to the storage.  A run in which no file reaches
    [addToHistory] leaves the history and the storage as they were. *)
Theorem history_after_run env a :
  files a <> [] -> sourceLang a <> targetLang a ->
  let a' := handleStartProcessing env a in
  (forall i f,
     files a !! i = Some f ->
     (exists r, fileOutcome env a i f = inr r) ->
     (forall j g, i < j -> files a !! j = Some g ->
        exists e, fileOutcome env a j g = inl e) ->
     history a' = take 20 (historyItem env a i f :: history a) /\
     storedHistory a' = Some (history a')) /\
  ((forall j g, files a !! j = Some g ->
      exists e, fileOutcome env a j g = inl e) ->
   history a' = history a /\ storedHistory a' = storedHistory a) /\
  length (history a') <= Nat.max 20 (length (history a)).
Proof.
  intros Hf Hl a'. unfold a'. rewrite (handler_runs env a Hf Hl).
  destruct (processAll_state env a) as (_ & _ & Hh).
  split; [|split].
  - intros i f Hi Hr Hlater.
    assert (lastDone env a 0 (files a) = Some (i, f)) as Hd.
    { apply lastDone_Some. exists i. split; [reflexivity|].
      split; [exact Hi|]. split; [exact Hr|]. exact Hlater. }
    rewrite Hd in Hh. destruct Hh as [-> ->]. auto.
  - intros Hnone.
    assert (lastDone env a 0 (files a) = None) as Hd
      by (apply lastDone_None; exact Hnone).
    rewrite Hd in Hh. exact Hh.
  - destruct (lastDone env a 0 (files a)) as [[i f]|];
      destruct Hh as [-> _]; [|lia].
    rewrite length_take. lia.
Qed.

Lemma history_after_run_witness :
  history (handleStartProcessing Demo.envRead Demo.app1) =
  [mkHistoryItem (str "0") (str "c.srt") (str "English") (str "Uzbek")
     (str "now")].
Proof.
  destruct (history_after_run Demo.envRead Demo.app1)
    as (H & _); [discriminate|discriminate|].
  destruct (H 2 (Demo.item "c.srt" 2)) as [-> _].
  - reflexivity.
  - eexists. vm_compute. reflexivity.
  - intros [|[|[|j]]] g Hj; try lia. discriminate.
  - reflexivity.
Defined.

(** ** One file at a time *)

(** The file an event belongs to. *)
Definition fileOf (e : Event) : option nat :=
  match e with
  | EvTranslate fi _ _ _ | EvSettled fi _ _ _ | EvReconstruct fi _ => Some fi
  | _ => None
  end.

Definition ofFile (P : nat -> Prop) (e : Event) : Prop :=
  forall fi, fileOf e = Some fi -> P fi.

Lemma pipeEvent_ofFile env src tgt prm i store ws e :
  pipeEvent env src tgt prm i store ws e -> ofFile (fun fi => fi = i) e.
Proof.
  intros H fi Hfi. destruct e; simpl in *; try discriminate;
    try contradiction; destruct H as (-> & _); congruence.
Qed.

Lemma pipeEvent_not_reconstruct env src tgt prm i store ws evs pre fi final post :
  Forall (pipeEvent env src tgt prm i store ws) evs ->
  evs <> pre ++ EvReconstruct fi final :: post.
Proof.
  intros Hev ->. apply Forall_app in Hev as [_ Hev].
  apply Forall_cons_1 in Hev as [H _]. exact H.
Qed.

Lemma FileTrace_files env a0 k f evs :
  FileTrace env a0 k f evs ->
  Forall (ofFile (fun fi => fi = k)) evs /\
  (forall pre i final post,
     evs = pre ++ EvReconstruct i final :: post ->
     i = k /\ Forall (ofFile (fun _ => False)) post).
Proof.
  unfold FileTrace.
  assert (forall pre i final post,
            [EvConsoleError] <> pre ++ EvReconstruct i final :: post) as Hce
    by (intros [|? [|]] i final post; discriminate).
  assert (ofFile (fun fi => fi = k) EvConsoleError) as Hof
    by (intros fi; discriminate).
  destruct (readFileAsText env (file f)) as [e|txt].
  { intros ->. split; [repeat constructor; exact Hof|].
    intros pre i final post H. destruct (Hce _ _ _ _ H). }
  destruct (parseSubtitles env txt) as [e|fresh].
  { intros ->. split; [repeat constructor; exact Hof|].
    intros pre i final post H. destruct (Hce _ _ _ _ H). }
  intros (pevs & Hp & ->).
  pose proof (PipeTrace_events _ _ _ _ _ _ _ _ _ _ _ Hp) as Hev.
  set (tail := match reconstructSubtitles env _ _ with
               | inl _ => [EvConsoleError] | inr _ => [] end).
  assert (Forall (ofFile (fun _ : nat => False)) tail) as Htail.
  { unfold tail. destruct (reconstructSubtitles _ _ _);
      repeat constructor. intros fi; discriminate. }
  split.
  - apply Forall_app. split.
    + eapply Forall_impl; [exact Hev|]. intros e. apply pipeEvent_ofFile.
    + constructor; [intros fi [= <-]; reflexivity|].
      eapply Forall_impl; [exact Htail|]. intros e He fi Hfi.
      destruct (He fi Hfi).
  - intros pre i final post H.
    destruct (app_eq_cons_cases _ _ _ _ _ H) as [(p1 & H1 & _)|(m & -> & H2)].
    + destruct (pipeEvent_not_reconstruct _ _ _ _ _ _ _ _ _ _ _ _ Hev H1).
    + destruct m as [|e m]; simpl in H2.
      * injection H2 as -> _ <-. split; [reflexivity|exact Htail].
      * injection H2 as _ H2. exfalso.
        assert (ofFile (fun _ => False) (EvReconstruct i final)) as Hr.
        { rewrite Forall_forall in Htail. apply Htail. rewrite H2.
          apply elem_of_app. right. apply list_elem_of_here. }
        exact (Hr i eq_refl).
Qed.

Lemma same_file_sorted k evs :
  Forall (ofFile (fun fi => fi = k)) evs ->
  StronglySorted le (omap fileOf evs).
Proof.
  intros H.
  assert (Forall (fun x => x = k) (omap fileOf evs)) as Hk.
  { apply Forall_forall. intros x Hx.
    apply list_elem_of_omap in Hx as (e & He & Hf).
    rewrite Forall_forall in H. exact (H e He x Hf). }
  induction Hk as [|x l Hx Hl IH]; constructor; [exact IH|].
  eapply Forall_impl; [exact Hl|]. simpl. intros y ->. lia.
Qed.

Lemma RunTrace_files env a0 k todo evs :
  RunTrace env a0 k todo evs ->
  Forall (ofFile (fun fi => k <= fi)) evs /\
  StronglySorted le (omap fileOf evs) /\
  (forall pre i final post,
     evs = pre ++ EvReconstruct i final :: post ->
     Forall (ofFile (fun fi => i < fi)) post).
Proof.
  induction 1 as [k|k f rest evs1 evs2 Hf _ (IHall & IHs & IHr)].
  - split; [constructor|]. split; [constructor|].
    intros [|? ?] i final post H; discriminate.
  - destruct (FileTrace_files _ _ _ _ _ Hf) as (Hall & Hrec).
    assert (Forall (ofFile (fun fi => k < fi)) evs2) as Hlater.
    { eapply Forall_impl; [exact IHall|]. intros e He fi Hfi.
      specialize (He fi Hfi). simpl in He. lia. }
    split; [|split].
    + apply Forall_app. split; (eapply Forall_impl; [eassumption|]);
        intros e He fi Hfi; specialize (He fi Hfi); simpl in He; lia.
    + rewrite omap_app. apply StronglySorted_app. split; [|split].
      * intros x1 x2 Hx1 Hx2.
        apply list_elem_of_omap in Hx1 as (e1 & He1 & Hf1).
        apply list_elem_of_omap in Hx2 as (e2 & He2 & Hf2).
        rewrite Forall_forall in Hall, Hlater.
        pose proof (Hall e1 He1 x1 Hf1) as H1.
        pose proof (Hlater e2 He2 x2 Hf2) as H2. simpl in H1, H2. lia.
      * exact (same_file_sorted _ _ Hall).
      * exact IHs.
    + intros pre i final post H.
      destruct (app_eq_cons_cases _ _ _ _ _ H) as [(p1 & H1 & ->)|(m & -> & H2)].
      * destruct (Hrec _ _ _ _ H1) as (-> & Hp1).
        apply Forall_app. split; [|exact Hlater].
        eapply Forall_impl; [exact Hp1|]. intros e He fi Hfi.
        destruct (He fi Hfi).
      * exact (IHr _ _ _ _ H2).
Qed.

(** X14. The files are dealt with one at a time, in the order of the
    upload: along the trace of a run the file index of the calls, of their
    settling and of the reconstruction never decreases, and once a file
    has been reconstructed every later event belongs to a later file. *)
Theorem files_one_at_a_time env a :
  exists evs,
    log (handleStartProcessing env a) = log a ++ evs /\
    StronglySorted le (omap fileOf evs) /\
    (forall pre i final post,
       evs = pre ++ EvReconstruct i final :: post ->
       Forall (ofFile (fun fi => i < fi)) post).
Proof.
  unfold handleStartProcessing.
  destruct (decide (length (files a) = 0)) as [_|_].
  { exists []. rewrite app_nil_r. split; [reflexivity|].
    split; [constructor|]. intros [|? ?] i final post H; discriminate. }
  destruct (decide (sourceLang a = targetLang a)) as [_|_].
  { exists [EvAlert ALERT_SAME_LANG]. split; [reflexivity|].
    split; [constructor|]. intros [|? [|? ?]] i final post H; discriminate. }
  destruct (processAll_spec env a) as (evs & Htr & Hlog & _).
  destruct (RunTrace_files _ _ _ _ _ Htr) as (_ & Hs & Hr).
  exists (EvProgress (Fin 0) :: evs ++ [EvProgress (Fin 100)]).
  split; [exact Hlog|]. split.
  - change (omap fileOf (EvProgress (Fin 0) :: evs ++ [EvProgress (Fin 100)]))
      with (omap fileOf (evs ++ [EvProgress (Fin 100)])).
    rewrite omap_app.
    change (omap fileOf [EvProgress (Fin 100)]) with (@nil nat).
    rewrite (app_nil_r (omap fileOf evs)). exact Hs.
  - intros pre i final post H.
    destruct pre as [|e0 pre]; [discriminate|]. injection H as _ H.
    destruct (app_eq_cons_cases _ _ _ _ _ H) as [(p1 & H1 & ->)|(m & _ & H2)].
    + apply Forall_app. split; [exact (Hr _ _ _ _ H1)|].
      repeat constructor. intros fi; discriminate.
    + destruct m as [|? [|? ?]]; discriminate.
Qed.

(** ** The records while the loop runs *)

(** The state when iteration [k] of the loop of line 94 starts. *)
Definition atIteration (env : Env) (a : App) (k : nat) : App :=
  foldl (processFile env a)
    (setProgress (setIsProcessing (setStep a RESULTS) true) (Fin 0))
    (indexedFrom 0 (take k (files a))).

Lemma indexedFrom_app k (l1 l2 : list FileItem) :
  indexedFrom k (l1 ++ l2) =
  indexedFrom k l1 ++ indexedFrom (k + length l1) l2.
Proof.
  unfold indexedFrom. rewrite imap_app. f_equal.
  apply imap_ext. intros j f _. simpl. f_equal. lia.
Qed.

Lemma processAll_from env a k :
  k <= length (files a) ->
  processAll env a =
  setProgress
    (setIsProcessing
       (foldl (processFile env a) (atIteration env a k)
          (indexedFrom k (drop k (files a)))) false) (Fin 100).
Proof.
  intros Hk. unfold processAll, atIteration.
  rewrite imap_pair_indexed.
  assert (indexedFrom 0 (files a) =
          indexedFrom 0 (take k (files a)) ++
          indexedFrom k (drop k (files a))) as ->.
  { rewrite <- (take_drop k (files a)) at 1.
    rewrite indexedFrom_app, length_take. do 2 f_equal. lia. }
  rewrite foldl_app. reflexivity.
Qed.

(** X15. Identifiers being unique, when iteration [k] of the loop starts
    the component is on the results step with [isProcessing] on, the
    record of every file before [k] is what its own iteration made of it,
    in a terminal state, and the record of [k] and of every later file is
    still what it was when the handler was called; the run is the rest of
    the loop from that state. *)
Theorem records_during_the_loop env a k :
  NoDup (file_id <$> files a) -> k <= length (files a) ->
  step (atIteration env a k) = RESULTS /\
  isProcessing (atIteration env a k) = true /\
  (forall m g, files a !! m = Some g ->
     files (atIteration env a k) !! m =
     Some (if decide (m < k) then finish env a m g g else g)) /\
  (forall m g', m < k -> files (atIteration env a k) !! m = Some g' ->
     terminal g') /\
  processAll env a =
  setProgress
    (setIsProcessing
       (foldl (processFile env a) (atIteration env a k)
          (indexedFrom k (drop k (files a)))) false) (Fin 100).
Proof.
  intros Hnd Hk.
  set (a1 := setProgress (setIsProcessing (setStep a RESULTS) true) (Fin 0)).
  assert (frameOf (atIteration env a k) = frameOf a1) as Hfr
    by apply (loop_state env a (take k (files a)) 0 a1).
  assert (files (atIteration env a k) =
          foldl (stepFiles env a) (files a)
            (indexedFrom 0 (take k (files a)))) as Hfiles.
  { destruct (loop_spec env a (take k (files a)) 0 a1) as (_ & _ & _ & H).
    exact H. }
  assert (forall m g, files a !! m = Some g ->
            files (atIteration env a k) !! m =
            Some (if decide (m < k) then finish env a m g g else g)) as Hrec.
  { intros m g Hg. rewrite Hfiles.
    destruct (loop_files env a (take k (files a)) 0 (files a) m g Hg)
      as (g' & -> & _ & Hout & _ & Huniq).
    f_equal. destruct (decide (m < k)) as [Hlt|Hge].
    - apply (Huniq m g); [rewrite lookup_take_lt by exact Hlt; exact Hg
                        |reflexivity|].
      intros n' f' Hn' Hid.
      apply lookup_take_Some in Hn' as [Hn' _].
      apply (NoDup_lookup _ _ _ (file_id g) Hnd).
      + rewrite list_lookup_fmap, Hn'. simpl. congruence.
      + rewrite list_lookup_fmap, Hg. reflexivity.
    - apply Hout. intros Hin.
      apply list_elem_of_fmap in Hin as (f' & Hid & Hin).
      apply list_elem_of_lookup_1 in Hin as [n Hn].
      apply lookup_take_Some in Hn as [Hn Hnk].
      assert (n = m); [|lia].
      apply (NoDup_lookup _ _ _ (file_id g) Hnd).
      + rewrite list_lookup_fmap, Hn. simpl. congruence.
      + rewrite list_lookup_fmap, Hg. reflexivity. }
  split; [exact (f_equal fr_step Hfr)|].
  split; [exact (f_equal fr_isProcessing Hfr)|].
  split; [exact Hrec|]. split; [|apply processAll_from, Hk].
  intros m g' Hm Hg'.
  destruct (lookup_lt_is_Some_2 (files a) m) as [g Hg]; [lia|].
  rewrite (Hrec m g Hg) in Hg'. injection Hg' as <-.
  destruct (decide (m < k)); [apply finish_terminal|contradiction].
Qed.

Lemma records_during_the_loop_witness :
  files (atIteration Demo.envRead Demo.app1 2) !! 2 = Some (Demo.item "c.srt" 2) /\
  (forall g', files (atIteration Demo.envRead Demo.app1 2) !! 1 = Some g' ->
     terminal g').
Proof.
  destruct (records_during_the_loop Demo.envRead Demo.app1 2)
    as (_ & _ & H1 & H2 & _).
  - apply (bool_decide_unpack _). vm_compute. reflexivity.
  - simpl. lia.
  - split; [exact (H1 2 (Demo.item "c.srt" 2) eq_refl)|].
    intros g'. apply (H2 1 g'). lia.
Defined.

(** ** The theme and the stored history *)

(** X16. A toggle flips the mode and leaves the class and the storage in
    step with it; loading the page again then gives that very state,
    whatever the system preference and the class of the page; toggling
    twice gives the first mode back.  Loading alone never writes the
    storage, so that a user who never toggled follows the system
    preference at every load. *)
Theorem theme_survives_reload t prefersDark cls :
  isDarkMode (toggleTheme t) = negb (isDarkMode t) /\
  darkClass (toggleTheme t) = isDarkMode (toggleTheme t) /\
  pageLoad prefersDark cls (theme (toggleTheme t)) = toggleTheme t /\
  isDarkMode (toggleTheme (toggleTheme t)) = isDarkMode t /\
  pageLoad prefersDark cls None = mkTheme prefersDark prefersDark None.
Proof.
  destruct t as [[|] c s], prefersDark; repeat split; reflexivity.
Qed.

(** The history shown is the history stored. *)
Definition synced (a : App) : Prop :=
  storedHistory a = Some (history a) \/
  (storedHistory a = None /\ history a = []).

Lemma synced_reload a : synced a -> history (mount (storedHistory a)) = history a.
Proof.
  unfold mount, loadHistory. intros [H|[H Hh]]; rewrite H; simpl; congruence.
Qed.

Lemma handler_synced env a : synced a -> synced (handleStartProcessing env a).
Proof.
  intros Hs. unfold handleStartProcessing.
  destruct (decide (length (files a) = 0)); [exact Hs|].
  destruct (decide (sourceLang a = targetLang a)); [exact Hs|].
  destruct (processAll_state env a) as (_ & _ & Hh).
  destruct (lastDone env a 0 (files a)) as [[i f]|].
  - destruct Hh as [Hh Hst]. left. rewrite Hst, Hh. reflexivity.
  - destruct Hh as [Hh Hst]. unfold synced. rewrite Hh, Hst. exact Hs.
Qed.

(** X17. If the history shown is the one stored when a run starts, it is
    so when the run ends, and loading the page after the run shows the
    history that the run left. *)
Theorem history_survives_reload env a :
  synced a ->
  synced (handleStartProcessing env a) /\
  history (mount (storedHistory (handleStartProcessing env a))) =
    history (handleStartProcessing env a).
Proof.
  intros Hs. pose proof (handler_synced env a Hs) as H.
  split; [exact H|apply synced_reload, H].
Qed.

Lemma history_survives_reload_witness :
  history (mount (storedHistory (handleStartProcessing Demo.envRead Demo.app1))) =
  history (handleStartProcessing Demo.envRead Demo.app1).
Proof.
  apply (history_survives_reload Demo.envRead Demo.app1).
  right. split; reflexivity.
Defined.

(** X18. Loading the page shows the stored history, or none when the key
    is absent; clearing empties the history and removes the key, so that
    the next load shows an empty history; a restart empties the upload
    and goes back to the first step with the history and the storage
    untouched, and the handler then returns at once. *)
Theorem history_load_clear_restart env stored a :
  synced (mount stored) /\
  history (mount stored) = default [] stored /\
  synced (onClear a) /\
  history (mount (storedHistory (onClear a))) = [] /\
  history (onRestart a) = history a /\
  storedHistory (onRestart a) = storedHistory a /\
  handleStartProcessing env (onRestart a) = onRestart a.
Proof.
  split; [destruct stored; [left|right; split]; reflexivity|].
  split; [destruct stored; reflexivity|].
  split; [right; split; reflexivity|].
  repeat split; reflexivity.
Qed.
